(** * Huntress article extraction: a shallow embedding and its properties

  The development follows the TypeScript sources of the repository:
  - [helpers.ts]   ([Compare], the trigram matcher, and the small helpers),
  - [extract_news.ts] ([NewsExtract], the field extractor and the noise
    cleaning pass [clean_extracted_content]),
  - [general_parser.ts] ([GeneralParser], content scoring and selection,
    title and metadata extraction, the clean-up of the document tree) and
    [author.ts] ([Author]),
  - [parser.ts] ([OnlineParser] and [parserExtensionView]) and
    [youtube-scraper.ts] ([YouTubeScraper]).

  JavaScript strings are modelled by [string]: a sequence of code units
  below 256.  The result of [toUpperCase] on such a string can leave that
  range and change length; where the code keeps it (the trigram keys of
  [Compare]) it is a list of code units ([Utf16.t]).  Numbers that are
  array lengths, counters or sums of them are [nat] or [Z]: they are
  integers below 2^53, on which double precision arithmetic is exact.
  Numbers produced by a division are IEEE 754 doubles ([Float64.t]), with
  the operations of the Standard Library's [SpecFloat] at precision 53. *)

From Stdlib Require Import Ascii String ZArith Lia SpecFloat.
From Stdlib Require Import DecimalString DecimalN Permutation Sorted.
From stdpp Require Import base list gmap strings.

Set Warnings "-register-all,-clear-no-such-hyp".

Local Open Scope string_scope.
Local Open Scope nat_scope.
Local Open Scope list_scope.

(** ** JavaScript string primitives *)

Module JsString.

Definition code (c : ascii) : nat := nat_of_ascii c.

Definition is_digit (c : ascii) : bool := (48 <=? code c) && (code c <=? 57).

(** The members of the class [\w]. *)
Definition is_word (c : ascii) : bool :=
  is_digit c || ((65 <=? code c) && (code c <=? 90))
  || ((97 <=? code c) && (code c <=? 122)) || (code c =? 95).

(** White space and line terminators below 256: the class [\s], and what
    [trim] removes. *)
Definition is_space (c : ascii) : bool :=
  ((9 <=? code c) && (code c <=? 13)) || (code c =? 32) || (code c =? 160).

Definition is_line_terminator (c : ascii) : bool := (code c =? 10) || (code c =? 13).

(** The capital of one code unit when it is one code unit below 256: the
    letters a-z and the Latin-1 letters but 181, 223 and 255, which are left
    as they are.  This is the case map of a case-insensitive regular
    expression. *)
Definition upper_ascii (c : ascii) : ascii :=
  let n := code c in
  if ((97 <=? n) && (n <=? 122)) || ((224 <=? n) && (n <=? 254) && negb (n =? 247))
  then ascii_of_nat (n - 32) else c.

(** [String.prototype.toLowerCase] on one code unit. *)
Definition lower_ascii (c : ascii) : ascii :=
  let n := code c in
  if ((65 <=? n) && (n <=? 90)) || ((192 <=? n) && (n <=? 222) && negb (n =? 215))
  then ascii_of_nat (n + 32) else c.

Fixpoint map_string (f : ascii -> ascii) (s : string) : string :=
  match s with
  | EmptyString => EmptyString
  | String c r => String (f c) (map_string f r)
  end.

(** [String.prototype.toUpperCase] with its result in code units below 256:
    sharp s (223) gives "SS".  The capitals of the code units 181 and 255
    lie above 255; here the two are kept, and [Utf16.toUpperCase] has their
    capitals. *)
Fixpoint toUpperCase (s : string) : string :=
  match s with
  | EmptyString => EmptyString
  | String c r =>
      if code c =? 223 then String "S" (String "S" (toUpperCase r))
      else String (upper_ascii c) (toUpperCase r)
  end.

(** [String.prototype.toLowerCase]. *)
Definition toLowerCase : string -> string := map_string lower_ascii.

(** [s.substring(i, i + n)]. *)
Definition substring (i n : nat) (s : string) : string := String.substring i n s.

(** [s.startsWith(p)]. *)
Definition startsWith (p s : string) : bool := String.prefix p s.

(** [s.includes(p)], also [s.indexOf(p) !== -1]. *)
Fixpoint includes (p s : string) : bool :=
  String.prefix p s ||
  match s with
  | EmptyString => false
  | String _ r => includes p r
  end.

(** Decimal rendering of a non-negative integer. *)
Definition of_nat (n : nat) : string := NilEmpty.string_of_uint (Nat.to_uint n).

(** [String.prototype.trim]. *)
Fixpoint trim_left (l : list ascii) : list ascii :=
  match l with
  | c :: r => if is_space c then trim_left r else l
  | [] => []
  end.

Definition trim (s : string) : string :=
  string_of_list_ascii
    (reverse (trim_left (reverse (trim_left (list_ascii_of_string s))))).

(** [s.split(sep)] for a one-character separator: the pieces, in order. *)
Fixpoint split_on (sep : ascii) (s : string) : list string :=
  match s with
  | EmptyString => [EmptyString]
  | String c r =>
      if Ascii.eqb c sep then EmptyString :: split_on sep r
      else match split_on sep r with
           | [] => [String c EmptyString]
           | piece :: pieces => String c piece :: pieces
           end
  end.

(** [pieces.join(sep)]. *)
Fixpoint join (sep : string) (pieces : list string) : string :=
  match pieces with
  | [] => EmptyString
  | [piece] => piece
  | piece :: rest => piece +:+ sep +:+ join sep rest
  end.

(** JavaScript truthiness of a string. *)
Definition truthy (s : string) : bool := negb (String.eqb s EmptyString).

End JsString.

(** ** Strings by their code units

  [toUpperCase] does not stay below 256 and does not keep the length: the
  capital of sharp s is "SS", and two Latin-1 letters have their capital
  outside Latin-1. *)

Module Utf16.

Import JsString.

(** A string given by its 16-bit code units. *)
Abbreviation t := (list nat) (only parsing).

Definition of_string (s : string) : t := map code (list_ascii_of_string s).

(** [String.prototype.toUpperCase] on one code unit below 256.  The letters
    a-z and the Latin-1 letters whose capital is below 256 lose 32; sharp s
    (223) gives "SS"; the capitals of the micro sign (181) and of y with
    diaeresis (255) are the code units 924 and 376. *)
Definition upper (c : ascii) : t :=
  let n := code c in
  if ((97 <=? n) && (n <=? 122)) || ((224 <=? n) && (n <=? 254) && negb (n =? 247))
  then [n - 32]
  else if n =? 223 then [83; 83]
  else if n =? 181 then [924]
  else if n =? 255 then [376]
  else [n].

(** [String.prototype.toUpperCase] on a string of code units below 256. *)
Definition toUpperCase (s : string) : t := flat_map upper (list_ascii_of_string s).

(** [s.substring(i, j)] for [i <= j]. *)
Definition substring (i j : nat) (s : t) : t := take (j - i) (drop i s).

End Utf16.

(** ** Numbers in double precision

  The operations are those of [SpecFloat] at precision 53 and maximal
  exponent 1024 (binary64, rounding to nearest, ties to even). *)

Module Float64.

Definition prec : Z := 53.
Definition emax : Z := 1024.

Abbreviation t := spec_float (only parsing).

(** The double of an integer: the nearest one, exact below 2^53. *)
Definition of_Z (z : Z) : t := binary_normalize prec emax z 0 false.
Definition of_nat (n : nat) : t := of_Z (Z.of_nat n).

Definition add : t -> t -> t := SFadd prec emax.
Definition sub : t -> t -> t := SFsub prec emax.
Definition mul : t -> t -> t := SFmul prec emax.
Definition div : t -> t -> t := SFdiv prec emax.

(** [a < b] and [a <= b]: false when either side is [NaN]. *)
Definition ltb : t -> t -> bool := SFltb.
Definition leb : t -> t -> bool := SFleb.

(** [Math.max(a, b)]: [NaN] when either is; [+0] is above [-0]. *)
Definition max (a b : t) : t :=
  match SFcompare a b with
  | None => S754_nan
  | Some Lt => b
  | Some Gt => a
  | Some Eq => match a with
               | S754_zero true => b
               | _ => a
               end
  end.

(** The values of [Math.round]: an integral double is given by its integer
    (the two zeros, printed alike, are both [Int 0]). *)
Inductive integral :=
| Int (z : Z)
| Infinity (negative : bool)
| NaN.

(** [Math.round(x)]: [floor(x + 1/2)], computed exactly. *)
Definition round (x : t) : integral :=
  match x with
  | S754_nan => NaN
  | S754_infinity s => Infinity s
  | S754_zero _ => Int 0
  | S754_finite s m e =>
      let v := if s then Z.neg m else Z.pos m in
      match e with
      | Z.neg k => let d := Z.pow_pos 2 k in Int ((2 * v + d) / (2 * d))
      | _ => Int (v * 2 ^ e)
      end
  end.

(** [Math.floor(x)]. *)
Definition floor (x : t) : integral :=
  match x with
  | S754_nan => NaN
  | S754_infinity s => Infinity s
  | S754_zero _ => Int 0
  | S754_finite s m e =>
      let v := if s then Z.neg m else Z.pos m in
      match e with
      | Z.neg k => Int (v / Z.pow_pos 2 k)
      | _ => Int (v * 2 ^ e)
      end
  end.

(** An integral value as the double it is. *)
Definition of_integral (x : integral) : t :=
  match x with
  | Int z => of_Z z
  | Infinity s => S754_infinity s
  | NaN => S754_nan
  end.

(** [x % d] for an integral [x] and an integer [d] other than zero: the
    remainder has the sign of [x]; there is none for an infinity. *)
Definition rem (x : integral) (d : Z) : integral :=
  match x with
  | Int z => Int (Z.rem z d)
  | Infinity _ | NaN => NaN
  end.

(** The decimal digits of a non-negative integer. *)
Definition decimal (n : Z) : string := NilZero.string_of_uint (N.to_uint (Z.to_N n)).

(** Whether the integer [v] is read as the double of the integer [x]. *)
Definition rounds_to (v x : Z) : bool := SFeqb (of_Z v) (of_Z x).

(** [Number::toString] from 10^21 on, for a double [x] of [n] digits: the
    least number [k] of digits and the integer [s] of [k] digits such that
    [s * 10^(n-k)] is read as [x]; of two such [s] the one nearer to [x],
    the even one when they are as near. *)
Fixpoint shortest (x : Z) (n : nat) (ks : list nat) : Z * nat :=
  match ks with
  | [] => (x, n)
  | k :: rest =>
      let p := (10 ^ Z.of_nat (n - k))%Z in
      let lo := (x / p)%Z in
      let hi := (lo + 1)%Z in
      let ok_lo := rounds_to (lo * p) x in
      let ok_hi := (hi <? 10 ^ Z.of_nat k)%Z && rounds_to (hi * p) x in
      if ok_lo && ok_hi then
        let dlo := (x - lo * p)%Z in
        let dhi := (hi * p - x)%Z in
        (if (dlo <? dhi)%Z then lo
         else if (dhi <? dlo)%Z then hi
         else if Z.even lo then lo else hi, k)
      else if ok_lo then (lo, k)
      else if ok_hi then (hi, k)
      else shortest x n rest
  end.

Definition exponent_text (x : Z) : string :=
  let n := String.length (decimal x) in
  if rounds_to (10 ^ Z.of_nat n) x then "1e+" +:+ decimal (Z.of_nat n)
  else
    let '(s, k) := shortest x n (seq 1 17) in
    let digits := decimal s in
    (if k =? 1 then digits
     else String.substring 0 1 digits +:+ "." +:+ String.substring 1 (k - 1) digits)
    +:+ "e+" +:+ decimal (Z.of_nat (n - 1)).

(** [Number::toString] of a non-negative integral double: its digits below
    10^21, the exponent notation from there on. *)
Definition natural_text (x : Z) : string :=
  if (x <? 10 ^ 21)%Z then decimal x else exponent_text x.

(** [String(x)] for a value of [Math.round]. *)
Definition to_string (x : integral) : string :=
  match x with
  | NaN => "NaN"
  | Infinity s => if s then "-Infinity" else "Infinity"
  | Int z => if (z <? 0)%Z then "-" +:+ natural_text (- z) else natural_text z
  end.

End Float64.

(** ** helpers.ts: the trigram matcher [Compare] *)

Module Compare.

Import JsString.

Record t := mk {
  words : list string;
  word_trigram_count : list nat;
  trigrams : gmap Utf16.t (list nat);
  trigrams_count : list nat;
  trigrams_matches : nat
}.

(** The state after the field initialisers of the constructor. *)
Definition init : t := mk [] [] ∅ [] 0.

(** [__to_trigram]: the arguments passed to the callback, in order. *)
Definition to_trigram (word : string) : list Utf16.t :=
  let data := Utf16.toUpperCase ("  " +:+ word +:+ "  ") in
  List.filter (fun trigram => length trigram =? 3)
    (map (fun i => Utf16.substring i (i + 3) data) (seq 0 (length data - 2))).

(** [arr[i]++] on an array of numbers. *)
Definition incr (i : nat) (l : list nat) : list nat := alter S i l.

(** The callback of [__set] for the word stored at [word_index]. *)
Definition set_callback (word_index : nat) (st : t) (arg : Utf16.t) : t :=
  let words_for_trigram := default [] (trigrams st !! arg) in
  let words_for_trigram :=
    if bool_decide (word_index ∈ words_for_trigram) then words_for_trigram
    else words_for_trigram ++ [word_index] in
  mk (words st)
     (incr word_index (word_trigram_count st))
     (<[arg := words_for_trigram]> (trigrams st))
     (trigrams_count st)
     (trigrams_matches st).

(** [__set]. *)
Definition set (st : t) (word : string) : t :=
  if bool_decide (word = "") || bool_decide (word ∈ words st) then st
  else
    let st1 := mk (words st ++ [word])
                  (word_trigram_count st ++ [0])
                  (trigrams st)
                  (trigrams_count st ++ [0])
                  (trigrams_matches st) in
    let word_index := length (words st1) - 1 in
    foldl (set_callback word_index) st1 (to_trigram word).

(** [new Compare(words_list)]. *)
Definition new (words_list : list string) : t := foldl set init words_list.

(** One element of the array returned by [eval]. *)
Record entry := mk_entry {
  word : string;
  matches : nat;
  similarity : string
}.

(** The inner loop of the callback of [eval] over [words_for_trigram]. *)
Definition bump (acc : list nat * list nat) (word_index : nat) : list nat * list nat :=
  (incr word_index acc.1, incr word_index acc.2).

(** The callback of [eval]: state is [(trigrams_count, word_matches)] and
    the counter [trigrams_matches].  A trigram missing from the index makes
    the loop header throw, after the counter was incremented; the
    exception is swallowed. *)
Definition eval_callback (index : gmap Utf16.t (list nat))
    (acc : list nat * list nat * nat) (arg : Utf16.t) : list nat * list nat * nat :=
  match index !! arg with
  | Some words_for_trigram => (foldl bump acc.1 words_for_trigram, S acc.2)
  | None => (acc.1, S acc.2)
  end.

(** [(word_matches[i] / count) * 100]: a division and a multiplication in
    double precision. *)
Definition percentage (m count : nat) : Float64.t :=
  Float64.mul (Float64.div (Float64.of_nat m) (Float64.of_nat count)) (Float64.of_Z 100).

(** [Math.round(percentage) + "%"]. *)
Definition similarity_of (m count : nat) : string :=
  Float64.to_string (Float64.round (percentage m count)) +:+ "%".

(** [percentage >= 49]. *)
Definition reaches_threshold (m count : nat) : bool :=
  Float64.leb (Float64.of_Z 49) (percentage m count).

(** The final loop of [eval]: one step for index [i]. *)
Definition collect (st : t) (word_matches : list nat) (i : nat) : list entry :=
  match word_trigram_count st !! i, word_matches !! i, words st !! i with
  | Some count, Some m, Some w =>
      if reaches_threshold m count
      then [mk_entry w m (similarity_of m count)] else []
  | _, _, _ => []
  end.

(** [result.sort((a, b) => b.matches - a.matches)]: a stable sort, larger
    match counts first; [sort_desc] inserts from the right, and an entry
    goes before the entries of the same count that follow it in [result]. *)
Fixpoint insert_desc (e : entry) (l : list entry) : list entry :=
  match l with
  | [] => [e]
  | x :: r => if matches x <=? matches e then e :: l else x :: insert_desc e r
  end.

Definition sort_desc (l : list entry) : list entry := foldr insert_desc [] l.

(** [eval]: the returned array and the mutated instance. *)
Definition eval (cand : string) (st : t) : list entry * t :=
  let word_matches := replicate (length (words st)) 0 in
  let '(tc, wm, tm) :=
    foldl (eval_callback (trigrams st)) (trigrams_count st, word_matches, 0)
          (to_trigram cand) in
  let result := flat_map (collect st wm) (seq 0 (length tc)) in
  (sort_desc result, mk (words st) (word_trigram_count st) (trigrams st) tc tm).

(** *** Notions used to state what [new] and [eval] compute *)

(** The number of trigrams of a token. *)
Definition trigram_count (w : string) : nat := length (to_trigram w).

(** The number of trigrams of the candidate, repetitions included, that are
    trigrams of the token. *)
Definition spec_matches (w cand : string) : nat :=
  length (List.filter (fun g => bool_decide (g ∈ to_trigram w)) (to_trigram cand)).

(** The entry reported for a token, when it is reported. *)
Definition spec_entry (cand w : string) : entry :=
  mk_entry w (spec_matches w cand) (similarity_of (spec_matches w cand) (trigram_count w)).

(** The tokens whose percentage, before rounding, is at least 49, in
    vocabulary order. *)
Definition expected (cand : string) (vocabulary : list string) : list entry :=
  flat_map
    (fun w => if reaches_threshold (spec_matches w cand) (trigram_count w)
              then [spec_entry cand w] else [])
    vocabulary.

(** The order of the returned array. *)
Definition desc (a b : entry) : Prop := matches b ≤ matches a.

(** The index entry of a trigram, [[]] when there is none. *)
Definition index_of (st : t) (g : Utf16.t) : list nat := default [] (trigrams st !! g).

(** The instance invariant established by the constructor. *)
Definition wf (st : t) : Prop :=
  length (word_trigram_count st) = length (words st)
  ∧ length (trigrams_count st) = length (words st)
  ∧ (∀ g, NoDup (index_of st g))
  ∧ (∀ g i, i ∈ index_of st g ↔ ∃ w, words st !! i = Some w ∧ g ∈ to_trigram w)
  ∧ (∀ i w, words st !! i = Some w → word_trigram_count st !! i = Some (trigram_count w)).

(** The state of [__set] after the callback ran on the trigrams [seen] of
    the new word. *)
Definition set_inv (st0 : t) (w : string) (seen : list Utf16.t) (st : t) : Prop :=
  words st = words st0 ++ [w]
  ∧ word_trigram_count st = word_trigram_count st0 ++ [length seen]
  ∧ trigrams_count st = trigrams_count st0 ++ [0]
  ∧ (∀ g, NoDup (index_of st g))
  ∧ (∀ g i, i ∈ index_of st g ↔
            (∃ v, words st0 !! i = Some v ∧ g ∈ to_trigram v)
            ∨ (i = length (words st0) ∧ g ∈ seen)).

End Compare.


(** ** Regular expressions

  The subset of ECMAScript regular expressions used by the sources:
  literals, escapes, classes, [.], [^], [$], groups, alternation and the
  greedy quantifiers, with the flags [i] and [m].  Matching is the
  backtracking search of the language definition: alternatives are tried
  left to right, a quantifier takes as many iterations as it can and gives
  them back one at a time, and an iteration that consumes nothing is
  rejected. *)

Module Regex.

Import JsString.

Inductive citem :=
| CChar (c : ascii)
| CRange (lo hi : ascii)
| CDigit (neg : bool)
| CWord (neg : bool)
| CSpace (neg : bool).

Inductive re :=
| Eps
| Never                      (* a code unit above 255: absent from every modelled string *)
| Chr (c : ascii)
| Any
| Class (neg : bool) (items : list citem)
| Bol
| Eol
| Seq (a b : re)
| Alt (a b : re)
| Star (a : re).

Record flags := mk_flags { fl_g : bool; fl_i : bool; fl_m : bool }.

Definition chr_eq (a b : ascii) : bool := code a =? code b.

Definition item_matches (ci : bool) (x : ascii) (it : citem) : bool :=
  match it with
  | CChar c => if ci then chr_eq (upper_ascii x) (upper_ascii c) else chr_eq x c
  | CRange lo hi =>
      let inr y := (code lo <=? code y) && (code y <=? code hi) in
      if ci then inr x || inr (upper_ascii x) || inr (lower_ascii x) else inr x
  | CDigit neg => xorb neg (is_digit x)
  | CWord neg => xorb neg (is_word x)
  | CSpace neg => xorb neg (is_space x)
  end.

Definition K := option ascii -> list ascii -> option (list ascii).

(** [run fl r prev s k]: match [r] at the position whose previous code
    unit is [prev] and whose remaining input is [s], then continue with
    [k]; the result is the input left after the whole match. *)
Fixpoint run (fl : flags) (r : re) (prev : option ascii) (s : list ascii) (k : K)
  : option (list ascii) :=
  match r with
  | Eps => k prev s
  | Never => None
  | Chr c =>
      match s with
      | x :: s' =>
          if (if fl_i fl then chr_eq (upper_ascii x) (upper_ascii c) else chr_eq x c)
          then k (Some x) s' else None
      | [] => None
      end
  | Any =>
      match s with
      | x :: s' => if is_line_terminator x then None else k (Some x) s'
      | [] => None
      end
  | Class neg items =>
      match s with
      | x :: s' =>
          if xorb neg (existsb (item_matches (fl_i fl) x) items)
          then k (Some x) s' else None
      | [] => None
      end
  | Bol =>
      match prev with
      | None => k prev s
      | Some p => if fl_m fl && is_line_terminator p then k prev s else None
      end
  | Eol =>
      match s with
      | [] => k prev s
      | x :: _ => if fl_m fl && is_line_terminator x then k prev s else None
      end
  | Seq a b => run fl a prev s (fun p' s' => run fl b p' s' k)
  | Alt a b =>
      match run fl a prev s k with
      | Some e => Some e
      | None => run fl b prev s k
      end
  | Star a =>
      (fix loop (n : nat) (prev : option ascii) (s : list ascii) {struct n}
         : option (list ascii) :=
         match n with
         | O => k prev s
         | S n' =>
             match run fl a prev s
                     (fun p' s' =>
                        if length s' <? length s then loop n' p' s' else None) with
             | Some e => Some e
             | None => k prev s
             end
         end) (S (length s)) prev s
  end.

(** The class [\s] as a pattern. *)
Definition ws : re := Class false [CSpace false].

(** A match starting exactly at the current position: the matched code
    units and the rest of the input. *)
Definition match_here (fl : flags) (r : re) (prev : option ascii) (s : list ascii)
  : option (list ascii * list ascii) :=
  match run fl r prev s (fun _ s' => Some s') with
  | Some rest => Some (take (length s - length rest) s, rest)
  | None => None
  end.

(** The leftmost match at or after the current position: the code units
    skipped, the match and the rest. *)
Fixpoint search (fl : flags) (r : re) (prev : option ascii) (s : list ascii)
  : option (list ascii * list ascii * list ascii) :=
  match match_here fl r prev s with
  | Some (m, rest) => Some ([], m, rest)
  | None =>
      match s with
      | [] => None
      | x :: s' =>
          match search fl r (Some x) s' with
          | Some (skipped, m, rest) => Some (x :: skipped, m, rest)
          | None => None
          end
      end
  end.

(** [String.prototype.replace] with a global pattern and a replacement
    without [$] patterns: after an empty match the scan moves one code
    unit forward. *)
Fixpoint replace_loop (n : nat) (fl : flags) (r : re) (by_ : list ascii)
    (prev : option ascii) (s : list ascii) : list ascii :=
  match n with
  | O => s
  | S n' =>
      match match_here fl r prev s with
      | Some (m, rest) =>
          match m with
          | [] =>
              match s with
              | [] => by_
              | x :: s' => by_ ++ x :: replace_loop n' fl r by_ (Some x) s'
              end
          | _ :: _ => by_ ++ replace_loop n' fl r by_ (last m) rest
          end
      | None =>
          match s with
          | [] => []
          | x :: s' => x :: replace_loop n' fl r by_ (Some x) s'
          end
      end
  end.

(** [String.prototype.split] with a pattern that has no capture group:
    [piece] collects, in reverse, the code units since the last separator. *)
Fixpoint split_loop (n : nat) (fl : flags) (r : re) (piece : list ascii)
    (prev : option ascii) (s : list ascii) : list (list ascii) :=
  match n with
  | O => [reverse piece ++ s]
  | S n' =>
      match s with
      | [] => [reverse piece]
      | x :: s' =>
          match match_here fl r prev s with
          | Some (_ :: _ as m, rest) =>
              reverse piece :: split_loop n' fl r [] (last m) rest
          | Some ([], _) =>
              match piece with
              | [] => split_loop n' fl r [x] (Some x) s'
              | _ :: _ => reverse piece :: split_loop n' fl r [x] (Some x) s'
              end
          | None => split_loop n' fl r (x :: piece) (Some x) s'
          end
      end
  end.

Definition replace_first (fl : flags) (r : re) (by_ : list ascii) (s : list ascii)
  : list ascii :=
  match search fl r None s with
  | Some (skipped, _, rest) => skipped ++ by_ ++ rest
  | None => s
  end.

(** *** Reading a pattern from its source text

    Patterns are kept as the text between the slashes of the literal.  A
    double quote is written [\x22] and a code unit above 127 is written
    [\xHH] or [\uHHHH]; these escapes denote the same code unit. *)

Definition hex_val (c : ascii) : option nat :=
  let n := code c in
  if (48 <=? n) && (n <=? 57) then Some (n - 48)
  else if (65 <=? n) && (n <=? 70) then Some (n - 55)
  else if (97 <=? n) && (n <=? 102) then Some (n - 87)
  else None.

Fixpoint hex_num (digits : list ascii) (acc : nat) : option nat :=
  match digits with
  | [] => Some acc
  | d :: r => match hex_val d with
              | Some v => hex_num r (16 * acc + v)
              | None => None
              end
  end.

Inductive esc :=
| EChar (c : ascii)
| ENever
| EItem (it : citem).

Definition esc_of_code (n : nat) : esc :=
  if n <? 256 then EChar (ascii_of_nat n) else ENever.

Fixpoint dec_num (s : list ascii) (acc : nat) : nat * list ascii :=
  match s with
  | c :: r => if is_digit c then dec_num r (10 * acc + (code c - 48)) else (acc, s)
  | [] => (acc, s)
  end.

Definition LF := ascii_of_nat 10.
Definition CR := ascii_of_nat 13.
Definition TAB := ascii_of_nat 9.
Definition VT := ascii_of_nat 11.
Definition FF := ascii_of_nat 12.

Local Open Scope char_scope.

(** The escape after a backslash. *)
Definition p_escape (s : list ascii) : option (esc * list ascii) :=
  match s with
  | "d" :: r => Some (EItem (CDigit false), r)
  | "D" :: r => Some (EItem (CDigit true), r)
  | "w" :: r => Some (EItem (CWord false), r)
  | "W" :: r => Some (EItem (CWord true), r)
  | "s" :: r => Some (EItem (CSpace false), r)
  | "S" :: r => Some (EItem (CSpace true), r)
  | "n" :: r => Some (EChar LF, r)
  | "r" :: r => Some (EChar CR, r)
  | "t" :: r => Some (EChar TAB, r)
  | "v" :: r => Some (EChar VT, r)
  | "f" :: r => Some (EChar FF, r)
  | "x" :: a :: b :: r =>
      match hex_num [a; b] 0%nat with
      | Some n => Some (esc_of_code n, r)
      | None => None
      end
  | "u" :: a :: b :: c :: d :: r =>
      match hex_num [a; b; c; d] 0%nat with
      | Some n => Some (esc_of_code n, r)
      | None => None
      end
  | c :: r =>
      (* identity escapes only; [\b], [\B], back references and the
         other letters are outside the modelled subset *)
      if is_word c then None else Some (EChar c, r)
  | [] => None
  end.

(** One member of a class: a code unit or an escape. *)
Definition p_class_atom (s : list ascii) : option (esc * list ascii) :=
  match s with
  | "\" :: r => p_escape r
  | c :: r => Some (EChar c, r)
  | [] => None
  end.

Definition items_of (e : esc) : list citem :=
  match e with
  | EChar c => [CChar c]
  | ENever => []
  | EItem it => [it]
  end.

Fixpoint p_class_items (n : nat) (s : list ascii) : option (list citem * list ascii) :=
  match n with
  | O => None
  | S n' =>
      match s with
      | "]" :: r => Some ([], r)
      | _ =>
          match p_class_atom s with
          | Some (e1, "-" :: "]" :: r) => Some (items_of e1 ++ [CChar "-"], r)
          | Some (EChar lo, "-" :: r1) =>
              match p_class_atom r1 with
              | Some (EChar hi, r2) =>
                  match p_class_items n' r2 with
                  | Some (its, r3) => Some (CRange lo hi :: its, r3)
                  | None => None
                  end
              | _ => None
              end
          | Some (e1, r1) =>
              match p_class_items n' r1 with
              | Some (its, r2) => Some (items_of e1 ++ its, r2)
              | None => None
              end
          | None => None
          end
      end
  end.

Definition p_class (s : list ascii) : option (re * list ascii) :=
  let '(neg, s1) := match s with "^" :: r => (true, r) | _ => (false, s) end in
  match p_class_items (S (length s1)) s1 with
  | Some (its, r) => Some (Class neg its, r)
  | None => None
  end.

Fixpoint rep (n : nat) (a tail : re) : re :=
  match n with
  | O => tail
  | S n' => Seq a (rep n' a tail)
  end.

(** [a{0,n}], greedy. *)
Fixpoint upto (n : nat) (a : re) : re :=
  match n with
  | O => Eps
  | S n' => Alt (Seq a (upto n' a)) Eps
  end.

(** Lazy quantifiers are outside the modelled subset. *)
Definition greedy_only (r : re) (s : list ascii) : option (re * list ascii) :=
  match s with
  | "?" :: _ => None
  | _ => Some (r, s)
  end.

Definition p_quant (a : re) (s : list ascii) : option (re * list ascii) :=
  match s with
  | "*" :: r => greedy_only (Star a) r
  | "+" :: r => greedy_only (Seq a (Star a)) r
  | "?" :: r => greedy_only (Alt a Eps) r
  | "{" :: r =>
      match r with
      | d :: _ =>
          if is_digit d then
            let '(lo, r1) := dec_num r 0%nat in
            match r1 with
            | "}" :: r2 => greedy_only (rep lo a Eps) r2
            | "," :: "}" :: r2 => greedy_only (rep lo a (Star a)) r2
            | "," :: r2 =>
                let '(hi, r3) := dec_num r2 0%nat in
                match r3 with
                | "}" :: r4 =>
                    if ((lo <=? hi) && negb (length r3 =? length r2))%nat
                    then greedy_only (rep lo a (upto (hi - lo) a)) r4
                    else None
                | _ => Some (a, s)
                end
            | _ => Some (a, s)
            end
          else Some (a, s)
      | [] => Some (a, s)
      end
  | _ => Some (a, s)
  end.

Definition PD := list ascii -> option (re * list ascii).

Definition p_atom (pd : PD) (s : list ascii) : option (re * list ascii) :=
  match s with
  | "(" :: "?" :: ":" :: r =>
      match pd r with
      | Some (e, ")" :: r') => Some (e, r')
      | _ => None
      end
  | "(" :: "?" :: _ => None
  | "(" :: r =>
      match pd r with
      | Some (e, ")" :: r') => Some (e, r')
      | _ => None
      end
  | "[" :: r => p_class r
  | "\" :: r =>
      match p_escape r with
      | Some (EChar c, r') => Some (Chr c, r')
      | Some (ENever, r') => Some (Never, r')
      | Some (EItem it, r') => Some (Class false [it], r')
      | None => None
      end
  | "." :: r => Some (Any, r)
  | "^" :: r => Some (Bol, r)
  | "$" :: r => Some (Eol, r)
  | "*" :: _ | "+" :: _ | "?" :: _ => None
  | c :: r => Some (Chr c, r)
  | [] => None
  end.

Fixpoint p_alt (pd : PD) (n : nat) (s : list ascii) : option (re * list ascii) :=
  match n with
  | O => None
  | S n' =>
      match s with
      | [] => Some (Eps, [])
      | "|" :: _ | ")" :: _ => Some (Eps, s)
      | _ =>
          match p_atom pd s with
          | Some (a, s1) =>
              match p_quant a s1 with
              | Some (t, s2) =>
                  match p_alt pd n' s2 with
                  | Some (r, s3) => Some (Seq t r, s3)
                  | None => None
                  end
              | None => None
              end
          | None => None
          end
      end
  end.

Fixpoint p_disj (n : nat) (s : list ascii) : option (re * list ascii) :=
  match n with
  | O => None
  | S n' =>
      match p_alt (p_disj n') (S (length s)) s with
      | Some (a, "|" :: s1) =>
          match p_disj n' s1 with
          | Some (b, s2) => Some (Alt a b, s2)
          | None => None
          end
      | other => other
      end
  end.

Local Close Scope char_scope.

Definition parse (pattern : string) : option re :=
  let s := list_ascii_of_string pattern in
  match p_disj (S (length s)) s with
  | Some (r, []) => Some r
  | _ => None
  end.

Definition parse_flags (f : string) : flags :=
  mk_flags (includes "g" f) (includes "i" f) (includes "m" f).

(** A regular expression literal [/pattern/flags]. *)
Record literal := lit { lit_pattern : string; lit_flags : string }.

(** A literal without flags, [/pattern/]. *)
Definition rx (pattern : string) : literal := lit pattern EmptyString.

(** The compiled pattern; a pattern outside the modelled subset compiles
    to [Never], and [supported] tells the two apart. *)
Definition compile (l : literal) : re := default Never (parse (lit_pattern l)).
Definition supported (l : literal) : bool := bool_decide (is_Some (parse (lit_pattern l))).

(** [s.replace(/pattern/flags, by)]. *)
Definition replace (l : literal) (by_ : string) (s : string) : string :=
  let fl := parse_flags (lit_flags l) in
  let input := list_ascii_of_string s in
  string_of_list_ascii
    (if fl_g fl
     then replace_loop (S (length input)) fl (compile l) (list_ascii_of_string by_) None input
     else replace_first fl (compile l) (list_ascii_of_string by_) input).

(** [s.match(/pattern/flags)]: the first match, if any. *)
Definition first_match (l : literal) (s : string) : option string :=
  match search (parse_flags (lit_flags l)) (compile l) None (list_ascii_of_string s) with
  | Some (_, m, _) => Some (string_of_list_ascii m)
  | None => None
  end.

(** [s.split(/pattern/flags)]. *)
Definition split (l : literal) (s : string) : list string :=
  let input := list_ascii_of_string s in
  match input with
  | [] => if bool_decide (is_Some (match_here (parse_flags (lit_flags l)) (compile l) None []))
          then [] else [EmptyString]
  | _ => map string_of_list_ascii
           (split_loop (S (length input)) (parse_flags (lit_flags l)) (compile l) [] None input)
  end.

(** [/pattern/flags.test(s)] for a literal without the [g] flag, and the
    truth value of [s.match(/pattern/flags)]. *)
Definition test (l : literal) (s : string) : bool :=
  bool_decide (is_Some (first_match l s)).

End Regex.


(** The one-character string holding a line feed. *)
Definition nl : string := String Regex.LF EmptyString.


(** ** extract_news.ts: the noise cleaning pass *)

Module NoiseFilter.

Import JsString.

(** The replacements applied one by one at the head of
    [clean_extracted_content], in source order. *)
Definition pre_passes : list Regex.literal := [
  Regex.lit "\.[a-zA-Z_][\w\-]*\s*\{[^}]*\}" "g";
  Regex.lit "@[a-zA-Z_][\w\-]*\s*\{[^}]*\}" "g";
  Regex.lit "\#[a-zA-Z_][\w\-]*\s*\{[^}]*\}" "g";
  Regex.lit "[a-zA-Z\-]+\s*:\s*[^;{}]+;?" "g";
  Regex.lit "\([^)]*\)\s*=>\s*[^;]+" "g";
  Regex.lit "\s*=\s*\x22[^\x22]*\x22;\s*" "g";
  Regex.lit "\s*=\s*<[^>]*>[^<]*<\/[^>]*>;\s*" "g";
  Regex.lit "\([^)]*\)\s*=>\s*\w+\s*===" "g";
  Regex.lit "function\s+\w+\s*\([^)]*\)\s*\{[^}]*\}" "g";
  Regex.lit "\/\*[^*]*\*+(?:[^/*][^*]*\*+)*\/" "g";
  Regex.lit "\/\/.*$" "gm";
  Regex.lit "\w+\s*\.\s*\w+\s*=\s*[^;]+;" "g";
  Regex.lit "\w+\s*\.\s*appendChild\([^)]*\);?" "g";
  Regex.lit "\w+\s*\.\s*innerHTML\s*=\s*[^;]+;?" "g";
  Regex.lit "document\.[a-zA-Z]+\([^)]*\)" "g";
  Regex.lit "window\.[a-zA-Z]+\([^)]*\)" "g";
  Regex.lit "\w+\s*=\s*\w+\s*\|\|\s*\[\]" "g";
  Regex.lit "\.push\([^)]*\)" "g";
  Regex.lit "addEventListener\([^)]*\)" "g";
  Regex.lit "querySelector[All]*\([^)]*\)" "g";
  Regex.lit "createElement\([^)]*\)" "g";
  Regex.lit "insertBefore\([^)]*\)" "g";
  Regex.lit "insertAdjacentHTML\([^)]*\)" "g"
].

(** [unwantedPatterns], in source order. *)
Definition unwantedPatterns : list Regex.literal := [
  Regex.lit "\.[a-zA-Z_][\w\-]*\s*>\s*\.[a-zA-Z_][\w\-]*" "g";
  Regex.lit "\.[a-zA-Z_][\w\-]*\s*,\s*\.[a-zA-Z_][\w\-]*" "g";
  Regex.lit "\.[a-zA-Z_][\w\-]*\s+\.[a-zA-Z_][\w\-]*" "g";
  Regex.lit "\#[a-zA-Z_][\w\-]*\s*>\s*\.[a-zA-Z_][\w\-]*" "g";
  Regex.lit "\.tdi_\d+" "g";
  Regex.lit "\.wpb_wrapper" "g";
  Regex.lit "\.tdc-elements" "g";
  Regex.lit "\.vc_column-inner" "g";
  Regex.lit "\.tdb_single_" "g";
  Regex.lit "\.td-theme-wrap" "g";
  Regex.lit "\.td-block-" "g";
  Regex.lit "\.td-post-" "g";
  Regex.lit "\.td-icon-" "g";
  Regex.lit "\.td-social-" "g";
  Regex.lit "\.addtoany_" "g";
  Regex.lit "\.a2a_" "g";
  Regex.lit "block_tdi_\d+\." "g";
  Regex.lit "tdBlocksArray\." "g";
  Regex.lit "adsbygoogle" "g";
  Regex.lit "window\.adsbygoogle" "g";
  Regex.lit "FacebookTwitterPinterestWhatsApp" "g";
  Regex.lit "Facebook.*Twitter.*Pinterest.*WhatsApp" "g";
  Regex.lit "const\s+publicNoticesLink\s*=" "g";
  Regex.lit "const\s+businessLinkExists\s*=" "g";
  Regex.lit "Array\.from\([^)]*\)\.find" "g";
  Regex.lit "Array\.from\([^)]*\)\.some" "g";
  Regex.lit "\.textContent\.trim\(\)" "g";
  Regex.lit "businessLink\.className" "g";
  Regex.lit "businessLink\.href" "g";
  Regex.lit "businessLink\.innerHTML" "g";
  Regex.lit "sep\.className" "g";
  Regex.lit "insertBefore\([^)]*\)" "g";
  Regex.lit "const\s+\w+\s*=\s*\[.*\]" "g";
  Regex.lit "if\s*\([^)]*\)\s*\{" "g";
  Regex.lit "if\s*\([^)]*\s*&&\s*[^)]*$" "g";
  Regex.lit "\}\s*else\s*\{" "g";
  Regex.lit "\.includes\([^)]*\)" "g";
  Regex.lit "\.style\.display\s*=" "g";
  Regex.lit "li\.textContent\.trim\(\)" "g";
  Regex.lit "\([^)]*\)\s*=>\s*[^;]+" "g";
  Regex.lit "\s*=\s*\x22[^\x22]*\x22;\s*" "g";
  Regex.lit "\s*=\s*<[^>]*>[^<]*<\/[^>]*>;\s*" "g";
  Regex.lit "\([^)]*\)\s*=>\s*\w+\s*===" "g";
  Regex.lit "a\s*=>\s*a\s*===\s*\x22[^\x22]*\x22" "g";
  Regex.lit "\s*=\s*\x22tdb-[^\x22]*\x22" "g";
  Regex.lit "\s*=\s*\x22td-[^\x22]*\x22" "g";
  Regex.lit "function\s+\w+\s*\([^)]*\)\s*\{[^}]*\}" "g";
  Regex.lit "\/\*[^*]*\*+(?:[^/*][^*]*\*+)*\/" "g";
  Regex.lit "\/\/.*$" "gm";
  Regex.lit "\w+\s*\.\s*appendChild\([^)]*\);?" "g";
  Regex.lit "\w+\s*\.\s*innerHTML\s*=\s*[^;]+;?" "g";
  Regex.lit "\w+\s*\.\s*className\s*=\s*[^;]+;?" "g";
  Regex.lit "\w+\s*\.\s*src\s*=\s*[^;]+;?" "g";
  Regex.lit "\w+\s*\.\s*allowFullscreen\s*=\s*[^;]+;?" "g";
  Regex.lit "\w+\s*\.\s*controls\s*=\s*[^;]+;?" "g";
  Regex.lit "\w+\s*\.\s*autoplay\s*=\s*[^;]+;?" "g";
  Regex.lit "openVideoModal\([^)]*\)" "g";
  Regex.lit "close\.className" "g";
  Regex.lit "close\.innerHTML" "g";
  Regex.lit "contentElement\." "g";
  Regex.lit "wrapper\.appendChild" "g";
  Regex.lit "modal\.appendChild" "g";
  Regex.lit "td_column_number\s*=" "g";
  Regex.lit "block_type\s*=" "g";
  Regex.lit "found_posts\s*=" "g";
  Regex.lit "header_color\s*=" "g";
  Regex.lit "ajax_pagination_infinite_stop\s*=" "g";
  Regex.lit "max_num_pages\s*=" "g";
  Regex.lit "Discover\s+more" "g";
  Regex.lit "ArtTelevisionPortable\s+speakers" "g";
  Regex.lit "CadburyMilkManila" "g";
  Regex.lit "Online\s+TV\s+streaming\s+services" "g";
  Regex.lit "TVMusicEntertainment\s+center" "g";
  Regex.lit "Soybean" "g";
  Regex.lit "^\d+\s+\d+\s+\d+\s+\d+\s+\d+Share.*$" "gm";
  Regex.lit "Filtered by:.*$" "gm";
  Regex.lit "Tags:.*$" "gm";
  Regex.lit "Next Story.*$" "gm";
  Regex.lit "VIEW MORE.*$" "gm";
  Regex.lit "Most Popular.*$" "gm";
  Regex.lit "Other Stories.*$" "gm";
  Regex.lit "Recommended for you.*$" "gm";
  Regex.lit "LOADING CONTENT.*$" "gm";
  Regex.lit "LOAD MORE ARTICLES.*$" "gm";
  Regex.lit "RETRY LOADING.*$" "gm";
  Regex.lit "advertisement" "gi";
  Regex.lit "Need a wellness break\?.*$" "gm";
  Regex.lit "Sign up for.*$" "gm";
  Regex.lit "Stay up-to-date.*$" "gm";
  Regex.lit "Please enter a valid email address.*$" "gm";
  Regex.lit "Your email is safe with us.*$" "gm";
  Regex.lit "At a Glance.*$" "gm";
  Regex.lit "Brand Talk.*$" "gm";
  Regex.lit "Sports.*$" "gm";
  Regex.lit "Pinoy Abroad.*$" "gm";
  Regex.lit "SciTech.*$" "gm";
  Regex.lit "Showbiz.*$" "gm";
  Regex.lit "Lifestyle.*$" "gm";
  Regex.lit "Opinion.*$" "gm";
  Regex.lit "Hashtag.*$" "gm";
  Regex.lit "News.*$" "gm";
  Regex.lit "Money.*$" "gm";
  Regex.lit "\.\w+\s*\{[^}]*\}" "gm";
  Regex.lit "var\s+.*=.*;.*$" "gm";
  Regex.lit "function\s*\(.*\).*$" "gm";
  Regex.lit "csell_zoneid.*$" "gm";
  Regex.lit "csell_article_tags.*$" "gm";
  Regex.lit "crowdyPage.*$" "gm";
  Regex.lit "csell_isMobile.*$" "gm";
  Regex.lit "csellViewsJson.*$" "gm";
  Regex.lit "\.AR_\d+.*$" "gm";
  Regex.lit "\.ob-widget.*$" "gm";
  Regex.lit "background-image.*$" "gm";
  Regex.lit "background-size.*$" "gm";
  Regex.lit "width:\d+px.*$" "gm";
  Regex.lit "height:\d+px.*$" "gm";
  Regex.lit "padding:.*$" "gm";
  Regex.lit "margin:.*$" "gm";
  Regex.lit "color:.*$" "gm";
  Regex.lit "font-size:.*$" "gm";
  Regex.lit "font-family:.*$" "gm";
  Regex.lit "text-decoration:.*$" "gm";
  Regex.lit "display:.*$" "gm";
  Regex.lit "box-sizing:.*$" "gm";
  Regex.lit "@media.*$" "gm";
  Regex.lit "-webkit-.*$" "gm";
  Regex.lit "-moz-.*$" "gm";
  Regex.lit "border:.*$" "gm";
  Regex.lit "overflow:.*$" "gm";
  Regex.lit "position:.*$" "gm";
  Regex.lit "float:.*$" "gm";
  Regex.lit "clear:.*$" "gm";
  Regex.lit "flex:.*$" "gm";
  Regex.lit "justify-content:.*$" "gm";
  Regex.lit "align-items:.*$" "gm";
  Regex.lit "font-weight:.*$" "gm";
  Regex.lit "border-radius:.*$" "gm";
  Regex.lit "filter:.*$" "gm";
  Regex.lit "transform:.*$" "gm";
  Regex.lit "transition:.*$" "gm";
  Regex.lit "animation:.*$" "gm";
  Regex.lit "z-index:.*$" "gm";
  Regex.lit "opacity:.*$" "gm";
  Regex.lit "visibility:.*$" "gm";
  Regex.lit "cursor:.*$" "gm";
  Regex.lit "text-align:.*$" "gm";
  Regex.lit "vertical-align:.*$" "gm";
  Regex.lit "line-height:.*$" "gm";
  Regex.lit "letter-spacing:.*$" "gm";
  Regex.lit "text-transform:.*$" "gm";
  Regex.lit "white-space:.*$" "gm";
  Regex.lit "word-wrap:.*$" "gm";
  Regex.lit "word-break:.*$" "gm";
  Regex.lit "text-overflow:.*$" "gm";
  Regex.lit "list-style:.*$" "gm";
  Regex.lit "table-layout:.*$" "gm";
  Regex.lit "border-collapse:.*$" "gm";
  Regex.lit "caption-side:.*$" "gm";
  Regex.lit "empty-cells:.*$" "gm";
  Regex.lit "content:.*$" "gm";
  Regex.lit "quotes:.*$" "gm";
  Regex.lit "counter-reset:.*$" "gm";
  Regex.lit "counter-increment:.*$" "gm";
  Regex.lit "resize:.*$" "gm";
  Regex.lit "outline:.*$" "gm";
  Regex.lit "outline-offset:.*$" "gm";
  Regex.lit "box-shadow:.*$" "gm";
  Regex.lit "text-shadow:.*$" "gm";
  Regex.lit "clip:.*$" "gm";
  Regex.lit "clip-path:.*$" "gm";
  Regex.lit "mask:.*$" "gm";
  Regex.lit "mask-image:.*$" "gm";
  Regex.lit "mask-mode:.*$" "gm";
  Regex.lit "mask-repeat:.*$" "gm";
  Regex.lit "mask-position:.*$" "gm";
  Regex.lit "mask-clip:.*$" "gm";
  Regex.lit "mask-origin:.*$" "gm";
  Regex.lit "mask-size:.*$" "gm";
  Regex.lit "mask-composite:.*$" "gm";
  Regex.lit "mask-border:.*$" "gm";
  Regex.lit "mask-border-source:.*$" "gm";
  Regex.lit "mask-border-mode:.*$" "gm";
  Regex.lit "mask-border-slice:.*$" "gm";
  Regex.lit "mask-border-width:.*$" "gm";
  Regex.lit "mask-border-outset:.*$" "gm";
  Regex.lit "mask-border-repeat:.*$" "gm";
  Regex.lit "mask-border:.*$" "gm";
  Regex.lit "&[a-zA-Z0-9#]+;" "g";
  Regex.lit "\\n\s*\\n" "g";
  Regex.lit "\\t" "g";
  Regex.lit "\\\x22" "g";
  Regex.lit "\\\\" "g";
  Regex.lit "^\s*$" "gm";
  Regex.lit "\n\s*\n\s*\n" "g";
  Regex.lit "\xD7" "g";
  Regex.lit "\u2039\u203A" "g";
  Regex.lit "\u25C0" "g";
  Regex.lit "\u25B6" "g";
  Regex.lit "url\([^)]*\)" "g";
  Regex.lit "https?:\/\/[^\s]+" "g";
  Regex.lit "data-src=\x22[^\x22]*\x22" "g";
  Regex.lit "data-widget-id=\x22[^\x22]*\x22" "g";
  Regex.lit "data-ob-template=\x22[^\x22]*\x22" "g";
  Regex.lit "typeof\s+[^;]+" "g";
  Regex.lit "OBR\.extern\.researchWidget\(\)" "g"
].

(** The patterns a line is tested against in the line filter, after the
    length test, in source order: a match drops the line. *)
Definition line_tests : list Regex.literal := [
  Regex.rx "^[0-9\s\-_\xD7\u2039\u203A\u25C0\u25B6]+$";
  Regex.rx "^\.[a-zA-Z_][\w\-]*\s*[>,\s]";
  Regex.rx "^\#[a-zA-Z_][\w\-]*\s*[>,\s]";
  Regex.rx "^[a-zA-Z\-]+\s*:\s*[^;{}]+;?\s*$";
  Regex.rx "\{[^}]*\}";
  Regex.rx "\.tdi_\d+|\.wpb_wrapper|\.tdc-elements|\.vc_column|\.tdb_|\.td-";
  Regex.rx "document\.|window\.|addEventListener|querySelector|createElement";
  Regex.rx "block_tdi_\d+|tdBlocksArray|adsbygoogle";
  Regex.rx "const\s+\w+\s*=|Array\.from\(|\.textContent\.trim\(\)|\.className\s*=|\.href\s*=|\.innerHTML\s*=";
  Regex.rx "if\s*\(.*\)\s*\{|else\s*\{|\}\s*else";
  Regex.rx "if\s*\([^)]*\s*&&\s*[^)]*$";
  Regex.rx "FacebookTwitterPinterestWhatsApp|Discover\s+more|CadburyMilkManila";
  Regex.rx "td_column_number|block_type|found_posts|header_color|max_num_pages";
  Regex.rx "\([^)]*\)\s*=>\s*\w+\s*===";
  Regex.rx "^\s*=\s*\x22[^\x22]*\x22;\s*$";
  Regex.rx "^\s*=\s*<[^>]*>";
  Regex.rx "a\s*=>\s*a\s*===\s*\x22[^\x22]*\x22";
  Regex.rx "^\s*=\s*\x22tdb-|^\s*=\s*\x22td-";
  Regex.rx "function\s+\w+\s*\([^)]*\)\s*\{";
  Regex.rx "\/\*.*\*\/|\/\/.*";
  Regex.rx "\w+\s*\.\s*(appendChild|innerHTML|className|src|allowFullscreen|controls|autoplay)\s*=";
  Regex.rx "openVideoModal|contentElement\.|wrapper\.|modal\.";
  Regex.rx "close\.className|close\.innerHTML"
].

(** [technicalPatterns], in source order. *)
Definition technicalPatterns : list Regex.literal := [
  Regex.rx "\.\w+\s*\{";
  Regex.rx "var\s+";
  Regex.rx "function\s*\(";
  Regex.rx "csell_";
  Regex.rx "\.AR_";
  Regex.rx "\.ob-";
  Regex.rx "background-";
  Regex.rx "width:";
  Regex.rx "height:";
  Regex.rx "padding:";
  Regex.rx "margin:";
  Regex.rx "color:";
  Regex.rx "font-";
  Regex.rx "text-";
  Regex.rx "display:";
  Regex.rx "box-";
  Regex.rx "@media";
  Regex.rx "-webkit-";
  Regex.rx "-moz-";
  Regex.rx "border:";
  Regex.rx "overflow:";
  Regex.rx "position:";
  Regex.rx "float:";
  Regex.rx "clear:";
  Regex.rx "flex:";
  Regex.rx "justify-";
  Regex.rx "align-";
  Regex.rx "font-weight:";
  Regex.rx "border-radius:";
  Regex.rx "filter:";
  Regex.rx "transform:";
  Regex.rx "transition:";
  Regex.rx "animation:";
  Regex.rx "z-index:";
  Regex.rx "opacity:";
  Regex.rx "visibility:";
  Regex.rx "cursor:";
  Regex.rx "text-align:";
  Regex.rx "vertical-align:";
  Regex.rx "line-height:";
  Regex.rx "letter-spacing:";
  Regex.rx "text-transform:";
  Regex.rx "white-space:";
  Regex.rx "word-";
  Regex.rx "text-overflow:";
  Regex.rx "list-style:";
  Regex.rx "table-";
  Regex.rx "border-collapse:";
  Regex.rx "caption-side:";
  Regex.rx "empty-cells:";
  Regex.rx "content:";
  Regex.rx "quotes:";
  Regex.rx "counter-";
  Regex.rx "resize:";
  Regex.rx "outline:";
  Regex.rx "box-shadow:";
  Regex.rx "text-shadow:";
  Regex.rx "clip:";
  Regex.rx "mask:";
  Regex.rx "url\(";
  Regex.rx "data-";
  Regex.rx "typeof";
  Regex.rx "OBR\."
].


(** [patterns.forEach(p => { text = text.replace(p, '') })]. *)
Definition strip_all (patterns : list Regex.literal) (text : string) : string :=
  foldl (fun acc p => Regex.replace p EmptyString acc) text patterns.

(** The callback of [lines.filter]. *)
Definition keep_line (line : string) : bool :=
  let trimmed := trim line in
  if String.length trimmed <? 20 then false
  else if existsb (fun p => Regex.test p trimmed) line_tests then false
  else negb (existsb (fun p => Regex.test p trimmed) technicalPatterns).

(** [clean_extracted_content]. *)
Definition clean_extracted_content (content : string) : string :=
  if negb (truthy content) then EmptyString
  else
    let content := strip_all pre_passes content in
    let cleanedContent := strip_all unwantedPatterns content in
    let lines := split_on Regex.LF cleanedContent in
    let filteredLines := List.filter keep_line lines in
    trim
      (Regex.replace (Regex.lit "\n\s*\n" "g") nl
         (Regex.replace (Regex.lit "\s+" "g") " "
            (join nl filteredLines))).

(** *** Already-clean text *)

(** White space made of single spaces only, each between two other code
    units. *)
Fixpoint single_spaced (l : list ascii) : bool :=
  match l with
  | [] => true
  | c :: r =>
      if is_space c then
        (code c =? 32)
        && match r with
           | c' :: _ => negb (is_space c') && single_spaced r
           | [] => false
           end
      else single_spaced r
  end.

Definition normalised (text : string) : bool :=
  match list_ascii_of_string text with
  | [] => true
  | c :: r => negb (is_space c) && single_spaced (c :: r)
  end.

(** Text that no removal pattern matches, that is one line kept by the line
    filter, and whose white space is normalised. *)
Definition already_clean (text : string) : bool :=
  normalised text
  && forallb (fun p => negb (Regex.test p text)) (pre_passes ++ unwantedPatterns)
  && keep_line text.

(** Every pattern of the pass lies in the modelled subset. *)
Definition all_supported : bool :=
  forallb Regex.supported (pre_passes ++ unwantedPatterns ++ line_tests ++ technicalPatterns).

End NoiseFilter.

(** ** The platform's [Date]

    [Date] belongs to the JavaScript runtime.  The extractor uses it through
    three operations, which the model takes as an interface. *)

Class JsDate := {
  date : Type;
  (** [new Date(text)]; [None] when [isNaN(d.getTime())]. *)
  date_parse : string -> option date;
  (** [new Date(year, monthIndex, day)] for finite arguments. *)
  date_local : Z -> Z -> Z -> option date;
  (** [d.toISOString()] *)
  toISOString : date -> string
}.

(** ** author.ts: the most probable author *)

Module Author.

Import JsString.

(** An attribute value of a parsed element: a string, or a list of strings
    (a multi-valued attribute, flattened by [recursive_iterate]). *)
Inductive attr_value :=
| AttrString (s : string)
| AttrList (l : list string).

(** An element as the author search reads it. *)
Record block := mk_block { attrs : list attr_value; get_text : string }.

(** The parsed page as the author search reads it. *)
Record soup := mk_soup {
  find_all : string -> list block;
  (** the text of [div.meta p.author] once its [span] is removed *)
  find_meta_author : option string
}.

(** [createSoup]: the placeholder parser of the source. *)
Definition createSoup (html : string) : soup := mk_soup (fun _ => []) None.

(** [AuthorVariables]. *)
Definition author_keys : list string := ["AUTHOR"; "BYLINE"].
Definition author_tags : list string := ["span"; "a"; "p"; "div"].
Definition full_date_names : list string :=
  ["January"; "February"; "March"; "April"; "May"; "June"; "July"; "August";
   "September"; "October"; "November"; "December"].
Definition letter_date_names : list string :=
  ["Jan"; "Feb"; "Mar"; "Apr"; "May"; "Jun"; "Jul"; "Aug"; "Sep"; "Oct"; "Nov"; "Dec"].
Definition invalid_words : list string := ["Published"; "Hours"; "Ago"].

(** [parseInt(text)], radix 10: [None] is [NaN]. *)
Fixpoint digits_value (l : list ascii) (acc : option Z) : option Z :=
  match l with
  | c :: r =>
      if is_digit c
      then digits_value r (Some (10 * default 0%Z acc + Z.of_nat (code c - 48))%Z)
      else acc
  | [] => acc
  end.

Definition parseInt (text : string) : option Z :=
  match trim_left (list_ascii_of_string text) with
  | c :: r =>
      if code c =? 45 then Z.opp <$> digits_value r None
      else if code c =? 43 then digits_value r None
      else digits_value (c :: r) None
  | [] => None
  end.

(** [word_tokenize]: [text.split(/\s+/).filter(word => word.length > 0)]. *)
Definition word_tokenize (text : string) : list string :=
  List.filter (fun word => 0 <? String.length word) (Regex.split (Regex.rx "\s+") text).

(** [ENGLISH_STOP_WORDS]. *)
Definition ENGLISH_STOP_WORDS : list string :=
  ["a"; "about"; "above"; "after"; "again"; "against"; "all"; "am"; "an"; "and";
   "any"; "are"; "aren't"; "as"; "at"; "be"; "because"; "been"; "before"; "being";
   "below"; "between"; "both"; "but"; "by"; "can't"; "cannot"; "could"; "couldn't";
   "did"; "didn't"; "do"; "does"; "doesn't"; "doing"; "don't"; "down"; "during";
   "each"; "few"; "for"; "from"; "further"; "had"; "hadn't"; "has"; "hasn't";
   "have"; "haven't"; "having"; "he"; "he'd"; "he'll"; "he's"; "her"; "here";
   "here's"; "hers"; "herself"; "him"; "himself"; "his"; "how"; "how's"; "i";
   "i'd"; "i'll"; "i'm"; "i've"; "if"; "in"; "into"; "is"; "isn't"; "it"; "it's";
   "its"; "itself"; "let's"; "me"; "more"; "most"; "mustn't"; "my"; "myself";
   "no"; "nor"; "not"; "of"; "off"; "on"; "once"; "only"; "or"; "other"; "ought";
   "our"; "ours"; "ourselves"; "out"; "over"; "own"; "same"; "shan't"; "she";
   "she'd"; "she'll"; "she's"; "should"; "shouldn't"; "so"; "some"; "such";
   "than"; "that"; "that's"; "the"; "their"; "theirs"; "them"; "themselves";
   "then"; "there"; "there's"; "these"; "they"; "they'd"; "they'll"; "they're";
   "they've"; "this"; "those"; "through"; "to"; "too"; "under"; "until"; "up";
   "very"; "was"; "wasn't"; "we"; "we'd"; "we'll"; "we're"; "we've"; "were";
   "weren't"; "what"; "what's"; "when"; "when's"; "where"; "where's"; "which";
   "while"; "who"; "who's"; "whom"; "why"; "why's"; "with"; "won't"; "would";
   "wouldn't"; "you"; "you'd"; "you'll"; "you're"; "you've"; "your"; "yours";
   "yourself"; "yourselves"].

(** The punctuation test of the token filter; the class lists the ASCII
    punctuation, its range [,-.] included. *)
Definition punctuation : Regex.literal :=
  Regex.rx "[!\x22#$%&'()*+,-./:;<=>?@[\]^_`{|}~]".

(** The tail shared by both branches of [__iterate_tag] once the attribute
    value [val] is at hand: [None] stands for [continue]. *)
Definition probe (author_data : Compare.t) (b : block) (val : string) : option string :=
  match (Compare.eval val author_data).1 with
  | first :: _ =>
      match parseInt (Regex.replace (Regex.rx "%") EmptyString (Compare.similarity first)) with
      | Some similarity =>
          if (similarity <? 60)%Z then None
          else
            let possible_auth :=
              trim (Regex.replace (Regex.lit "\n" "g") " " (get_text b)) in
            if negb (truthy possible_auth) then None
            else
              let filtered_auth :=
                List.filter
                  (fun word =>
                     negb (bool_decide (toLowerCase word ∈ ENGLISH_STOP_WORDS))
                     && negb (Regex.test punctuation word))
                  (word_tokenize possible_auth) in
              Some (join " " filtered_auth)
      | None => None
      end
  | [] => None
  end.

(** The first [Some] of [f] over [l]. *)
Fixpoint first_some {A B : Type} (f : A -> option B) (l : list A) : option B :=
  match l with
  | [] => None
  | x :: r => match f x with
              | Some y => Some y
              | None => first_some f r
              end
  end.

(** [__iterate_tag]. *)
Definition iterate_tag (author_data : Compare.t) (blocks : list block) : option string :=
  first_some
    (fun b =>
       first_some
         (fun attr_val =>
            match attr_val with
            | AttrString v =>
                if negb (truthy v) || (20 <? String.length v) then None
                else probe author_data b v
            | AttrList vs =>
                first_some
                  (fun val => if 25 <? String.length val then None
                              else probe author_data b val)
                  vs
            end)
         (attrs b))
    blocks.

(** [author_selectors]. *)
Definition author_selectors (sp : soup) : option string :=
  match find_meta_author sp with
  | Some text => if truthy text then Some (trim text) else None
  | None => None
  end.

(** [word.charAt(0).toUpperCase() + word.slice(1).toLowerCase()].  A capital
    above 255 is no ASCII letter: the replacement that follows in
    [final_author] turns it, like the code unit itself, into a space. *)
Definition capitalize (word : string) : string :=
  toUpperCase (substring 0 1 word) +:+ toLowerCase (substring 1 (String.length word) word).

(** The clean-up of a found author inside the constructor. *)
Definition final_author (author : string) : string :=
  let split_author_name := map capitalize (split_on " "%char author) in
  let cleaned_name :=
    map (Regex.replace (Regex.lit "[^a-zA-Z.]" "g") " ") split_author_name in
  let temp := split_on " "%char (join " " cleaned_name) in
  let author_names :=
    List.filter
      (fun author_word =>
         negb (bool_decide (author_word ∈ full_date_names)
               || bool_decide (author_word ∈ letter_date_names)
               || bool_decide (author_word ∈ invalid_words)))
      temp in
  join " " author_names.

Definition selector_or_default (sp : soup) : list string :=
  match author_selectors sp with
  | None => ["No - Author"]
  | Some selector_author => [selector_author]
  end.

(** The loop of the constructor over [author_tags]; [names] starts empty. *)
Fixpoint names_loop (sp : soup) (author_data : Compare.t) (tags : list string)
  : list string :=
  match tags with
  | [] => []
  | tag :: rest =>
      match iterate_tag author_data (find_all sp tag) with
      | Some author =>
          if truthy author then
            let fa := final_author author in
            if negb (truthy fa) then selector_or_default sp else [fa]
          else names_loop sp author_data rest
      | None => selector_or_default sp
      end
  end.

(** [new Author(html).names]. *)
Definition names_of (sp : soup) : list string :=
  names_loop sp (Compare.new author_keys) author_tags.

Definition names (html : string) : list string := names_of (createSoup html).

End Author.

(** ** extract_news.ts: the field extractor [NewsExtract] *)

Module NewsExtract.

Import JsString.

(** A call that returns or throws. *)
Inductive result (A : Type) :=
| Ok (a : A)
| Throw (message : string).
Arguments Ok {A} a.
Arguments Throw {A} message.

(** helpers.ts, [unicode]. *)
Definition unicode (text : string) : string := trim text.

(** [NewsVariables.invalid_title_keys]; the third key holds the code units
    195 and 161 after its first letter, as the source text does. *)
Definition invalid_title_keys : list string :=
  ["page not found"; "attention required!";
   String "P"%char (String (ascii_of_nat 195) (String (ascii_of_nat 161) "gina no encontrada"))].

(** A value of type [any] as far as the image filter tells values apart. *)
Inductive js_value :=
| JsStr (s : string)
| JsOther.

Inductive top_image_value :=
| TopString (s : string)
| TopArray (l : list js_value).

(** What the DOM queries of the extractor return for a page source; the
    HTML parser itself belongs to the platform. *)
Record Page := mk_page {
  (** text of the first [title], [h1] or [.article-title] element *)
  q_title : option string;
  (** text of each [p, article, .content, .article-content, .post-content] *)
  q_texts : list string;
  (** the [lang] attribute of [html[lang]] *)
  q_lang : option string;
  (** the [content] attribute of the published-time [meta] element *)
  q_published : option string;
  (** [el.textContent || el.getAttribute('content') || ''] of each author element *)
  q_authors : list string;
  (** [content] or [src] of the top image element *)
  q_top_image : option string;
  (** the [content] attribute of the [article:section] meta element *)
  q_section : option string;
  (** the result of [fqdn_selectors] on the page *)
  q_selector : option string;
  (** [new URL(url).hostname], or the empty string *)
  q_hostname : string
}.

(** The object returned by [__get_newspaper3k_extract]. *)
Record Article := mk_article {
  a_title : string;
  a_text : string;
  a_meta_lang : string;
  a_published_time : option string;
  a_authors : list string;
  a_top_image : top_image_value
}.

(** [__get_newspaper3k_extract]. *)
Definition get_newspaper3k_extract (page_source : string) (pg : Page) : option Article :=
  if truthy page_source then
    let title := match q_title pg with Some t => trim t | None => EmptyString end in
    let text := trim (join nl (q_texts pg)) in
    let meta_lang :=
      match q_lang pg with
      | Some l => if truthy l then l else "en"
      | None => "en"
      end in
    let authors := List.filter (fun author => truthy (trim author)) (q_authors pg) in
    let top_image := default EmptyString (q_top_image pg) in
    Some (mk_article title text meta_lang (q_published pg)
            (if 0 <? length authors then authors else ["No - Author"])
            (TopString top_image))
  else None.

(** [__get_title]. *)
Definition get_title (_title : option string) (article : option Article) : option string :=
  let title :=
    match _title with
    | Some t => if truthy t then Some (unicode t) else None
    | None => None
    end in
  let title :=
    match title with
    | Some t => Some t
    | None =>
        match article with
        | Some a => if truthy (a_title a) then Some (unicode (a_title a)) else None
        | None => None
        end
    end in
  match title with
  | Some t =>
      if negb (truthy t) then None
      else if existsb (fun key => includes (toLowerCase key) (toLowerCase t))
                invalid_title_keys
      then None
      else Some t
  | None => None
  end.

(** [__get_authors]. *)
Definition get_authors (_author : option (list string)) (article : option Article)
    (page_source : string) : list string :=
  match _author with
  | Some (x :: r) => x :: r
  | _ =>
      match article with
      | Some (mk_article _ _ _ _ (x :: r) _) => x :: r
      | _ => Author.names page_source
      end
  end.

(** [main_date_extractor]: the [return] inside the [forEach] callback leaves
    the callback only, so every path of the function ends in [return null]. *)
Definition main_date_extractor (page_source url : string) : option string := None.

Section PublishDate.

Context `{JsDate}.

Definition datePatterns : list Regex.literal :=
  [Regex.lit "(\d{4})[/-](\d{1,2})[/-](\d{1,2})" "g";
   Regex.lit "(\d{1,2})[/-](\d{1,2})[/-](\d{4})" "g";
   Regex.lit "(\d{4})(\d{2})(\d{2})" "g"].

(** The [Date] built from the first match of a pattern. *)
Definition date_of_match (m : string) : option date :=
  if String.length m =? 8 then
    match Author.parseInt (substring 0 4 m),
          Author.parseInt (substring 4 2 m),
          Author.parseInt (substring 6 2 m) with
    | Some year, Some month, Some day => date_local year (month - 1) day
    | _, _, _ => None
    end
  else date_parse m.

(** [extract_date_via_url]. *)
Definition extract_date_via_url (url : string) : option string :=
  Author.first_some
    (fun pattern =>
       match Regex.first_match pattern url with
       | Some m => toISOString <$> date_of_match m
       | None => None
       end)
    datePatterns.

(** The metadata date of [__get_publish_date]. *)
Definition article_date (article : option Article) : option date :=
  match article with
  | Some a =>
      match a_published_time a with
      | Some published_time =>
          if truthy published_time then date_parse published_time else None
      | None => None
      end
  | None => None
  end.

(** [__get_publish_date]. *)
Definition get_publish_date (url : string) (article : option Article)
    (page_source : string) : option string :=
  match article_date article with
  | Some newspaper3k_pub_date =>
      let publish_date := toISOString newspaper3k_pub_date in
      match extract_date_via_url url with
      | Some pub_date_via_url =>
          if negb (String.eqb (substring 0 10 pub_date_via_url) (substring 0 10 publish_date))
          then Some pub_date_via_url
          else Some publish_date
      | None => Some publish_date
      end
  | None => main_date_extractor page_source url
  end.

End PublishDate.

(** [__get_images]. *)
Definition get_images (article : option Article) : list string :=
  match article with
  | Some a =>
      let images :=
        match a_top_image a with
        | TopString s => if truthy s then [JsStr s] else []
        | TopArray l => l
        end in
      if 0 <? length images then
        let images :=
          omap (fun image => match image with
                             | JsStr s => if startsWith "http" s then Some s else None
                             | JsOther => None
                             end) images in
        match images with
        | first :: _ =>
            if Regex.test (Regex.lit "logo|favicon|icon|pdf" "i") first then [] else images
        | [] => []
        end
      else []
  | None => []
  end.

(** [__get_and_validate_content_parser]: the text and the parser's name. *)
Definition get_and_validate_content_parser (fqdn : option string) (pg : Page)
    (article : option Article) : option string * option string :=
  let has_fqdn := match fqdn with Some f => truthy f | None => false end in
  let selector := if has_fqdn then q_selector pg else None in
  match selector with
  | Some article_content =>
      if truthy article_content then (Some article_content, Some "Selector Parser")
      else
        match article with
        | Some a =>
            if truthy (a_text a) then (Some (a_text a), Some "NewsPaper3k Parser")
            else (Some article_content, Some "Selector Parser")
        | None => (Some article_content, Some "Selector Parser")
        end
  | None =>
      match article with
      | Some a =>
          if truthy (a_text a) then (Some (a_text a), Some "NewsPaper3k Parser")
          else (None, None)
      | None => (None, None)
      end
  end.

(** [__get_content]. *)
Definition get_content (_content : option string) : option string :=
  match _content with
  | Some c =>
      let content :=
        unicode (join " " (split_on " "%char (Regex.replace (Regex.lit "'" "g") EmptyString c))) in
      Some (NoiseFilter.clean_extracted_content content)
  | None => None
  end.

(** [extract_article_sections]. *)
Definition extract_article_sections (pg : Page) : option (list string) :=
  match q_section pg with
  | Some metaContent =>
      if truthy metaContent && truthy (trim metaContent)
      then Some (List.filter truthy (map trim (split_on ","%char metaContent)))
      else None
  | None => None
  end.

(** The instance after its constructor has run. *)
Record t := mk {
  url : string;
  fqdn : option string;
  parser : option string;
  title : option string;
  authors : option (list string);
  publish_date : option string;
  images : option (list string);
  content : option string;
  language : string;
  scraped : bool;
  article_sections : option (list string);
  hostname : string
}.

(** [NewsExtractData]. *)
Record NewsExtractData := mk_data {
  article_title : option string;
  article_fqdn : string;
  article_section : option (list string);
  article_authors : option (list string);
  article_published_date : option string;
  article_images : option (list string);
  article_content : option string;
  article_language : string;
  article_status : string;
  article_error_status : option string;
  article_url : string
}.

Section Constructor.

Context `{JsDate}.

(** [new NewsExtract(url, source, js, lang, timeout, fqdn, regex)]: [source]
    is the page source in clear, after the platform decoded a base64
    payload.  The DOM calls of the body do not throw in the model, so the
    [try] block always reaches [this.scraped = true]. *)
Definition new (url : string) (source : option string) (fqdn : option string)
    (pg : Page) : result t :=
  if negb (truthy url) then Throw "Invalid URL passed"
  else
    match source with
    | None => Throw "No Page Source passed"
    | Some html =>
        if negb (truthy html) then Throw "No Page Source passed"
        else
          let article := get_newspaper3k_extract html pg in
          let title :=
            get_title (match article with
                       | Some a => if truthy (a_title a) then Some (a_title a) else None
                       | None => None
                       end) article in
          let authors :=
            get_authors (match article with
                         | Some a => Some (a_authors a)
                         | None => None
                         end) article html in
          let publish_date := get_publish_date url article html in
          let images := get_images article in
          let '(content_instance, parser) := get_and_validate_content_parser fqdn pg article in
          let content := get_content content_instance in
          let language :=
            match article with
            | Some a => if truthy (a_meta_lang a) then a_meta_lang a else "en"
            | None => "en"
            end in
          let language := if negb (truthy language) then "en" else language in
          Ok (mk url fqdn parser title (Some authors) publish_date (Some images)
                content language true (extract_article_sections pg) (q_hostname pg))
    end.

End Constructor.

(** [get_scraper_api_response]. *)
Definition get_scraper_api_response (self : t) : result NewsExtractData :=
  if negb (scraped self) then Throw "Article not scraped"
  else
    let is_content := match content self with Some c => truthy c | None => false end in
    Ok (mk_data (title self)
          (match fqdn self with
           | Some f => if truthy f then f else hostname self
           | None => hostname self
           end)
          (article_sections self)
          (authors self)
          (publish_date self)
          (images self)
          (content self)
          (language self)
          (if is_content then "Done" else "Error")
          (if is_content then None else Some "No Content")
          (url self)).

End NewsExtract.

(** ** general_parser.ts: [GeneralParser] *)

Module GeneralParser.

Import JsString.

(** A document tree as content scoring reads it: text nodes, and elements
    with their tag name (lower case), [class] and [id] attributes. *)
Inductive node :=
| Text (data : string)
| Element (tag : string) (class_attr : option string) (id_attr : option string)
          (children : list node).

(** [element.className]. *)
Definition className (e : node) : string :=
  match e with
  | Element _ (Some c) _ _ => c
  | _ => EmptyString
  end.

(** [element.id]. *)
Definition id_of (e : node) : string :=
  match e with
  | Element _ _ (Some i) _ => i
  | _ => EmptyString
  end.

(** The elements named [tag] in the subtree of [n], [n] included, in
    document order. *)
Fixpoint with_tag (tag : string) (n : node) : list node :=
  match n with
  | Text _ => []
  | Element t _ _ children =>
      (if String.eqb t tag then [n] else [])
      ++ (fix go (l : list node) : list node :=
            match l with
            | [] => []
            | c :: r => with_tag tag c ++ go r
            end) children
  end.

(** [element.querySelectorAll(tag)] for a type selector: the descendants. *)
Definition querySelectorAll (tag : string) (e : node) : list node :=
  match e with
  | Text _ => []
  | Element _ _ _ children => flat_map (with_tag tag) children
  end.

(** [node.textContent]. *)
Fixpoint textContent (n : node) : string :=
  match n with
  | Text d => d
  | Element _ _ _ children =>
      (fix go (l : list node) : string :=
         match l with
         | [] => EmptyString
         | c :: r => textContent c +:+ go r
         end) children
  end.

Definition contentKeywords : list string :=
  ["content"; "article"; "post"; "story"; "text"; "body"].

Definition navKeywords : list string :=
  ["nav"; "menu"; "sidebar"; "footer"; "header"; "ads"; "comment"].

(** The literal [0.3]: the double nearest to 3/10. *)
Definition three_tenths : Float64.t := Float64.div (Float64.of_Z 3) (Float64.of_Z 10).

(** [links.length / Math.max(text.length / 100, 1)]. *)
Definition link_ratio (links len : nat) : Float64.t :=
  Float64.div (Float64.of_nat links)
    (Float64.max (Float64.div (Float64.of_nat len) (Float64.of_Z 100)) (Float64.of_Z 1)).

(** [calculateContentScore].  Up to the link penalty the score is a sum of
    a length and of whole increments, an integer; the quotient [linkRatio],
    its product by 100 and the subtraction are in double precision. *)
Definition calculateContentScore (element : node) (text : string) : Float64.t :=
  let score := Z.of_nat (String.length text) in
  let paragraphs := querySelectorAll "p" element in
  let score := (score + Z.of_nat (length paragraphs) * 50)%Z in
  let className := toLowerCase (className element) in
  let score :=
    foldl (fun score keyword =>
             if includes keyword className then (score + 100)%Z else score)
          score contentKeywords in
  let score :=
    foldl (fun score keyword =>
             if includes keyword className then (score - 200)%Z else score)
          score navKeywords in
  let links := querySelectorAll "a" element in
  let linkRatio := link_ratio (length links) (String.length text) in
  let score :=
    if Float64.ltb three_tenths linkRatio
    then Float64.sub (Float64.of_Z score) (Float64.mul linkRatio (Float64.of_Z 100))
    else Float64.of_Z score in
  Float64.max (Float64.of_Z 0) score.

(** The scoring formula as the specification words it: keywords are looked
    up in the class or the id, and the penalty is
    [100 * link_count / max(len(text)/100, 1)]. *)
Definition in_class_or_id (element : node) (keyword : string) : bool :=
  includes keyword (toLowerCase (className element))
  || includes keyword (toLowerCase (id_of element)).

Definition spec_score (element : node) (text : string) : Float64.t :=
  let links := length (querySelectorAll "a" element) in
  let len := String.length text in
  let base :=
    (Z.of_nat len
     + 50 * Z.of_nat (length (querySelectorAll "p" element))
     + 100 * Z.of_nat (length (List.filter (in_class_or_id element) contentKeywords))
     - 200 * Z.of_nat (length (List.filter (in_class_or_id element) navKeywords)))%Z in
  let denominator :=
    Float64.max (Float64.div (Float64.of_nat len) (Float64.of_Z 100)) (Float64.of_Z 1) in
  Float64.max (Float64.of_Z 0)
    (if Float64.ltb three_tenths (link_ratio links len)
     then Float64.sub (Float64.of_Z base)
            (Float64.div (Float64.mul (Float64.of_Z 100) (Float64.of_nat links)) denominator)
     else Float64.of_Z base).

(** *** Title extraction *)

(** What the queries of the nine title sources return for a document. *)
Record TitleQueries := mk_title_queries {
  (** [content] of [meta[property="og:title"]] *)
  og_title : option string;
  (** [content] of [meta[name="twitter:title"]] *)
  twitter_title : option string;
  (** [headline || name || title] of the JSON-LD block, when it parses *)
  json_ld_title : option string;
  (** text of the first [h1.title, h1.article-title, h1.post-title, h1.entry-title] *)
  h1_class_text : option string;
  (** text of the first [article h1, .article-header h1, .post-header h1] *)
  h1_context_text : option string;
  (** text of every [h1], in document order *)
  h1_texts : list string;
  (** text of the [title] element *)
  title_text : option string;
  (** text of the first [.title, .article-title, .post-title, .page-title] *)
  title_class_text : option string;
  (** text of the first [h1, h2, h3] *)
  heading_text : option string
}.

(** [titleSources]: each source returns a string or [null]/[undefined]. *)
Definition titleSources : list (TitleQueries -> option string) :=
  [ og_title;
    twitter_title;
    (fun d => match json_ld_title d with
              | Some t => if truthy t then Some t else None
              | None => None
              end);
    (fun d => trim <$> h1_class_text d);
    (fun d => trim <$> h1_context_text d);
    (fun d => Author.first_some
                (fun h1 =>
                   let text := trim h1 in
                   if truthy text && (10 <? String.length text) && (String.length text <? 200)
                   then Some text else None)
                (h1_texts d));
    (fun d => match trim <$> title_text d with
              | Some title =>
                  if truthy title
                  then Some (trim (default EmptyString
                                     (head (Regex.split (Regex.rx "[|\-\u2013\u2014]") title))))
                  else None
              | None => None
              end);
    (fun d => trim <$> title_class_text d);
    (fun d => trim <$> heading_text d) ].

(** The test a source's value must pass. *)
Definition valid_title (title : option string) : bool :=
  match title with
  | Some t => truthy t && (3 <? String.length t) && (String.length t <? 300)
  | None => false
  end.

(** The loop of [extractTitle] over the sources. *)
Fixpoint first_valid (sources : list (TitleQueries -> option string)) (doc : TitleQueries)
  : option string :=
  match sources with
  | [] => None
  | source :: rest =>
      let title := source doc in
      if valid_title title then title else first_valid rest doc
  end.

(** [extractTitle]. *)
Definition extractTitle (doc : TitleQueries) : string :=
  match first_valid titleSources doc with
  | Some title => title
  | None => "Untitled Page"
  end.

(** [parse] calls [cleanDocument] before [extractTitle], and [cleanDocument]
    removes every element whose tag is in [REMOVE_TAGS], among them [meta],
    [script] and [title]: on the document that [extractTitle] receives from
    [parse], the queries of the sources 1, 2, 3 and 7 find no element. *)
Definition cleaned (doc : TitleQueries) : bool :=
  bool_decide (og_title doc = None)
  && bool_decide (twitter_title doc = None)
  && bool_decide (json_ld_title doc = None)
  && bool_decide (title_text doc = None).

(** *** Metadata: the language *)

(** What the two language queries return: the [lang] attribute of
    [html[lang]] and the [content] attribute of the content-language
    [meta] element. *)
Record LangQueries := mk_lang_queries {
  html_lang : option string;
  content_language : option string
}.

(** [a || b] on values that are strings, [null] or [undefined]. *)
Definition or_else (a : option string) (b : option string) : option string :=
  match a with
  | Some x => if truthy x then Some x else b
  | None => b
  end.

(** [metadata.language] of [extractMetadata]. *)
Definition metadata_language (doc : LangQueries) : string :=
  default EmptyString
    (or_else
       (or_else ((fun lang => default EmptyString (head (split_on "-"%char lang)))
                   <$> html_lang doc)
                (content_language doc))
       (Some "en")).

(** [parse(...).metadata.language]: absent when [includeMetadata] is off. *)
Definition parsed_language (includeMetadata : bool) (doc : LangQueries) : option string :=
  if includeMetadata then Some (metadata_language doc) else None.

End GeneralParser.

(** ** White space in lists of code units *)

Module Spaces.

Import JsString.

(** The white space at the head of a list, and what follows it. *)
Fixpoint drop_ws (l : list ascii) : list ascii :=
  match l with
  | c :: r => if is_space c then drop_ws r else l
  | [] => []
  end.

Fixpoint take_ws (l : list ascii) : list ascii :=
  match l with
  | c :: r => if is_space c then c :: take_ws r else []
  | [] => []
  end.

(** The loop of a starred pattern in [Regex.run], by name. *)
Definition star_loop (fl : Regex.flags) (a : Regex.re) (k : Regex.K)
  : nat -> option ascii -> list ascii -> option (list ascii) :=
  fix loop (n : nat) (prev : option ascii) (s : list ascii) {struct n}
    : option (list ascii) :=
    match n with
    | O => k prev s
    | S n' =>
        match Regex.run fl a prev s
                (fun p' s' => if length s' <? length s then loop n' p' s' else None) with
        | Some e => Some e
        | None => k prev s
        end
    end.

(** Text in which every white-space code unit is a space that is not
    followed by white space. *)
Fixpoint squeezed (l : list ascii) : bool :=
  match l with
  | [] => true
  | c :: r =>
      (if is_space c
       then (code c =? 32)
            && match r with
               | c' :: _ => negb (is_space c')
               | [] => true
               end
       else true)
      && squeezed r
  end.

(** The right half of [trim]. *)
Definition trim_right (l : list ascii) : list ascii :=
  reverse (trim_left (reverse l)).

(** Text without any code unit that is not white space. *)
Definition blank (s : string) : bool := forallb is_space (list_ascii_of_string s).

(** The code units of a text that are not white space. *)
Definition visible (s : string) : list ascii :=
  List.filter (fun c => negb (is_space c)) (list_ascii_of_string s).

End Spaces.

(** ** helpers.ts: the other helpers *)

Module Helpers.

Import JsString.

(** A member of an array that may hold arrays again. *)
Inductive nested (A : Type) :=
| Value (x : A)
| Array (tags : list (nested A)).
Arguments Value {A} x.
Arguments Array {A} tags.

(** What one turn of the loop of [recursive_iterate] pushes for [tag]. *)
Fixpoint pushed {A : Type} (tag : nested A) : list A :=
  match tag with
  | Value x => [x]
  | Array tags => flat_map pushed tags
  end.

(** [recursive_iterate]. *)
Definition recursive_iterate {A : Type} (tags : list (nested A)) : list A :=
  flat_map pushed tags.

(** The loop of [name_entity] over [authors]: one turn. *)
Definition keep_author (filtered_authors : list string) (author : string) : list string :=
  if truthy author && negb (bool_decide (author ∈ filtered_authors))
  then filtered_authors ++ [author] else filtered_authors.

(** [name_entity] on an array of strings. *)
Definition name_entity (authors : list string) : list string :=
  match authors with
  | [] => []
  | _ =>
      let filtered_authors := foldl keep_author [] authors in
      if 2 <? length filtered_authors then take 2 filtered_authors else filtered_authors
  end.

End Helpers.

(** ** author.ts: the tags removed before the search *)

Module AuthorClean.

Import JsString Author.

(** [AuthorVariables]. *)
Definition comment_keys : list string := ["COMMENT"].
Definition footer_keys : list string := ["FOOTER"; "SOCIAL"; "SHARE"; "FACEBOOK"; "TWITTER"].

Definition INVALID_KEYS : list string := comment_keys ++ footer_keys.

(** The test on the first entry of a comparison:
    [parseInt(comparison[0].similarity.replace('%', '')) >= 70]. *)
Definition similar_enough (data : Compare.t) (v : string) : bool :=
  match (Compare.eval v data).1 with
  | first :: _ =>
      match parseInt (Regex.replace (Regex.rx "%") EmptyString (Compare.similarity first)) with
      | Some similarity => (70 <=? similarity)%Z
      | None => false
      end
  | [] => false
  end.

(** [__is_invalid_tag] on the attribute values of a tag: the loops return
    [true] at the first value and key that pass one of the tests. *)
Definition is_invalid_tag (attrs : list attr_value) : bool :=
  let INVALID_KEY_DATA := Compare.new INVALID_KEYS in
  existsb
    (fun v =>
       existsb
         (fun key =>
            match v with
            | AttrString s => String.eqb key s || similar_enough INVALID_KEY_DATA s
            | AttrList items =>
                existsb (String.eqb key) items
                || existsb (similar_enough INVALID_KEY_DATA) items
            end)
         INVALID_KEYS)
    attrs.

End AuthorClean.

(** ** extract_news.ts: the content parsers, with the [content] argument *)

Module ContentParser.

Import JsString NewsExtract.





End ContentParser.

(** ** parser.ts: the entry point of the extension *)

Module OnlineParser.

Import JsString NewsExtract.

(** [Payload]: the record of [get_scraper_api_response], or the two fields
    built when the extraction throws. *)
Inductive Payload :=
| Extracted (data : NewsExtractData)
| Failed (article_status : string) (article_error_status : string).

Definition payload_status (p : Payload) : string :=
  match p with
  | Extracted data => article_status data
  | Failed status _ => status
  end.

Definition payload_error_status (p : Payload) : option string :=
  match p with
  | Extracted data => article_error_status data
  | Failed _ message => Some message
  end.

(** [Article]: the request body. *)
Record Article := mk_body { url : string; raw_content : string }.

(** The value returned by [parserExtensionView], without the elapsed time. *)
Record View := mk_view {
  data : list Payload;
  status : string;
  error_message : option string
}.

Section Views.

Context `{JsDate}.

(** [OnlineParser.get_article_extension]. *)
Definition get_article_extension (url raw_content : string) (pg : Page) : Payload :=
  match new url (Some raw_content) None pg with
  | Ok scraped_article =>
      match get_scraper_api_response scraped_article with
      | Ok response => Extracted response
      | Throw message => Failed "Error" message
      end
  | Throw message => Failed "Error" message
  end.

(** [parserExtensionView]: [body] is [None] when the caller passes [null]
    or [undefined]; [pg] is what the queries of the extractor find in
    [body.raw_content]. *)
Definition parserExtensionView (body : option Article) (pg : Page) : result View :=
  match body with
  | None => Throw "Invalid Request Parameter"
  | Some body =>
      let payload := get_article_extension (url body) (raw_content body) pg in
      if String.eqb (payload_status payload) "Done"
      then Ok (mk_view [payload] "Done" None)
      else Ok (mk_view [payload] "Error"
                 (Some match payload_error_status payload with
                       | Some message => if truthy message then message else "Unknown error"
                       | None => "Unknown error"
                       end))
  end.

End Views.

End OnlineParser.

(** ** general_parser.ts: links, images and keywords of the metadata *)

Module Metadata.

Import JsString.

Section Urls.

(** The platform's [URL]: whether [new URL(url)] succeeds, and the [href]
    of [new URL(url, base)] when that succeeds. *)
Variable url_parses : string -> bool.
Variable url_href : string -> string -> option string.

(** [isValidUrl]. *)
Definition isValidUrl (url : string) : bool :=
  if url_parses url then true else startsWith "/" url || startsWith "#" url.

Definition imageExtensions : list string :=
  [".jpg"; ".jpeg"; ".png"; ".gif"; ".webp"; ".svg"].

(** [isValidImageUrl]. *)
Definition isValidImageUrl (src : string) : bool :=
  if negb (truthy src) then false
  else if startsWith "data:" src || includes "icon" src || includes "logo" src
          || includes "favicon" src || includes "sprite" src
  then false
  else
    let hasImageExtension := existsb (fun ext => includes ext (toLowerCase src)) imageExtensions in
    hasImageExtension || isValidUrl src.

(** [resolveUrl]. *)
Definition resolveUrl (url : string) (baseUrl : option string) : string :=
  match baseUrl with
  | Some base =>
      if negb (truthy base) || startsWith "http" url then url
      else default url (url_href url base)
  | None => url
  end.

(** The values the image loop keeps, and the values the link loop keeps. *)
Definition image_wanted (src : string) : bool := truthy src && isValidImageUrl src.

Definition link_wanted (href : string) : bool :=
  truthy href && isValidUrl href && negb (startsWith "#" href).

(** The body of the loop over the [src] values of one image source. *)
Definition add_image (baseUrl : option string) (images : list string) (src : string)
  : list string :=
  if truthy src && isValidImageUrl src then
    let resolvedUrl := resolveUrl src baseUrl in
    if bool_decide (resolvedUrl ∈ images) then images else images ++ [resolvedUrl]
  else images.

(** The loop over the image sources: each source is the list of values it
    returns, and the loop ends after the first source that leaves five
    images or more. *)
Fixpoint collect_images (baseUrl : option string) (images : list string)
    (sources : list (list string)) : list string :=
  match sources with
  | [] => images
  | urls :: rest =>
      let images := foldl (add_image baseUrl) images urls in
      if 5 <=? length images then images else collect_images baseUrl images rest
  end.

(** What the four image queries return. *)
Record ImageQueries := mk_image_queries {
  og_image : option string;
  twitter_image : option string;
  (** [src] of each [article img[src], main img[src], .content img[src]] *)
  article_images : list string;
  (** [src] of each [img[src]] *)
  all_images : list string
}.

Definition imageSources (doc : ImageQueries) : list (list string) :=
  [ option_list (og_image doc);
    option_list (twitter_image doc);
    List.filter truthy (article_images doc);
    List.filter truthy (all_images doc) ].

(** [metadata.images]: absent when no image is kept. *)
Definition metadata_images (doc : ImageQueries) (url : option string) : option (list string) :=
  let images := collect_images url [] (imageSources doc) in
  if 0 <? length images then Some images else None.

(** The callback of [linkElements.forEach]. *)
Definition add_link (baseUrl : option string) (links : list string) (href : string)
  : list string :=
  if truthy href && isValidUrl href && negb (startsWith "#" href) then
    let resolvedUrl := resolveUrl href baseUrl in
    if negb (bool_decide (resolvedUrl ∈ links)) && (length links <? 20)
    then links ++ [resolvedUrl] else links
  else links.

(** The links collected from the [href] values of the [a[href]] elements. *)
Definition collect_links (baseUrl : option string) (hrefs : list string) : list string :=
  foldl (add_link baseUrl) [] hrefs.

(** [metadata.links]: absent when links are removed or none is kept. *)
Definition metadata_links (removeLinks : bool) (hrefs : list string) (url : option string)
  : option (list string) :=
  if removeLinks then None
  else
    let links := collect_links url hrefs in
    if 0 <? length links then Some links else None.

End Urls.

(** [keywords.split(',').map(k => k.trim()).filter(Boolean)]. *)
Definition keywords_of (keywords : string) : list string :=
  List.filter truthy (map trim (split_on ","%char keywords)).

End Metadata.

(** ** general_parser.ts: choosing the content *)

Module Content.

Import JsString GeneralParser.

(** The score of a candidate as the loops compute it. *)
Definition score_of (el : node) : Float64.t := calculateContentScore el (textContent el).

(** One turn of [candidates.forEach] in the second strategy of
    [extractContent] and in the fallback of [extractContentWithHtml]: the
    state is [bestElement] and [bestScore], and [minLength] is the value of
    [this.options.minContentLength || 50] (or [|| 100]). *)
Definition consider (minLength : nat) (best : option node * Float64.t) (el : node)
  : option node * Float64.t :=
  let text := textContent el in
  let score := calculateContentScore el text in
  if Float64.ltb best.2 score && (minLength <=? String.length text)
  then (Some el, score) else best.

(** [bestElement] after the loop. *)
Definition best_element (minLength : nat) (candidates : list node) : option node :=
  (foldl (consider minLength) (None, Float64.of_Z 0) candidates).1.

(** The final loop of [extractContent] over what its strategies return,
    in order; a strategy that throws counts for [None]. *)
Fixpoint first_usable (results : list (option string)) : option string :=
  match results with
  | [] => None
  | Some content :: rest =>
      if truthy content && (0 <? String.length (trim content)) then Some content
      else first_usable rest
  | None :: rest => first_usable rest
  end.

(** [extractContent]: [body_text] is [doc.body?.textContent]. *)
Definition extractContent (results : list (option string)) (body_text : option string)
  : string :=
  match first_usable results with
  | Some content => content
  | None =>
      match body_text with
      | Some text => if truthy (trim text) then trim text else "No content found"
      | None => "No content found"
      end
  end.




(** [cleanAttributes] on the attributes the tree carries. *)
Fixpoint cleanAttributes (removeClasses removeIds : bool) (n : node) : node :=
  match n with
  | Text d => Text d
  | Element tag class_attr id_attr children =>
      Element tag
        (if removeClasses then None else class_attr)
        (if removeIds then None else id_attr)
        (map (cleanAttributes removeClasses removeIds) children)
  end.

(** Tags that [removeEmptyElements] never removes. *)
Definition kept_when_empty : list string := ["img"; "br"; "hr"; "input"; "meta"; "link"].

Definition is_element (n : node) : bool :=
  match n with
  | Element _ _ _ _ => true
  | Text _ => false
  end.

(** The test of [removeEmptyElements] on one element. *)
Definition is_empty_element (n : node) : bool :=
  match n with
  | Element tag _ _ children =>
      negb (existsb is_element children)
      && negb (truthy (trim (textContent n)))
      && negb (bool_decide (tag ∈ kept_when_empty))
  | Text _ => false
  end.

(** One turn of the [while] loop below the node [n]: the elements are
    visited in document order, a parent before its children, so that each
    is tested with the children it had when the turn began. *)
Fixpoint sweep (n : node) : node :=
  match n with
  | Text d => Text d
  | Element tag class_attr id_attr children =>
      Element tag class_attr id_attr
        ((fix go (l : list node) : list node :=
            match l with
            | [] => []
            | c :: r => if is_empty_element c then go r else sweep c :: go r
            end) children)
  end.

(** The number of elements of a tree. *)
Fixpoint elements (n : node) : nat :=
  match n with
  | Text _ => 0
  | Element _ _ _ children =>
      S ((fix go (l : list node) : nat :=
            match l with
            | [] => 0
            | c :: r => elements c + go r
            end) children)
  end.

(** The nodes of a tree, the root first. *)
Fixpoint subtree (n : node) : list node :=
  n :: match n with
       | Text _ => []
       | Element _ _ _ children => flat_map subtree children
       end.

(** The [while] loop of [removeEmptyElements] on a document whose root
    element is [root]: [None] when the root itself is removed.  A turn that
    removes nothing ends the loop. *)
Fixpoint sweep_loop (turns : nat) (root : node) : option node :=
  match turns with
  | O => Some root
  | S turns' =>
      if is_empty_element root then None
      else
        let swept := sweep root in
        if elements swept =? elements root then Some root
        else sweep_loop turns' swept
  end.

(** [removeEmptyElements]: the loop cannot take more turns than the tree
    has elements. *)
Definition removeEmptyElements (root : node) : option node :=
  sweep_loop (S (elements root)) root.

End Content.

(** ** youtube-scraper.ts *)

Module YouTubeScraper.

Import JsString.

(** [s.padStart(targetLength, padString)] for a one-character pad. *)
Definition padStart (targetLength : nat) (pad : ascii) (s : string) : string :=
  string_of_list_ascii (replicate (targetLength - String.length s) pad) +:+ s.

(** The value [parseInt] computes along the digits of a decimal numeral
    printed by [toString]. *)
Fixpoint uint_value (d : Decimal.uint) (acc : Z) : Z :=
  match d with
  | Decimal.Nil => acc
  | Decimal.D0 d => uint_value d (10 * acc + 0)
  | Decimal.D1 d => uint_value d (10 * acc + 1)
  | Decimal.D2 d => uint_value d (10 * acc + 2)
  | Decimal.D3 d => uint_value d (10 * acc + 3)
  | Decimal.D4 d => uint_value d (10 * acc + 4)
  | Decimal.D5 d => uint_value d (10 * acc + 5)
  | Decimal.D6 d => uint_value d (10 * acc + 6)
  | Decimal.D7 d => uint_value d (10 * acc + 7)
  | Decimal.D8 d => uint_value d (10 * acc + 8)
  | Decimal.D9 d => uint_value d (10 * acc + 9)
  end%Z.

(** [formatTimestamp]: the offset is a double; the two quotients are taken
    in double precision and floored, and the numbers are printed by
    [toString]. *)
Definition formatTimestamp (milliseconds : Float64.t) : string :=
  let totalSeconds := Float64.floor (Float64.div milliseconds (Float64.of_Z 1000)) in
  let minutes :=
    Float64.floor (Float64.div (Float64.of_integral totalSeconds) (Float64.of_Z 60)) in
  let seconds := Float64.rem totalSeconds 60 in
  padStart 2 "0" (Float64.to_string minutes) +:+ ":"
  +:+ padStart 2 "0" (Float64.to_string seconds).

(** A member of [videoDetails.thumbnail.thumbnails]: its [url], a string,
    and its [width] when it has one. *)
Record thumbnail := mk_thumbnail {
  thumb_url : string;
  thumb_width : option nat
}.

(** [getQualityScore]. *)
Definition getQualityScore (url : string) : nat :=
  if includes "maxresdefault" url then 5
  else if includes "hqdefault" url then 4
  else if includes "mqdefault" url then 3
  else if includes "sddefault" url then 2
  else if includes "default" url then 1
  else 0.

(** [thumbnails.sort((a, b) => key(b) - key(a))]: a stable sort, larger
    keys first. *)
Fixpoint insert_by (key : thumbnail -> nat) (t : thumbnail) (l : list thumbnail)
  : list thumbnail :=
  match l with
  | [] => [t]
  | x :: r => if key x <=? key t then t :: l else x :: insert_by key t r
  end.

Definition sort_by (key : thumbnail -> nat) (l : list thumbnail) : list thumbnail :=
  foldr (insert_by key) [] l.

Definition quality (t : thumbnail) : nat := getQualityScore (thumb_url t).

Definition width (t : thumbnail) : nat := default 0 (thumb_width t).

(** [sortThumbnailsByQuality]. *)
Definition sortThumbnailsByQuality (thumbnails : list thumbnail) : list thumbnail :=
  sort_by quality thumbnails.

(** [extractThumbnailUrl]: [playerData] is the thumbnail array of the
    player response, [None] when the page has no player response. *)
Definition extractThumbnailUrl (playerData : option (list thumbnail)) : string :=
  match playerData with
  | None => EmptyString
  | Some thumbnails =>
      match thumbnails with
      | [] => EmptyString
      | _ =>
          match sortThumbnailsByQuality thumbnails with
          | first :: _ => thumb_url first
          | [] => EmptyString
          end
      end
  end.

(** [extractAllThumbnailUrls]. *)
Definition extractAllThumbnailUrls (playerData : option (list thumbnail)) : list string :=
  match playerData with
  | None => []
  | Some thumbnails => List.filter truthy (map thumb_url (sortThumbnailsByQuality thumbnails))
  end.

(** The object returned by [extractThumbnailsByQuality]. *)
Record by_quality := mk_by_quality {
  q_hqdefault : option string;
  q_maxresdefault : option string;
  q_default : option string;
  q_mqdefault : option string;
  q_sddefault : option string
}.

(** [if (cond && !result.slot) result.slot = url]. *)
Definition assign (cond : bool) (slot : option string) (url : string) : option string :=
  if cond && negb (match slot with Some u => truthy u | None => false end)
  then Some url else slot.

(** The callback of [sortedThumbnails.forEach]. *)
Definition classify (result : by_quality) (thumb : thumbnail) : by_quality :=
  let url := thumb_url thumb in
  mk_by_quality
    (assign (includes "hqdefault" url) (q_hqdefault result) url)
    (assign (includes "maxresdefault" url) (q_maxresdefault result) url)
    (assign (includes "default" url && negb (includes "hqdefault" url)
             && negb (includes "maxresdefault" url)) (q_default result) url)
    (assign (includes "mqdefault" url) (q_mqdefault result) url)
    (assign (includes "sddefault" url) (q_sddefault result) url).

(** [extractThumbnailsByQuality]. *)
Definition extractThumbnailsByQuality (playerData : option (list thumbnail)) : by_quality :=
  match playerData with
  | None => mk_by_quality None None None None None
  | Some thumbnails =>
      foldl classify (mk_by_quality None None None None None) (sort_by width thumbnails)
  end.

End YouTubeScraper.

(** ** A [Date] for running the extractor on concrete inputs

    An implementation of the interface for the UTC time zone, restricted to
    the texts [YYYY-MM-DD] and [YYYY-MM-DDThh:mm:ssZ] and to days 1 to 28;
    what a full [Date] would normalise is treated as invalid here. *)

Module UtcDate.

Import JsString.

Definition iso_day : Regex.literal :=
  Regex.rx "^\d{4}-(0[1-9]|1[0-2])-(0[1-9]|1\d|2[0-8])$".

Definition iso_instant : Regex.literal :=
  Regex.rx "^\d{4}-(0[1-9]|1[0-2])-(0[1-9]|1\d|2[0-8])T([01]\d|2[0-3]):[0-5]\d:[0-5]\dZ$".

Definition parse (text : string) : option string :=
  if Regex.test iso_day text then Some (text +:+ "T00:00:00.000Z")
  else if Regex.test iso_instant text then Some (substring 0 19 text +:+ ".000Z")
  else None.

Definition pad2 (n : Z) : string :=
  (if (n <? 10)%Z then "0" else EmptyString) +:+ of_nat (Z.to_nat n).

Definition local (year month day : Z) : option string :=
  if ((1000 <=? year) && (year <=? 9999) && (0 <=? month) && (month <=? 11)
      && (1 <=? day) && (day <=? 28))%Z
  then Some (of_nat (Z.to_nat year) +:+ "-" +:+ pad2 (month + 1) +:+ "-" +:+ pad2 day
             +:+ "T00:00:00.000Z")
  else None.

Definition utc_date : JsDate :=
  {| date := string; date_parse := parse; date_local := local; toISOString := fun d => d |}.

End UtcDate.

(** ** Inputs used in examples *)

(** A token of 33 code units, all distinct. *)
Definition long_token : string := "ABCDEFGHIJKLMNOPQRSTUVWXYZ0123456".

(** The word "strasse" written with sharp s (code unit 223): upper-cased, it
    is "STRASSE". *)
Definition sharp_s_token : string := "stra" +:+ String (ascii_of_nat 223) "e".

(** A page with a title, one paragraph, a language and a published time,
    and no author element. *)
Definition sample_page : NewsExtract.Page :=
  NewsExtract.mk_page
    (Some "Council approves the new harbour bridge")
    ["The city council voted on Tuesday evening to approve the harbour bridge project"]
    (Some "en-GB") (Some "2024-01-05T00:00:00Z") [] None None None "example.com".

(** The instance built for [sample_page]. *)
Definition sample_instance : NewsExtract.t :=
  match NewsExtract.new (H := UtcDate.utc_date)
          "https://example.com/2024-01-06/harbour-bridge" (Some "<html></html>") None
          sample_page with
  | NewsExtract.Ok self => self
  | NewsExtract.Throw _ =>
      NewsExtract.mk EmptyString None None None None None None None "en" false None EmptyString
  end.

(** The record returned for [sample_instance]. *)
Definition sample_data : NewsExtract.NewsExtractData :=
  NewsExtract.mk_data
    (Some "Council approves the new harbour bridge") "example.com" None
    (Some ["No - Author"]) (Some "2024-01-06T00:00:00.000Z") (Some [])
    (Some "The city council voted on Tuesday evening to approve the harbour bridge project")
    "en-GB" "Done" None "https://example.com/2024-01-06/harbour-bridge".

(** An extracted article with a given metadata published time. *)
Definition dated_article (published_time : string) : NewsExtract.Article :=
  NewsExtract.mk_article "Title" "Text" "en" (Some published_time) ["No - Author"]
    (NewsExtract.TopString EmptyString).

(** An extracted article whose top image is an array of strings. *)
Definition article_with_images (urls : list string) : NewsExtract.Article :=
  NewsExtract.mk_article "Title" "Text" "en" None ["No - Author"]
    (NewsExtract.TopArray (map NewsExtract.JsStr urls)).

(** An extracted article whose top image is a single string. *)
Definition article_with_image (url : string) : NewsExtract.Article :=
  NewsExtract.mk_article "Title" "Text" "en" None ["No - Author"]
    (NewsExtract.TopString url).

(** A page on which no query finds anything but a blank author text. *)
Definition page_without_fields : NewsExtract.Page :=
  NewsExtract.mk_page None [] None None ["  "] None None None "example.com".

(** A document on which no title query finds anything. *)
Definition empty_document : GeneralParser.TitleQueries :=
  GeneralParser.mk_title_queries None None None None None [] None None None.

(** A cleaned document with two [h1] elements. *)
Definition headline_document : GeneralParser.TitleQueries :=
  GeneralParser.mk_title_queries None None None None None
    ["News"; " Harbour bridge reopens "] None None (Some "News").

(** * Properties *)

(** ** Double precision

  Integers below 2^53 are doubles with a mantissa of 53 digits; a quotient
  of two of them is rounded from a quotient of mantissas of 53 or 54 digits,
  by at most one unit; and the floor of the rounded quotient is the integer
  quotient. *)

Section FloatFacts.

Local Open Scope Z_scope.

(** The number of binary digits of a mantissa. *)
Lemma digits2_lower p : 2 ^ (Z.pos (digits2_pos p) - 1) <= Z.pos p.
Proof.
  induction p as [p IH|p IH|]; cbn [digits2_pos].
  - rewrite Pos2Z.inj_succ. replace (Z.succ (Z.pos (digits2_pos p)) - 1) with (Z.succ (Z.pos (digits2_pos p) - 1)) by lia.
    rewrite Z.pow_succ_r by lia. lia.
  - rewrite Pos2Z.inj_succ. replace (Z.succ (Z.pos (digits2_pos p)) - 1) with (Z.succ (Z.pos (digits2_pos p) - 1)) by lia.
    rewrite Z.pow_succ_r by lia. lia.
  - simpl. lia.
Qed.

Lemma digits2_upper p : Z.pos p < 2 ^ Z.pos (digits2_pos p).
Proof.
  induction p as [p IH|p IH|]; cbn [digits2_pos].
  - rewrite Pos2Z.inj_succ, Z.pow_succ_r by lia. lia.
  - rewrite Pos2Z.inj_succ, Z.pow_succ_r by lia. lia.
  - simpl. lia.
Qed.

Lemma digits2_unique p d :
  2 ^ (Z.pos d - 1) <= Z.pos p < 2 ^ Z.pos d → digits2_pos p = d.
Proof.
  intros [Hlo Hhi].
  pose proof (digits2_lower p) as Hl. pose proof (digits2_upper p) as Hu.
  destruct (Pos.compare_spec (digits2_pos p) d) as [Heq|Hlt|Hgt]; [done| |].
  - exfalso. assert (2 ^ Z.pos (digits2_pos p) <= 2 ^ (Z.pos d - 1)) by (apply Z.pow_le_mono_r; lia). lia.
  - exfalso. assert (2 ^ Z.pos d <= 2 ^ (Z.pos (digits2_pos p) - 1)) by (apply Z.pow_le_mono_r; lia). lia.
Qed.

Lemma loc_record m l : loc_of_shr_record (shr_record_of_loc m l) = l.
Proof. by destruct l as [|[]]. Qed.

Lemma shr_m_record m l : shr_m (shr_record_of_loc m l) = m.
Proof. by destruct l as [|[]]. Qed.

(** The last step of [binary_round_aux] on a mantissa of 53 digits or on 2^53. *)
Lemma second_step m e :
  2 ^ 52 <= Z.pos m <= 2 ^ 53 → -1000 <= e <= 900 →
  ∃ m2 e2,
    (let '(mrs, e'') := shr_fexp Float64.prec Float64.emax (Z.pos m) e loc_Exact in
     match shr_m mrs with
     | Z0 => S754_zero false
     | Z.pos m' => if e'' <=? Float64.emax - Float64.prec then S754_finite false m' e''
                   else S754_infinity false
     | Z.neg _ => S754_nan
     end) = S754_finite false m2 e2
    ∧ e <= e2 <= e + 1 ∧ Z.pos m2 * 2 ^ (e2 - e) = Z.pos m.
Proof.
  intros Hm He. unfold shr_fexp. cbn [Zdigits2 shr_record_of_loc].
  destruct (Z_lt_le_dec (Z.pos m) (2 ^ 53)) as [Hlt|Hge].
  - assert (Hd : digits2_pos m = 53%positive).
    { apply digits2_unique. exact (conj (proj1 Hm) Hlt). }
    rewrite Hd.
    assert (Hf : fexp Float64.prec Float64.emax (53 + e) - e = 0)
      by (unfold fexp, emin, Float64.prec, Float64.emax; lia).
    rewrite Hf. cbn [shr shr_m].
    assert (Hle : (e <=? Float64.emax - Float64.prec) = true)
      by (apply Z.leb_le; unfold Float64.emax, Float64.prec; lia).
    rewrite Hle. exists m, e. split; [done|]. split; [lia|].
    rewrite Z.sub_diag. simpl. lia.
  - assert (Hm53 : Z.pos m = 2 ^ 53) by lia.
    assert (Heq : m = (2 ^ 53)%positive) by lia. subst m.
    change (digits2_pos (2 ^ 53)) with 54%positive.
    assert (Hf : fexp Float64.prec Float64.emax (54 + e) - e = 1)
      by (unfold fexp, emin, Float64.prec, Float64.emax; lia).
    rewrite Hf. cbn [shr iter_pos]. 
    change (shr_m (shr_1 {| shr_m := Z.pos (2 ^ 53); shr_r := false; shr_s := false |}))
      with (Z.pos (2 ^ 52)).
    assert (Hle : (e + 1 <=? Float64.emax - Float64.prec) = true)
      by (apply Z.leb_le; unfold Float64.emax, Float64.prec; lia).
    rewrite Hle. exists (2 ^ 52)%positive, (e + 1). split; [done|]. split; [lia|].
    replace (e + 1 - e) with 1 by lia. reflexivity.
Qed.

Lemma rne_bounds m l : 0 <= m → m <= round_nearest_even m l <= m + 1.
Proof. intros Hm. destruct l as [|[]]; cbn [round_nearest_even]; try lia. destruct (Z.even m); lia. Qed.

Lemma binary_round_aux_second sx mx ex lx :
  binary_round_aux Float64.prec Float64.emax sx mx ex lx
  = let '(mrs', e') := shr_fexp Float64.prec Float64.emax mx ex lx in
    let '(mrs'', e'') :=
      shr_fexp Float64.prec Float64.emax
        (round_nearest_even (shr_m mrs') (loc_of_shr_record mrs')) e' loc_Exact in
    match shr_m mrs'' with
    | Z0 => S754_zero sx
    | Z.pos m => if e'' <=? Float64.emax - Float64.prec then S754_finite sx m e''
                 else S754_infinity sx
    | Z.neg _ => S754_nan
    end.
Proof. reflexivity. Qed.

(** Rounding a quotient of 53 or 54 digits: the result is finite and at most
    one unit of the quotient away. *)
Lemma round_aux_value q e l :
  2 ^ 52 <= Z.pos q < 2 ^ 54 → -1000 <= e <= 0 →
  ∃ m e2,
    binary_round_aux Float64.prec Float64.emax false (Z.pos q) e l = S754_finite false m e2
    ∧ e <= e2 <= e + 2
    ∧ Z.pos q - 1 <= Z.pos m * 2 ^ (e2 - e) <= Z.pos q + 1
    ∧ (Z.pos q < 2 ^ 53 → Z.pos q <= Z.pos m * 2 ^ (e2 - e))
    ∧ (2 ^ 53 <= Z.pos q → e + 1 <= e2).
Proof.
  intros Hq He. rewrite binary_round_aux_second.
  unfold shr_fexp at 1. cbn [Zdigits2].
  destruct (Z_lt_le_dec (Z.pos q) (2 ^ 53)) as [Hlt|Hge].
  - assert (Hd : digits2_pos q = 53%positive).
    { apply digits2_unique. exact (conj (proj1 Hq) Hlt). }
    rewrite Hd.
    assert (Hf : fexp Float64.prec Float64.emax (53 + e) - e = 0)
      by (unfold fexp, emin, Float64.prec, Float64.emax; lia).
    rewrite Hf. cbn [shr]. rewrite shr_m_record, loc_record.
    pose proof (rne_bounds (Z.pos q) l ltac:(lia)) as Hr.
    destruct (round_nearest_even (Z.pos q) l) as [|m1|m1] eqn:Hm1; try lia.
    destruct (second_step m1 e ltac:(lia) ltac:(lia)) as (m2 & e2 & Hres & He2 & Hval).
    exists m2, e2. split; [exact Hres|]. split; [lia|]. rewrite Hval. lia.
  - assert (Hd : digits2_pos q = 54%positive).
    { apply digits2_unique. exact (conj Hge (proj2 Hq)). }
    rewrite Hd.
    assert (Hf : fexp Float64.prec Float64.emax (54 + e) - e = 1)
      by (unfold fexp, emin, Float64.prec, Float64.emax; lia).
    rewrite Hf. cbn [shr].
    change (SpecFloat.iter_pos shr_1 1 (shr_record_of_loc (Z.pos q) l))
      with (shr_1 (shr_record_of_loc (Z.pos q) l)).
    assert (Hstep : ∃ m1, round_nearest_even
                            (shr_m (shr_1 (shr_record_of_loc (Z.pos q) l)))
                            (loc_of_shr_record (shr_1 (shr_record_of_loc (Z.pos q) l)))
                          = Z.pos m1
                          ∧ 2 ^ 52 <= Z.pos m1 <= 2 ^ 53
                          ∧ Z.pos q - 1 <= 2 * Z.pos m1 <= Z.pos q + 1).
    { destruct q as [p|p|]; [| |lia].
      - assert (Hp : 2 ^ 52 <= Z.pos p < 2 ^ 53) by lia.
        destruct l as [|[]]; cbn [shr_record_of_loc shr_1 shr_m loc_of_shr_record orb
                                  round_nearest_even].
        + destruct (Z.even (Z.pos p)).
          * exists p. lia.
          * exists (p + 1)%positive. lia.
        + exists (p + 1)%positive. lia.
        + exists (p + 1)%positive. lia.
        + exists (p + 1)%positive. lia.
      - assert (Hp : 2 ^ 52 <= Z.pos p < 2 ^ 53) by lia.
        destruct l as [|[]]; cbn [shr_record_of_loc shr_1 shr_m loc_of_shr_record orb
                                  round_nearest_even]; exists p; lia. }
    destruct Hstep as (m1 & -> & Hm1 & Hv).
    destruct (second_step m1 (e + 1) ltac:(lia) ltac:(lia)) as (m2 & e2 & Hres & He2 & Hval).
    exists m2, e2. split; [exact Hres|]. split; [lia|].
    assert (Hpow : 2 ^ (e2 - e) = 2 * 2 ^ (e2 - (e + 1))).
    { replace (e2 - e) with (Z.succ (e2 - (e + 1))) by lia.
      rewrite Z.pow_succ_r by lia. done. }
    rewrite Hpow. split; [nia|]. split; [lia|lia].
Qed.

Lemma iter_xO_value k : ∀ p, Z.pos (Pos.iter xO p k) = Z.pos p * 2 ^ Z.pos k.
Proof.
  induction k as [|k IH] using Pos.peano_ind; intros p.
  - simpl. lia.
  - rewrite Pos.iter_succ, Pos2Z.inj_succ, Z.pow_succ_r by lia.
    rewrite Pos2Z.inj_xO, IH. lia.
Qed.

(** The double of a positive integer below 2^53: a mantissa of 53 digits. *)
Lemma of_Z_pos_canonical p :
  Z.pos p < 2 ^ 53 →
  ∃ m e, Float64.of_Z (Z.pos p) = S754_finite false m e
         ∧ 2 ^ 52 <= Z.pos m < 2 ^ 53 ∧ -52 <= e <= 0
         ∧ Z.pos m = Z.pos p * 2 ^ (- e).
Proof.
  intros Hp.
  pose proof (digits2_lower p) as Hlo. pose proof (digits2_upper p) as Hup.
  assert (Hd : Z.pos (digits2_pos p) <= 53).
  { destruct (Z_le_gt_dec (Z.pos (digits2_pos p)) 53) as [|Hgt]; [done|].
    assert (2 ^ 53 <= 2 ^ (Z.pos (digits2_pos p) - 1)) by (apply Z.pow_le_mono_r; lia).
    lia. }
  unfold Float64.of_Z, binary_normalize, binary_round.
  set (d := digits2_pos p) in *.
  assert (Hfexp : fexp Float64.prec Float64.emax (Z.pos d + 0) = Z.pos d - 53).
  { unfold fexp, emin, Float64.prec, Float64.emax. lia. }
  rewrite Hfexp.
  assert (Haux : ∀ mz ez, 2 ^ 52 <= Z.pos mz < 2 ^ 53 → -52 <= ez <= 0 →
            binary_round_aux Float64.prec Float64.emax false (Z.pos mz) ez loc_Exact
            = S754_finite false mz ez).
  { intros mz ez Hmz Hez.
    assert (Hdz : digits2_pos mz = 53%positive) by (by apply digits2_unique).
    unfold binary_round_aux, shr_fexp. simpl Zdigits2. rewrite Hdz.
    assert (Hf : fexp Float64.prec Float64.emax (53 + ez) - ez = 0)
      by (unfold fexp, emin, Float64.prec, Float64.emax; lia).
    rewrite Hf. simpl. rewrite Hdz. rewrite Hf. simpl.
    assert (Hle : (ez <=? Float64.emax - Float64.prec) = true)
      by (apply Z.leb_le; unfold Float64.emax, Float64.prec; lia).
    rewrite Hle. reflexivity. }
  unfold shl_align.
  destruct (Z.pos d - 53 - 0) as [|k|k] eqn:Hs.
  - assert (Hd53 : Z.pos d = 53) by lia.
    assert (Hb : 2 ^ 52 <= Z.pos p < 2 ^ 53).
    { rewrite Hd53 in Hlo. change (2 ^ (53 - 1)) with (2 ^ 52) in Hlo. lia. }
    exists p, 0. split; [by apply Haux|]. split; [done|]. split; [lia|].
    simpl. lia.
  - lia.
  - assert (Hk : Z.pos k = 53 - Z.pos d) by lia.
    assert (Hval : Z.pos (Pos.iter xO p k) = Z.pos p * 2 ^ (53 - Z.pos d)).
    { rewrite iter_xO_value, Hk. done. }
    assert (Hb : 2 ^ 52 <= Z.pos (Pos.iter xO p k) < 2 ^ 53).
    { rewrite Hval.
      assert (H52 : 2 ^ 52 = 2 ^ (Z.pos d - 1) * 2 ^ (53 - Z.pos d)).
      { rewrite <- Z.pow_add_r by lia. f_equal. lia. }
      assert (H53 : 2 ^ 53 = 2 ^ Z.pos d * 2 ^ (53 - Z.pos d)).
      { rewrite <- Z.pow_add_r by lia. f_equal. lia. }
      assert (Hpos : 0 < 2 ^ (53 - Z.pos d)) by (apply Z.pow_pos_nonneg; lia).
      rewrite H52, H53. nia. }
    exists (Pos.iter xO p k), (Z.pos d - 53).
    split; [apply Haux; [done|lia]|]. split; [done|]. split; [lia|].
    rewrite Hval. f_equal. f_equal. lia.
Qed.

(** A finite double divided by itself is 1. *)
Lemma div_self s m e :
  Float64.div (S754_finite s m e) (S754_finite s m e) = Float64.of_Z 1.
Proof.
  unfold Float64.div, SFdiv, SFdiv_core_binary.
  rewrite Z.sub_diag.
  replace (Zdigits2 (Z.pos m) + e - (Zdigits2 (Z.pos m) + e)) with 0 by lia.
  change (Z.min (fexp Float64.prec Float64.emax 0) 0) with (-53).
  change (0 - -53) with 53.
  cbv beta iota zeta.
  assert (Hdiv : Z.div_eucl (Z.shiftl (Z.pos m) 53) (Z.pos m) = (2 ^ 53, 0)).
  { rewrite Z.shiftl_mul_pow2 by lia.
    pose proof (Z.div_eucl_eq (Z.pos m * 2 ^ 53) (Z.pos m)) as Heq.
    pose proof (Z.mod_pos_bound (Z.pos m * 2 ^ 53) (Z.pos m)) as Hb.
    unfold Z.modulo, Z.div in *.
    destruct (Z.div_eucl (Z.pos m * 2 ^ 53) (Z.pos m)) as [q r].
    assert (Hq : q = (2 ^ 53)) by nia.
    assert (Hr : r = 0) by nia.
    by subst. }
  rewrite Hdiv. cbv beta iota zeta.
  assert (Hloc : new_location (Z.pos m) 0 = loc_Exact).
  { unfold new_location. destruct (Z.even (Z.pos m)); reflexivity. }
  rewrite Hloc. destruct s; vm_compute; reflexivity.
Qed.

Lemma floor_finite m e2 e V :
  e <= e2 <= 0 → V = Z.pos m * 2 ^ (e2 - e) →
  Float64.floor (S754_finite false m e2) = Float64.Int (V / 2 ^ (- e)).
Proof.
  intros He ->. unfold floor.
  assert (Hsplit : 2 ^ (- e) = 2 ^ (- e2) * 2 ^ (e2 - e)).
  { rewrite <- Z.pow_add_r by lia. f_equal. lia. }
  assert (Hpos : 0 < 2 ^ (e2 - e)) by (apply Z.pow_pos_nonneg; lia).
  rewrite Hsplit, Z.div_mul_cancel_r by lia.
  destruct e2 as [|k|k]; [|lia|].
  - simpl. f_equal. rewrite Z.div_1_r. lia.
  - f_equal.
Qed.

(** The arithmetic of the quotient: [q] and [r] are the quotient and the
    remainder of [ma * P] by [mb], where [ma = a * A], [mb = b * B] and
    [TT * B = A * P]. *)
Lemma quotient_bracket a b A B P TT ma mb q r :
  0 < a → 0 < b → 1 <= A → 1 <= B → 0 < TT →
  ma = a * A → mb = b * B → mb < P → TT * B = A * P →
  ma * P = mb * q + r → 0 <= r < mb →
  (a / b) * TT <= q <= (a / b + 1) * TT - 2.
Proof.
  intros Ha Hb HA HB HTT -> -> HmbP HTTB Heq Hr.
  pose proof (Z.div_mod a b ltac:(lia)) as Hk.
  pose proof (Z.mod_pos_bound a b ltac:(lia)) as Hrho.
  set (k := a / b) in *. set (rho := a mod b) in *.
  assert (Hexp : a * TT * B = b * B * q + r) by nia.
  assert (HTTb : b < TT) by nia.
  assert (Hr' : ∃ r', r = B * r').
  { exists (a * TT - b * q). nia. }
  destruct Hr' as [r' ->].
  assert (Hqr : a * TT = b * q + r') by nia.
  assert (Hr'b : 0 <= r' < b) by nia.
  split; nia.
Qed.

Lemma floor_div a b :
  0 <= a < 2 ^ 53 → 2 <= b < 2 ^ 53 →
  Float64.floor (Float64.div (Float64.of_Z a) (Float64.of_Z b)) = Float64.Int (a / b).
Proof.
  intros Ha Hb.
  destruct b as [|pb|pb]; try lia.
  destruct (of_Z_pos_canonical pb ltac:(lia)) as (mb & eb & -> & Hmb & Heb & Hvb).
  destruct a as [|pa|pa]; try lia.
  { reflexivity. }
  destruct (of_Z_pos_canonical pa ltac:(lia)) as (ma & ea & -> & Hma & Hea & Hva).
  unfold Float64.div, SFdiv, SFdiv_core_binary. cbn [Zdigits2 xorb].
  assert (Hda : digits2_pos ma = 53%positive) by (by apply digits2_unique).
  assert (Hdb : digits2_pos mb = 53%positive) by (by apply digits2_unique).
  rewrite Hda, Hdb.
  set (e' := ea - eb - 53).
  assert (He' : Z.min (fexp Float64.prec Float64.emax (53 + ea - (53 + eb))) (ea - eb) = e').
  { unfold fexp, emin, Float64.prec, Float64.emax. subst e'. lia. }
  rewrite He'.
  assert (Hs : ea - eb - e' = 53) by (subst e'; lia).
  rewrite Hs. cbv beta iota zeta.
  rewrite Z.shiftl_mul_pow2 by lia.
  pose proof (Z.div_eucl_eq (Z.pos ma * 2 ^ 53) (Z.pos mb)) as Heq.
  pose proof (Z.mod_pos_bound (Z.pos ma * 2 ^ 53) (Z.pos mb) ltac:(lia)) as Hr.
  unfold Z.modulo, Z.div in Heq, Hr.
  destruct (Z.div_eucl (Z.pos ma * 2 ^ 53) (Z.pos mb)) as [q r].
  assert (HA : 1 <= 2 ^ (- ea)) by (apply (Z.pow_le_mono_r 2 0); lia).
  assert (HB : 1 <= 2 ^ (- eb)) by (apply (Z.pow_le_mono_r 2 0); lia).
  assert (HTT : 2 ^ (- e') * 2 ^ (- eb) = 2 ^ (- ea) * 2 ^ 53).
  { subst e'. rewrite <- !Z.pow_add_r by lia. f_equal. lia. }
  assert (HT2 : e' <= -2).
  { destruct (Z_le_gt_dec eb (-52)) as [Hle|Hgt].
    - exfalso. assert (Heq52 : eb = -52) by lia. rewrite Heq52 in Hvb.
      change (2 ^ (- -52)) with (2 ^ 52) in Hvb. lia.
    - subst e'. lia. }
  assert (HTTpos : 0 < 2 ^ (- e')) by (apply Z.pow_pos_nonneg; lia).
  pose proof (quotient_bracket (Z.pos pa) (Z.pos pb) (2 ^ (- ea)) (2 ^ (- eb)) (2 ^ 53)
                (2 ^ (- e')) (Z.pos ma) (Z.pos mb) q r
                ltac:(lia) ltac:(lia) HA HB HTTpos Hva Hvb ltac:(lia) HTT (Heq ltac:(lia)) Hr)
    as [Hlow Hhigh].
  assert (Hq : 2 ^ 52 <= q < 2 ^ 54).
  { clear Hlow Hhigh HTT. 
    set (P := 2 ^ 52) in *.
    assert (HP53 : 2 ^ 53 = 2 * P) by (subst P; reflexivity).
    assert (HP54 : 2 ^ 54 = 4 * P) by (subst P; reflexivity).
    rewrite HP53 in *. rewrite HP54.
    assert (HPpos : 0 < P) by (subst P; lia).
    clearbody P. split; nia. }
  destruct q as [|pq|pq]; try lia.
  destruct (round_aux_value pq e' (new_location (Z.pos mb) r) Hq ltac:(subst e'; lia))
    as (m & e2 & -> & He2 & Hv & H53 & H54).
  rewrite (floor_finite m e2 e' (Z.pos m * 2 ^ (e2 - e'))); [|lia|done].
  f_equal.
  set (V := Z.pos m * 2 ^ (e2 - e')) in *.
  set (TT := 2 ^ (- e')) in *.
  set (k := Z.pos pa / Z.pos pb) in *.
  symmetry. apply Z.div_unique with (r := V - k * TT); [|lia].
  left. split; [|lia].
  destruct (Z_lt_le_dec (Z.pos pq) (2 ^ 53)) as [Hlt|Hge].
  - specialize (H53 Hlt). lia.
  - specialize (H54 Hge).
    assert (HevV : ∃ v, V = 2 * v).
    { exists (Z.pos m * 2 ^ (e2 - e' - 1)). subst V.
      assert (Hp : 2 ^ (e2 - e') = 2 * 2 ^ (e2 - e' - 1)).
      { rewrite <- Z.pow_succ_r by lia. f_equal. lia. }
      rewrite Hp. lia. }
    assert (HevT : ∃ t, TT = 2 * t).
    { exists (2 ^ (- e' - 1)). subst TT.
      rewrite <- Z.pow_succ_r by lia. f_equal. lia. }
    destruct HevV as [v Hv2]. destruct HevT as [t Ht2].
    clearbody V TT k. clear -Hlow Hv Hv2 Ht2. nia.
Qed.

End FloatFacts.

(** ** The trigram matcher *)

Section CompareFacts.

Import Compare.

Lemma index_of_set_callback idx st arg g :
  index_of (set_callback idx st arg) g =
  if decide (arg = g)
  then (if bool_decide (idx ∈ index_of st arg) then index_of st arg
        else index_of st arg ++ [idx])
  else index_of st g.
Proof.
  unfold index_of, set_callback; simpl.
  destruct (decide (arg = g)) as [->|Hne].
  - rewrite lookup_insert_eq. reflexivity.
  - rewrite lookup_insert_ne by done. reflexivity.
Qed.

Lemma set_callback_inv st0 w seen st g :
  length (word_trigram_count st0) = length (words st0) →
  set_inv st0 w seen st →
  set_inv st0 w (seen ++ [g]) (set_callback (length (words st0)) st g).
Proof.
  intros Hlen (Hw & Hc & Htc & Hnd & Hmem).
  repeat split.
  - exact Hw.
  - simpl. rewrite Hc. unfold incr.
    rewrite <- Hlen.
    rewrite alter_app_r_alt by lia.
    rewrite Nat.sub_diag. simpl. rewrite length_app. simpl. do 2 f_equal. lia.
  - exact Htc.
  - intros g'. rewrite index_of_set_callback.
    destruct (decide (g = g')) as [->|Hne]; [|apply Hnd].
    case_bool_decide as Hin; [apply Hnd|].
    apply NoDup_app. split; [apply Hnd|]. split.
    + intros x Hx Hx'. apply list_elem_of_singleton in Hx'. subst. done.
    + apply NoDup_singleton.
  - rewrite index_of_set_callback.
    destruct (decide (g = g0)) as [->|Hne].
    + case_bool_decide as Hin.
      * intros Hi. apply Hmem in Hi as [Hi|[-> Hi]]; [left; done|].
        right. split; [done|]. apply elem_of_app. left; done.
      * rewrite elem_of_app, list_elem_of_singleton.
        intros [Hi| ->].
        -- apply Hmem in Hi as [Hi|[-> Hi]]; [left; done|].
           right. split; [done|]. apply elem_of_app. left; done.
        -- right. split; [done|]. apply elem_of_app. right. apply list_elem_of_singleton. done.
    + intros Hi. apply Hmem in Hi as [Hi|[-> Hi]]; [left; done|].
      right. split; [done|]. apply elem_of_app. left; done.
  - rewrite index_of_set_callback.
    destruct (decide (g = g0)) as [->|Hne].
    + intros [Hi|[-> Hi]].
      * case_bool_decide as Hin; [apply Hmem; left; done|].
        apply elem_of_app. left. apply Hmem. left; done.
      * case_bool_decide as Hin; [done|].
        apply elem_of_app. right. apply list_elem_of_singleton. done.
    + intros [Hi|[-> Hi]]; [apply Hmem; left; done|].
      apply Hmem. right. split; [done|].
      apply elem_of_app in Hi as [Hi|Hi]; [done|].
      apply list_elem_of_singleton in Hi. congruence.
Qed.

Lemma set_fold_inv st0 w todo : ∀ seen st,
  length (word_trigram_count st0) = length (words st0) →
  set_inv st0 w seen st →
  set_inv st0 w (seen ++ todo) (foldl (set_callback (length (words st0))) st todo).
Proof.
  induction todo as [|g todo IH]; intros seen st Hlen Hinv; simpl.
  - rewrite app_nil_r. exact Hinv.
  - replace (seen ++ g :: todo) with ((seen ++ [g]) ++ todo)
      by (rewrite <- app_assoc; reflexivity).
    apply IH; [exact Hlen|]. apply set_callback_inv; assumption.
Qed.

Lemma wf_init : wf init.
Proof.
  unfold wf, index_of; simpl. repeat split; try done.
  - intros g. rewrite lookup_empty. simpl. apply NoDup_nil_2.
  - rewrite lookup_empty. simpl. intros Hi. by apply not_elem_of_nil in Hi.
  - intros (w & Hw & _). done.
Qed.

Lemma wf_set st w : wf st → wf (set st w).
Proof.
  intros Hwf. unfold set.
  destruct (bool_decide (w = EmptyString) || bool_decide (w ∈ words st)) eqn:Hskip;
    [exact Hwf|].
  destruct Hwf as (Hl1 & Hl2 & Hnd & Hmem & Hcnt).
  set (st1 := mk (words st ++ [w]) (word_trigram_count st ++ [0]) (trigrams st)
                 (trigrams_count st ++ [0]) (trigrams_matches st)).
  assert (Hidx : length (words st1) - 1 = length (words st)).
  { subst st1; simpl. rewrite length_app. simpl. lia. }
  rewrite Hidx.
  assert (Hinv0 : set_inv st w [] st1).
  { subst st1. repeat split; simpl; try done.
    - intros Hi. left. by apply Hmem.
    - intros [Hi|[_ Hi]]; [by apply Hmem|]. by apply not_elem_of_nil in Hi. }
  pose proof (set_fold_inv st w (to_trigram w) [] st1 Hl1 Hinv0) as Hinv.
  simpl in Hinv. destruct Hinv as (Hw & Hc & Htc & Hnd' & Hmem').
  repeat split.
  - rewrite Hw, Hc, !length_app. simpl. lia.
  - rewrite Hw, Htc, !length_app. simpl. lia.
  - exact Hnd'.
  - intros Hi. apply Hmem' in Hi as [(v & Hv & Hg)|[-> Hg]].
    + exists v. split; [|done]. rewrite Hw. apply lookup_app_l_Some. done.
    + exists w. split; [|done]. rewrite Hw.
      rewrite lookup_app_r by lia. rewrite Nat.sub_diag. done.
  - intros (v & Hv & Hg). apply Hmem'. rewrite Hw in Hv.
    apply lookup_app_Some in Hv as [Hv|[Hge Hv]].
    + left. exists v. done.
    + right. apply list_lookup_singleton_Some in Hv as [Hz ->].
      split; [lia|done].
  - intros i v Hv. rewrite Hw in Hv. rewrite Hc.
    apply lookup_app_Some in Hv as [Hv|[Hge Hv]].
    + apply lookup_app_l_Some. by apply Hcnt.
    + apply list_lookup_singleton_Some in Hv as [Hz ->].
      rewrite lookup_app_r by lia.
      replace (i - length (word_trigram_count st)) with 0 by lia. done.
Qed.

Lemma wf_foldl_set inputs : ∀ st, wf st → wf (foldl set st inputs).
Proof.
  induction inputs as [|w inputs IH]; intros st Hwf; simpl; [done|].
  apply IH. by apply wf_set.
Qed.

Lemma wf_new inputs : wf (new inputs).
Proof. apply wf_foldl_set, wf_init. Qed.

(** One trigram of the candidate adds one match to each token of its
    index entry. *)
Lemma foldl_bump l : ∀ tc wm,
  NoDup l →
  length (foldl bump (tc, wm) l).1 = length tc
  ∧ ∀ i, (foldl bump (tc, wm) l).2 !! i
         = (λ m, m + (if bool_decide (i ∈ l) then 1 else 0)) <$> wm !! i.
Proof.
  induction l as [|j l IH]; intros tc wm Hnd; simpl.
  - split; [done|]. intros i. destruct (wm !! i); simpl; [f_equal; lia|done].
  - apply NoDup_cons in Hnd as [Hj Hnd].
    destruct (IH (incr j tc) (incr j wm) Hnd) as [Hlen Hlk].
    unfold bump at 2 4; simpl. split.
    + rewrite Hlen. unfold incr. apply length_alter.
    + intros i. rewrite Hlk. unfold incr.
      destruct (decide (i = j)) as [->|Hne].
      * rewrite list_lookup_alter_eq.
        rewrite (bool_decide_eq_false_2 _ Hj).
        rewrite bool_decide_eq_true_2 by apply list_elem_of_here.
        destruct (wm !! j); simpl; [f_equal; lia|done].
      * rewrite list_lookup_alter_ne by done.
        destruct (wm !! i); simpl; [|done]. f_equal.
        repeat case_bool_decide; try lia.
        -- exfalso. apply H0. by apply list_elem_of_further.
        -- exfalso. apply elem_of_cons in H0 as [?|?]; done.
Qed.

Lemma eval_callback_index st acc g :
  eval_callback (trigrams st) acc g = (foldl bump acc.1 (index_of st g), S acc.2).
Proof.
  unfold eval_callback, index_of. destruct (trigrams st !! g); simpl; [done|].
  by destruct acc as [[? ?] ?].
Qed.

Lemma foldl_eval_callback st cands : ∀ tc wm tm,
  (∀ g, NoDup (index_of st g)) →
  let r := foldl (eval_callback (trigrams st)) (tc, wm, tm) cands in
  length r.1.1 = length tc
  ∧ ∀ i, r.1.2 !! i
         = (λ m, m + length (List.filter (λ g, bool_decide (i ∈ index_of st g)) cands))
           <$> wm !! i.
Proof.
  induction cands as [|g cands IH]; intros tc wm tm Hnd; simpl.
  - split; [done|]. intros i. destruct (wm !! i); simpl; [f_equal; lia|done].
  - rewrite eval_callback_index. simpl.
    destruct (foldl_bump (index_of st g) tc wm (Hnd g)) as [Hlen Hlk].
    destruct (foldl bump (tc, wm) (index_of st g)) as [tc' wm'] eqn:Hb. simpl in *.
    destruct (IH tc' wm' (S tm) Hnd) as [Hlen' Hlk'].
    split; [congruence|].
    intros i. rewrite Hlk', Hlk.
    destruct (wm !! i); simpl; [|done]. f_equal.
    case_bool_decide; simpl; lia.
Qed.

Lemma lookup_replicate_zero n i : i < n → replicate n 0 !! i = Some 0.
Proof. intros Hi. by apply lookup_replicate_2. Qed.

(** The match counter of a stored token after the callback loop. *)
Lemma word_matches_spec st cand i w :
  wf st → words st !! i = Some w →
  (foldl (eval_callback (trigrams st))
         (trigrams_count st, replicate (length (words st)) 0, 0)
         (to_trigram cand)).1.2 !! i = Some (spec_matches w cand).
Proof.
  intros (Hl1 & Hl2 & Hnd & Hmem & Hcnt) Hw.
  destruct (foldl_eval_callback st (to_trigram cand) (trigrams_count st)
              (replicate (length (words st)) 0) 0 Hnd) as [_ Hlk].
  rewrite Hlk. rewrite lookup_replicate_zero by (eapply lookup_lt_Some; eauto).
  simpl. f_equal. unfold spec_matches. f_equal.
  apply List.filter_ext. intros g.
  apply bool_decide_ext. rewrite Hmem. split.
  - intros (v & Hv & Hg). congruence.
  - intros Hg. exists w. done.
Qed.

Lemma string_length_app a b :
  String.length (a +:+ b) = String.length a + String.length b.
Proof. induction a as [|c a IH]; simpl; [done|]. by rewrite IH. Qed.

(** Upper-casing goes code unit by code unit. *)
Lemma list_ascii_of_string_app a b :
  list_ascii_of_string (a +:+ b) = list_ascii_of_string a ++ list_ascii_of_string b.
Proof. induction a as [|c a IH]; simpl; [done|]. by rewrite IH. Qed.

Lemma toUpperCase_app a b :
  Utf16.toUpperCase (a +:+ b) = Utf16.toUpperCase a ++ Utf16.toUpperCase b.
Proof. unfold Utf16.toUpperCase. by rewrite list_ascii_of_string_app, flat_map_app. Qed.

Lemma upper_length c : 1 ≤ length (Utf16.upper c) ≤ 2.
Proof. unfold Utf16.upper. repeat case_match; simpl; lia. Qed.

Lemma toUpperCase_length w :
  String.length w ≤ length (Utf16.toUpperCase w) ≤ 2 * String.length w.
Proof.
  unfold Utf16.toUpperCase. induction w as [|c w IH]; simpl; [lia|].
  rewrite length_app. pose proof (upper_length c). lia.
Qed.

(** The padded, upper-cased token. *)
Lemma padded_length w :
  length (Utf16.toUpperCase ("  " +:+ w +:+ "  ")) = length (Utf16.toUpperCase w) + 4.
Proof. rewrite !toUpperCase_app, !length_app. simpl. lia. Qed.

Lemma window_length i (data : list nat) :
  i + 3 ≤ length data → length (Utf16.substring i (i + 3) data) = 3.
Proof.
  intros Hi. unfold Utf16.substring. rewrite length_take, length_drop. lia.
Qed.

Lemma windows_all_kept (data : list nat) :
  List.filter (λ trigram, length trigram =? 3)
    (map (λ i, Utf16.substring i (i + 3) data) (seq 0 (length data - 2)))
  = map (λ i, Utf16.substring i (i + 3) data) (seq 0 (length data - 2)).
Proof.
  apply List.forallb_filter_id, forallb_forall. intros g Hg.
  apply in_map_iff in Hg as (i & <- & Hi). apply in_seq in Hi.
  apply Nat.eqb_eq, window_length. lia.
Qed.

(** A token has two trigrams more than its upper-cased form has code
    units. *)
Lemma trigram_count_length w :
  trigram_count w = length (Utf16.toUpperCase w) + 2.
Proof.
  unfold trigram_count, to_trigram. cbv zeta.
  rewrite windows_all_kept, length_map, length_seq, padded_length. lia.
Qed.

Lemma trigram_count_pos w : 0 < trigram_count w.
Proof. rewrite trigram_count_length. lia. Qed.

Lemma trigram_count_bound w :
  (Z.of_nat (String.length w) < 2 ^ 32 → Z.of_nat (trigram_count w) < 2 ^ 53)%Z.
Proof.
  intros Hw. rewrite trigram_count_length.
  pose proof (toUpperCase_length w). lia.
Qed.

(** Scoring a token against itself: every trigram matches. *)
Lemma spec_matches_self w : spec_matches w w = trigram_count w.
Proof.
  unfold spec_matches, trigram_count. f_equal.
  apply List.forallb_filter_id. apply forallb_forall. intros g Hg.
  apply bool_decide_eq_true. by apply list_elem_of_In.
Qed.

(** All the trigrams of a token matched: the percentage is 100. *)
Lemma percentage_full c :
  0 < c → (Z.of_nat c < 2 ^ 53)%Z → percentage c c = Float64.of_Z 100.
Proof.
  intros Hc Hb. unfold percentage, Float64.of_nat.
  destruct (Z.of_nat c) as [|p|p] eqn:Hz; try lia.
  destruct (of_Z_pos_canonical p Hb) as (m & e & -> & _).
  rewrite div_self. vm_compute. reflexivity.
Qed.

Lemma similarity_full c :
  0 < c → (Z.of_nat c < 2 ^ 53)%Z →
  similarity_of c c = "100%" ∧ reaches_threshold c c = true.
Proof.
  intros Hc Hb. unfold similarity_of, reaches_threshold.
  rewrite percentage_full by done. split; vm_compute; reflexivity.
Qed.

(** The final loop of [eval] visits the stored tokens in order. *)
Lemma flat_map_seq_lookup {A B} (f : A → list B) (g : nat → list B) (l : list A) :
  ∀ k, (∀ i x, l !! i = Some x → g (k + i) = f x) →
       flat_map g (seq k (length l)) = flat_map f l.
Proof.
  induction l as [|x l IH]; intros k Hg; simpl; [done|].
  rewrite <- (Hg 0 x eq_refl), Nat.add_0_r. f_equal.
  apply IH. intros i y Hy. rewrite <- (Hg (S i) y Hy). f_equal. lia.
Qed.

(** [insert_desc] and [sort_desc]: a sorted rearrangement. *)
Lemma insert_desc_perm e l : insert_desc e l ≡ₚ e :: l.
Proof.
  induction l as [|x l IH]; simpl; [done|].
  destruct (matches x <=? matches e); [done|].
  rewrite IH. apply perm_swap.
Qed.

Lemma sort_desc_perm l : sort_desc l ≡ₚ l.
Proof.
  induction l as [|x l IH]; simpl; [done|].
  rewrite insert_desc_perm. by rewrite IH.
Qed.

Lemma insert_desc_sorted e l :
  StronglySorted desc l → StronglySorted desc (insert_desc e l).
Proof.
  induction l as [|x l IH]; intros Hs; simpl.
  - constructor; [constructor|constructor].
  - apply StronglySorted_inv in Hs as [Hs Hx].
    destruct (matches x <=? matches e) eqn:Hlt.
    + apply Nat.leb_le in Hlt. constructor.
      * constructor; assumption.
      * constructor; [unfold desc; lia|].
        eapply Forall_impl; [exact Hx|]. unfold desc. intros; simpl in *; lia.
    + apply Nat.leb_gt in Hlt. constructor; [by apply IH|].
      rewrite insert_desc_perm. constructor; [unfold desc; lia|done].
Qed.

Lemma sort_desc_sorted l : StronglySorted desc (sort_desc l).
Proof.
  induction l as [|x l IH]; simpl; [constructor|]. by apply insert_desc_sorted.
Qed.

(** The sort is stable: the entries of one match count keep their order. *)
Lemma insert_desc_stable k e l :
  StronglySorted desc l →
  List.filter (λ x, matches x =? k) (insert_desc e l)
  = List.filter (λ x, matches x =? k) (e :: l).
Proof.
  induction l as [|x l IH]; intros Hs; [done|].
  apply StronglySorted_inv in Hs as [Hs Hx].
  cbn [insert_desc]. destruct (matches x <=? matches e) eqn:Hle; [done|].
  apply Nat.leb_gt in Hle.
  cbn [List.filter]. rewrite (IH Hs). cbn [List.filter].
  destruct (matches e =? k) eqn:He; [|done].
  apply Nat.eqb_eq in He.
  assert (Hxk : (matches x =? k) = false) by (apply Nat.eqb_neq; lia).
  by rewrite Hxk.
Qed.

Lemma sort_desc_stable k l :
  List.filter (λ x, matches x =? k) (sort_desc l) = List.filter (λ x, matches x =? k) l.
Proof.
  induction l as [|x l IH]; [done|].
  cbn [sort_desc foldr]. fold (sort_desc l).
  rewrite insert_desc_stable by apply sort_desc_sorted.
  cbn [List.filter]. by rewrite IH.
Qed.

(** [eval] on a well-formed instance: the sorted list of expected entries. *)
Lemma eval_expected st cand :
  wf st → (eval cand st).1 = sort_desc (expected cand (words st)).
Proof.
  intros Hwf. unfold eval.
  pose proof (λ i w, word_matches_spec st cand i w Hwf) as Hwm.
  destruct Hwf as (Hl1 & Hl2 & Hnd & Hmem & Hcnt).
  destruct (foldl_eval_callback st (to_trigram cand) (trigrams_count st)
              (replicate (length (words st)) 0) 0 Hnd) as [Hlen _].
  destruct (foldl (eval_callback (trigrams st))
              (trigrams_count st, replicate (length (words st)) 0, 0)
              (to_trigram cand)) as [[tc wm] tm] eqn:Hf.
  simpl in *. f_equal. rewrite Hlen, Hl2.
  unfold expected. apply (flat_map_seq_lookup _ _ (words st) 0).
  intros i w Hw. simpl. unfold collect.
  rewrite (Hcnt i w Hw), Hw, (Hwm i w Hw). reflexivity.
Qed.

(** The windows of [__to_trigram], by position. *)
Lemma to_trigram_lookup w k :
  k < trigram_count w →
  to_trigram w !! k
  = Some (Utf16.substring k (k + 3) (Utf16.toUpperCase ("  " +:+ w +:+ "  "))).
Proof.
  intros Hk. rewrite trigram_count_length in Hk.
  unfold to_trigram. cbv zeta.
  rewrite windows_all_kept, list_lookup_fmap, lookup_seq_lt; [done|].
  rewrite padded_length. lia.
Qed.

(** The index holds the position of a stored token under each of its
    trigrams. *)
Lemma index_complete inputs i w g :
  words (new inputs) !! i = Some w →
  g ∈ to_trigram w →
  ∃ l, trigrams (new inputs) !! g = Some l ∧ i ∈ l.
Proof.
  intros Hw Hg. destruct (wf_new inputs) as (_ & _ & _ & Hmem & _).
  assert (Hi : i ∈ index_of (new inputs) g) by (apply Hmem; eauto).
  unfold index_of in Hi. destruct (trigrams (new inputs) !! g) as [l|]; simpl in Hi.
  - eauto.
  - by apply not_elem_of_nil in Hi.
Qed.

(** The stored vocabulary: the non-empty inputs, without repetition. *)
Lemma words_set st w v :
  v ∈ words (set st w) ↔ v ∈ words st ∨ (v = w ∧ w ≠ EmptyString).
Proof.
  unfold set.
  destruct (bool_decide (w = EmptyString)) eqn:He; simpl.
  - apply bool_decide_eq_true in He. naive_solver.
  - apply bool_decide_eq_false in He.
    destruct (bool_decide (w ∈ words st)) eqn:Hin.
    + apply bool_decide_eq_true in Hin. naive_solver.
    + set (st1 := mk _ _ _ _ _).
      assert (Hw : ∀ l st', words (foldl (set_callback (length (words st1) - 1)) st' l)
                           = words st').
      { induction l as [|g l IH]; intros st'; simpl; [done|]. by rewrite IH. }
      rewrite Hw. subst st1; simpl. rewrite elem_of_app, list_elem_of_singleton.
      naive_solver.
Qed.

Lemma words_foldl_set inputs : ∀ st v,
  v ∈ words (foldl set st inputs) ↔ v ∈ words st ∨ (v ∈ inputs ∧ v ≠ EmptyString).
Proof.
  induction inputs as [|w inputs IH]; intros st v; simpl.
  - split; [by left|]. intros [?|[Hv _]]; [done|]. by apply not_elem_of_nil in Hv.
  - rewrite IH, words_set, elem_of_cons. naive_solver.
Qed.

Lemma words_new inputs v :
  v ∈ words (new inputs) ↔ v ∈ inputs ∧ v ≠ EmptyString.
Proof.
  unfold new. rewrite words_foldl_set. simpl. rewrite elem_of_nil. naive_solver.
Qed.

Lemma elem_of_expected cand vocabulary e :
  e ∈ expected cand vocabulary ↔
  ∃ w, w ∈ vocabulary
       ∧ reaches_threshold (spec_matches w cand) (trigram_count w) = true
       ∧ e = spec_entry cand w.
Proof.
  unfold expected. rewrite list_elem_of_In, in_flat_map. split.
  - intros (w & Hw & He). exists w. apply list_elem_of_In in Hw.
    destruct (reaches_threshold (spec_matches w cand) (trigram_count w)) eqn:Hle.
    + destruct He as [<-|[]]. done.
    + destruct He.
  - intros (w & Hw & Hle & ->). exists w. split; [by apply list_elem_of_In|].
    rewrite Hle. by left.
Qed.

End CompareFacts.

(** C4, as stated, fails: a token of 33 code units has 35 trigrams; a
    candidate made of its first 17 code units matches 17 of them.  The
    quotient 17/35*100 is 48.57..., which rounds to 49, and [eval] does not
    report the token. *)
Lemma compare_rounded_threshold_counterexample :
  let st := Compare.new [long_token] in
  let cand := "ABCDEFGHIJKLMNOPQ" in
  Compare.words st = [long_token]
  ∧ Compare.trigram_count long_token = 35
  ∧ Compare.spec_matches long_token cand = 17
  ∧ Compare.similarity_of 17 35 = "49%"
  ∧ (Compare.eval cand st).1 = [].
Proof. vm_compute. repeat split; congruence. Qed.

(** C4 (amended).  For every vocabulary and candidate, [eval] returns exactly
    the stored tokens whose quotient matches / total trigrams * 100, taken
    in double precision and before rounding, is at least 49, each with its
    match count and with the rounded quotient as similarity.  The result is
    sorted by descending match count, and the sort is stable: the tokens of
    one match count are in vocabulary order.  Scoring a stored token (of
    fewer than 2^32 code units, as every string of an engine is) against
    the vocabulary reports it with 100%. *)
Theorem compare_eval_threshold_sorted (inputs : list string) (cand : string) :
  let st := Compare.new inputs in
  let result := (Compare.eval cand st).1 in
  result ≡ₚ Compare.expected cand (Compare.words st)
  ∧ (∀ e, e ∈ result ↔
          ∃ w, w ∈ Compare.words st
               ∧ Float64.leb (Float64.of_Z 49)
                   (Compare.percentage (Compare.spec_matches w cand)
                                       (Compare.trigram_count w)) = true
               ∧ e = Compare.mk_entry w (Compare.spec_matches w cand)
                       (Compare.similarity_of (Compare.spec_matches w cand)
                                              (Compare.trigram_count w)))
  ∧ StronglySorted (λ a b, Compare.matches b ≤ Compare.matches a) result
  ∧ (∀ k, List.filter (λ e, Compare.matches e =? k) result
          = List.filter (λ e, Compare.matches e =? k)
              (Compare.expected cand (Compare.words st)))
  ∧ (∀ w, w ∈ Compare.words st → (Z.of_nat (String.length w) < 2 ^ 32)%Z →
          Compare.mk_entry w (Compare.trigram_count w) "100%" ∈ (Compare.eval w st).1).
Proof.
  intros st result. subst st result.
  pose proof (wf_new inputs) as Hwf.
  rewrite (eval_expected _ cand Hwf).
  split; [apply sort_desc_perm|]. split; [|split; [|split]].
  - intros e. rewrite sort_desc_perm. apply elem_of_expected.
  - apply sort_desc_sorted.
  - intros k. apply sort_desc_stable.
  - intros w Hw Hlen. rewrite (eval_expected _ w Hwf), sort_desc_perm.
    apply elem_of_expected. exists w. split; [done|].
    pose proof (trigram_count_bound w Hlen) as Hb.
    destruct (similarity_full _ (trigram_count_pos w) Hb) as [Hsim Hreach].
    rewrite spec_matches_self. split; [done|].
    unfold Compare.spec_entry. rewrite spec_matches_self, Hsim. reflexivity.
Qed.

(** C5.  For every vocabulary build and every stored token, each window of
    three code units of the token, padded with two spaces on either side and
    upper-cased, is a key of the index, and the token's position is in the
    entry of that key.  The windows are those of the upper-cased text, in
    which sharp s has become "SS"; the first two and the last two hold the
    padding. *)
Theorem compare_index_round_trip (inputs : list string) (i : nat) (w : string) (k : nat) :
  Compare.words (Compare.new inputs) !! i = Some w →
  k < length (Utf16.toUpperCase ("  " +:+ w +:+ "  ")) - 2 →
  ∃ l, Compare.trigrams (Compare.new inputs)
         !! Utf16.substring k (k + 3) (Utf16.toUpperCase ("  " +:+ w +:+ "  "))
       = Some l
       ∧ i ∈ l.
Proof.
  intros Hw Hk. apply (index_complete inputs i w); [done|].
  apply list_elem_of_lookup. exists k. apply to_trigram_lookup.
  rewrite trigram_count_length. rewrite padded_length in Hk. lia.
Qed.

Lemma compare_index_round_trip_witness :
  ∃ l, Compare.trigrams (Compare.new ["AUTHOR"; sharp_s_token])
         !! Utf16.of_string "E  " = Some l
       ∧ 1 ∈ l.
Proof.
  apply (compare_index_round_trip ["AUTHOR"; sharp_s_token] 1 sharp_s_token 8).
  - reflexivity.
  - vm_compute. lia.
Defined.


(** ** The field extractor *)

(** C1.  For every instance, when [get_scraper_api_response] returns a
    record, its status is "Done" exactly when its content is a non-empty
    string, and "Error" otherwise; in particular a null content gives
    "Error". *)
Theorem status_done_iff_content (self : NewsExtract.t) (data : NewsExtract.NewsExtractData) :
  NewsExtract.get_scraper_api_response self = NewsExtract.Ok data →
  (NewsExtract.article_status data = "Done"
   ↔ ∃ c, NewsExtract.article_content data = Some c ∧ c ≠ EmptyString)
  ∧ (NewsExtract.article_status data = "Done" ∨ NewsExtract.article_status data = "Error")
  ∧ (NewsExtract.article_content data = None → NewsExtract.article_status data = "Error").
Proof.
  unfold NewsExtract.get_scraper_api_response.
  destruct (NewsExtract.scraped self); simpl; [|discriminate].
  intros [= <-]; simpl.
  destruct (NewsExtract.content self) as [c|]; simpl.
  - unfold JsString.truthy. destruct (String.eqb_spec c EmptyString) as [->|Hne]; simpl.
    + split; [|split]; [|by right|discriminate].
      split; [discriminate|]. intros (c' & [= <-] & Hc). done.
    + split; [|split]; [|by left|discriminate].
      split; [|done]. intros _. exists c. done.
  - split; [|split]; [|by right|done].
    split; [discriminate|]. intros (c' & Hc & _). discriminate.
Qed.

Lemma status_done_iff_content_witness :
  (NewsExtract.article_status sample_data = "Done"
   ↔ ∃ c, NewsExtract.article_content sample_data = Some c ∧ c ≠ EmptyString)
  ∧ (NewsExtract.article_status sample_data = "Done"
     ∨ NewsExtract.article_status sample_data = "Error")
  ∧ (NewsExtract.article_content sample_data = None
     → NewsExtract.article_status sample_data = "Error").
Proof.
  apply (status_done_iff_content sample_instance sample_data).
  vm_compute. reflexivity.
Defined.

(** C2.  When the metadata published time parses to a date and a date is
    found in the URL, [__get_publish_date] returns the URL date if the first
    ten code units of the two ISO texts differ, and the metadata date
    otherwise. *)
Theorem publish_date_conflict_rule `{JsDate} (url page_source : string)
    (article : option NewsExtract.Article) (d : date) (u : string) :
  NewsExtract.article_date article = Some d →
  NewsExtract.extract_date_via_url url = Some u →
  (JsString.substring 0 10 u ≠ JsString.substring 0 10 (toISOString d) →
   NewsExtract.get_publish_date url article page_source = Some u)
  ∧ (JsString.substring 0 10 u = JsString.substring 0 10 (toISOString d) →
     NewsExtract.get_publish_date url article page_source = Some (toISOString d)).
Proof.
  intros Hd Hu. unfold NewsExtract.get_publish_date. rewrite Hd, Hu.
  destruct (String.eqb_spec (JsString.substring 0 10 u)
              (JsString.substring 0 10 (toISOString d))) as [Heq|Hne]; simpl.
  - split; [intros Hn; done|done].
  - split; [done|intros He; done].
Qed.

(** The instance named by C2: metadata date 2024-01-05T00:00:00Z, URL date
    2024-01-06; the result is the URL date. *)
Lemma publish_date_conflict_rule_witness :
  NewsExtract.get_publish_date (H := UtcDate.utc_date)
    "https://example.com/2024-01-06/story" (Some (dated_article "2024-01-05T00:00:00Z"))
    "<html></html>"
  = Some "2024-01-06T00:00:00.000Z".
Proof.
  apply (publish_date_conflict_rule (H := UtcDate.utc_date)
           "https://example.com/2024-01-06/story" "<html></html>"
           (Some (dated_article "2024-01-05T00:00:00Z"))
           "2024-01-05T00:00:00.000Z" "2024-01-06T00:00:00.000Z").
  - vm_compute. reflexivity.
  - vm_compute. reflexivity.
  - vm_compute. discriminate.
Defined.

Example publish_date_same_day_example :
  NewsExtract.get_publish_date (H := UtcDate.utc_date)
    "https://example.com/2024/01/05/story" (Some (dated_article "2024-01-05T09:30:00Z"))
    "<html></html>"
  = Some "2024-01-05T09:30:00.000Z".
Proof. vm_compute. reflexivity. Qed.

(** The URLs among the values of a top-image array that start with "http". *)
Lemma http_urls_of_strings (urls : list string) :
  omap (λ image, match image with
                 | NewsExtract.JsStr s =>
                     if JsString.startsWith "http" s then Some s else None
                 | NewsExtract.JsOther => None
                 end) (map NewsExtract.JsStr urls)
  = List.filter (JsString.startsWith "http") urls.
Proof.
  induction urls as [|u urls IH]; simpl; [done|].
  unfold omap in *. simpl.
  destruct (JsString.startsWith "http" u); simpl; by rewrite IH.
Qed.

(** C3.  The images are the top-image URLs that start with "http", in
    order; when the first of them matches logo, favicon, icon or pdf in any
    letter case, the whole list is empty.  This holds for a top image given
    as an array of URLs and for one given as a single URL.  The list of the
    claim yields the empty list. *)
Theorem images_first_url_rule (urls : list string) (url : string) :
  let rule kept :=
    match kept with
    | [] => []
    | first :: _ =>
        if Regex.test (Regex.lit "logo|favicon|icon|pdf" "i") first then [] else kept
    end in
  NewsExtract.get_images (Some (article_with_images urls))
  = rule (List.filter (JsString.startsWith "http") urls)
  ∧ NewsExtract.get_images (Some (article_with_image url))
    = rule (List.filter (JsString.startsWith "http") [url])
  ∧ NewsExtract.get_images
      (Some (article_with_images ["https://cdn.x/logo.png"; "https://cdn.x/photo.jpg"]))
    = [].
Proof.
  simpl. split; [|split; [|vm_compute; reflexivity]].
  - unfold NewsExtract.get_images, article_with_images. simpl.
    rewrite http_urls_of_strings.
    destruct urls as [|u urls]; simpl; [done|]. reflexivity.
  - destruct url as [|c r]; [reflexivity|].
    assert (Ht : JsString.truthy (String c r) = true) by reflexivity.
    remember (String c r) as s eqn:Hs. clear Hs.
    unfold NewsExtract.get_images, article_with_image.
    cbn [NewsExtract.a_top_image]. rewrite Ht.
    cbn [length Nat.ltb Nat.leb List.filter].
    unfold omap; cbn [list_omap].
    destruct (JsString.startsWith "http" s); reflexivity.
Qed.

Example images_kept_example :
  NewsExtract.get_images
    (Some (article_with_images ["/local.png"; "https://cdn.x/photo.jpg"; "https://cdn.x/logo.png"]))
  = ["https://cdn.x/photo.jpg"; "https://cdn.x/logo.png"].
Proof. vm_compute. reflexivity. Qed.


(** ** Content scoring *)

Section ScoreFacts.

Import GeneralParser.

(** A [forEach] that adds [a] for each keyword found adds [a] times the
    number of keywords found. *)
Lemma foldl_bonus (P : string → bool) (a : Z) (l : list string) : ∀ s0 : Z,
  foldl (λ score keyword, if P keyword then (score + a)%Z else score) s0 l
  = (s0 + a * Z.of_nat (length (List.filter P l)))%Z.
Proof.
  induction l as [|k l IH]; intros s0; cbn [foldl List.filter].
  - simpl. lia.
  - rewrite IH. destruct (P k); cbn [length]; lia.
Qed.

(** The integer part of the score. *)
Lemma score_before_penalty (cls text : string) (paragraphs : nat) :
  foldl (λ score keyword,
           if JsString.includes keyword cls then (score - 200)%Z else score)
    (foldl (λ score keyword,
              if JsString.includes keyword cls then (score + 100)%Z else score)
       (Z.of_nat (String.length text) + Z.of_nat paragraphs * 50)%Z
       contentKeywords)
    navKeywords
  = (Z.of_nat (String.length text) + 50 * Z.of_nat paragraphs
     + 100 * Z.of_nat (length (List.filter (λ k, JsString.includes k cls) contentKeywords))
     - 200 * Z.of_nat (length (List.filter (λ k, JsString.includes k cls) navKeywords)))%Z.
Proof.
  change (λ (score : Z) (keyword : string),
            if JsString.includes keyword cls then (score - 200)%Z else score)
    with (λ (score : Z) (keyword : string),
            if JsString.includes keyword cls then (score + -200)%Z else score).
  rewrite (foldl_bonus (λ k, JsString.includes k cls) (-200) navKeywords).
  rewrite (foldl_bonus (λ k, JsString.includes k cls) 100 contentKeywords).
  lia.
Qed.

End ScoreFacts.

(** C6, as stated, fails: an element whose id, and not its class, holds the
    keyword "content" gets no bonus. *)
Lemma content_score_id_counterexample :
  let element :=
    GeneralParser.Element "div" None (Some "content") [GeneralParser.Text "hello"] in
  GeneralParser.calculateContentScore element "hello" = Float64.of_Z 5
  ∧ GeneralParser.spec_score element "hello" = Float64.of_Z 105
  ∧ GeneralParser.calculateContentScore element "hello"
    ≠ GeneralParser.spec_score element "hello".
Proof. vm_compute. repeat split; try reflexivity. discriminate. Qed.

(** C6 (amended).  For every candidate element, the content score is the
    text length, plus 50 per descendant paragraph, plus 100 per content
    keyword occurring in the lower-cased class, minus 200 per noise keyword
    occurring in the lower-cased class; when the quotient link_count /
    max(len(text)/100, 1) exceeds 0.3, that quotient times 100 is
    subtracted; the result is floored at 0.  The quotient, its product by
    100 and the subtraction are in double precision, in this order.  The
    id is not consulted. *)
Theorem content_score_formula (element : GeneralParser.node) (text : string) :
  let len := String.length text in
  let links := length (GeneralParser.querySelectorAll "a" element) in
  let found keywords :=
    Z.of_nat
      (length (List.filter
                 (λ keyword, JsString.includes keyword
                               (JsString.toLowerCase (GeneralParser.className element)))
                 keywords)) in
  let base :=
    (Z.of_nat len
     + 50 * Z.of_nat (length (GeneralParser.querySelectorAll "p" element))
     + 100 * found GeneralParser.contentKeywords
     - 200 * found GeneralParser.navKeywords)%Z in
  let density :=
    Float64.div (Float64.of_nat links)
      (Float64.max (Float64.div (Float64.of_nat len) (Float64.of_Z 100))
                   (Float64.of_Z 1)) in
  GeneralParser.calculateContentScore element text
  = Float64.max (Float64.of_Z 0)
      (if Float64.ltb (Float64.div (Float64.of_Z 3) (Float64.of_Z 10)) density
       then Float64.sub (Float64.of_Z base) (Float64.mul density (Float64.of_Z 100))
       else Float64.of_Z base).
Proof.
  cbv zeta. unfold GeneralParser.calculateContentScore. cbv zeta.
  rewrite score_before_penalty. reflexivity.
Qed.

Example content_score_example :
  GeneralParser.calculateContentScore
    (GeneralParser.Element "div" (Some "Article-Body sidebar") None
       [GeneralParser.Element "p" None None [GeneralParser.Text "one"];
        GeneralParser.Element "p" None None
          [GeneralParser.Element "a" None None [GeneralParser.Text "two"]]])
    "onetwo"
  = Float64.of_Z (6 + 100 + 200 - 200 - 100).
Proof. vm_compute. reflexivity. Qed.

(** In double precision the order of the operations counts: with one link
    in a text of 103 code units the code subtracts (1/1.03)*100 and returns
    5.912621359223294, where 103 - (100*1)/1.03 is 5.912621359223309. *)
Example content_score_rounding_example :
  let text := string_of_list_ascii (replicate 103 "a"%char) in
  let element :=
    GeneralParser.Element "div" None None
      [GeneralParser.Element "a" None None []; GeneralParser.Text text] in
  GeneralParser.calculateContentScore element text
  = S754_finite false 6657019837545216 (-50)
  ∧ GeneralParser.spec_score element text = S754_finite false 6657019837545232 (-50).
Proof. vm_compute. split; reflexivity. Qed.


(** ** The noise cleaning pass *)

(** C7, as stated, fails: removing the inner "Soybean" from
    "SoySoybeanbean" leaves a new "Soybean", which a second pass removes. *)
Lemma clean_not_idempotent_counterexample :
  let x := "The farmer sold SoySoybeanbean at the market" in
  NoiseFilter.clean_extracted_content x = "The farmer sold Soybean at the market"
  ∧ NoiseFilter.clean_extracted_content (NoiseFilter.clean_extracted_content x)
    = "The farmer sold at the market"
  ∧ NoiseFilter.clean_extracted_content (NoiseFilter.clean_extracted_content x)
    ≠ NoiseFilter.clean_extracted_content x.
Proof. vm_compute. repeat split; try reflexivity. discriminate. Qed.

(** A second way to fail: the pass joins the lines it keeps with spaces, so
    a brace pair split over two lines passes the line filter once and is
    dropped as one line by the next pass. *)
Example clean_joined_lines_example :
  let x := "{ the opening brace comes first" +:+ nl +:+ "and the closing one comes later }" in
  NoiseFilter.clean_extracted_content x
  = "{ the opening brace comes first and the closing one comes later }"
  ∧ NoiseFilter.clean_extracted_content (NoiseFilter.clean_extracted_content x)
    = EmptyString.
Proof. vm_compute. split; reflexivity. Qed.

Section CleanFacts.

Import Regex NoiseFilter.

Lemma string_of_list_of_string s : string_of_list_ascii (list_ascii_of_string s) = s.
Proof. apply string_of_list_ascii_of_string. Qed.

(** A pattern without a match leaves the text as it is. *)
Lemma replace_loop_no_match fl r by_ : ∀ n prev s,
  search fl r prev s = None → replace_loop n fl r by_ prev s = s.
Proof.
  induction n as [|n IH]; intros prev s Hs; simpl; [done|].
  destruct s as [|x s]; simpl in Hs.
  - destruct (match_here fl r prev []) as [[m rest]|]; [discriminate|done].
  - destruct (match_here fl r prev (x :: s)) as [[m rest]|]; [discriminate|].
    destruct (search fl r (Some x) s) as [[[sk m] rest]|] eqn:Hs'; [discriminate|].
    by rewrite IH.
Qed.

Lemma replace_no_match p by_ text :
  fl_g (parse_flags (lit_flags p)) = true →
  test p text = false → replace p by_ text = text.
Proof.
  intros Hg Ht. unfold replace. rewrite Hg.
  rewrite replace_loop_no_match; [apply string_of_list_of_string|].
  unfold test, first_match in Ht.
  destruct (search _ _ None _) as [[[sk m] rest]|]; [|done].
  apply bool_decide_eq_false in Ht. exfalso. apply Ht. eauto.
Qed.

Lemma strip_all_no_match patterns text :
  forallb (λ p, fl_g (parse_flags (lit_flags p))) patterns = true →
  forallb (λ p, negb (test p text)) patterns = true →
  strip_all patterns text = text.
Proof.
  unfold strip_all. induction patterns as [|p ps IH]; simpl; [done|].
  intros [Hg Hgs]%andb_prop [Ht Hts]%andb_prop.
  apply negb_true_iff in Ht. rewrite replace_no_match by done. by apply IH.
Qed.

Lemma patterns_global :
  forallb (λ p, fl_g (parse_flags (lit_flags p))) (pre_passes ++ unwantedPatterns) = true.
Proof. vm_compute. reflexivity. Qed.

Lemma single_spaced_tail c l : single_spaced (c :: l) = true → single_spaced l = true.
Proof.
  simpl. destruct (JsString.is_space c); [|done].
  destruct l as [|c' l]; [by rewrite andb_false_r|].
  intros [_ [_ H]%andb_prop]%andb_prop. exact H.
Qed.

Lemma single_spaced_space c l :
  single_spaced (c :: l) = true → JsString.is_space c = true →
  JsString.code c = 32 ∧ ∃ c' l', l = c' :: l' ∧ JsString.is_space c' = false.
Proof.
  simpl. intros H Hc. rewrite Hc in H.
  destruct l as [|c' l']; [by rewrite andb_false_r in H|].
  apply andb_prop in H as [H1 [H2 _]%andb_prop].
  apply Nat.eqb_eq in H1. apply negb_true_iff in H2. eauto.
Qed.

Lemma is_space_lf c : Ascii.eqb c LF = true → JsString.is_space c = true ∧ JsString.code c ≠ 32.
Proof. intros ->%Ascii.eqb_eq. by vm_compute. Qed.

(** Normalised text is a single line. *)
Lemma split_single_spaced text :
  single_spaced (list_ascii_of_string text) = true →
  JsString.split_on LF text = [text].
Proof.
  induction text as [|c r IH]; simpl; [done|]. intros H.
  destruct (Ascii.eqb c LF) eqn:Hc.
  - apply is_space_lf in Hc as [Hsp Hne].
    destruct (single_spaced_space _ _ H Hsp) as [Hcode _]. done.
  - rewrite IH; [done|]. by eapply single_spaced_tail.
Qed.

Lemma last_single_spaced l c :
  single_spaced l = true → last l = Some c → JsString.is_space c = false.
Proof.
  induction l as [|x l IH]; intros H Hl; [discriminate|].
  destruct l as [|y l].
  - injection Hl as ->. destruct (JsString.is_space c) eqn:Hc; [|done].
    destruct (single_spaced_space _ _ H Hc) as (_ & c' & l' & Hnil & _). discriminate.
  - apply IH; [by eapply single_spaced_tail|]. exact Hl.
Qed.

Lemma trim_left_id c l : JsString.is_space c = false → JsString.trim_left (c :: l) = c :: l.
Proof. intros H. simpl. by rewrite H. Qed.

Lemma trim_normalised text : normalised text = true → JsString.trim text = text.
Proof.
  unfold normalised, JsString.trim.
  destruct (list_ascii_of_string text) as [|c l] eqn:Hl.
  - intros _. simpl. rewrite <- (string_of_list_of_string text), Hl. reflexivity.
  - intros [Hc Hs]%andb_prop. apply negb_true_iff in Hc.
    rewrite trim_left_id by done.
    destruct (reverse (c :: l)) as [|z rl] eqn:Hr.
    { apply (f_equal length) in Hr. rewrite length_reverse in Hr. discriminate. }
    assert (Hz : JsString.is_space z = false).
    { apply (last_single_spaced (c :: l)); [done|].
      rewrite <- (reverse_involutive (c :: l)), Hr.
      rewrite reverse_cons. apply last_snoc. }
    rewrite trim_left_id by done. rewrite <- Hr, reverse_involutive, <- Hl.
    apply string_of_list_of_string.
Qed.

Lemma compile_ws_plus : compile (lit "\s+" "g") = Seq (Seq ws (Star ws)) Eps.
Proof. vm_compute. reflexivity. Qed.

Lemma compile_blank_line :
  compile (lit "\n\s*\n" "g") = Seq (Chr LF) (Seq (Star ws) (Seq (Chr LF) Eps)).
Proof. vm_compute. reflexivity. Qed.

Lemma run_ws fl prev c s k :
  run fl ws prev (c :: s) k = if JsString.is_space c then k (Some c) s else None.
Proof. simpl. destruct (JsString.is_space c); reflexivity. Qed.

(** The white-space pattern at a code unit that is not white space, and at
    a single space. *)
Lemma ws_plus_here_other fl prev c s :
  JsString.is_space c = false →
  match_here fl (Seq (Seq ws (Star ws)) Eps) prev (c :: s) = None.
Proof.
  intros Hc. unfold match_here.
  change (run fl (Seq (Seq ws (Star ws)) Eps) prev (c :: s) (λ _ s', Some s'))
    with (run fl ws prev (c :: s)
            (λ p1 s1, run fl (Star ws) p1 s1 (λ p' s', Some s'))).
  rewrite run_ws, Hc. reflexivity.
Qed.

Lemma ws_plus_here_space fl prev c c' s :
  JsString.is_space c = true → JsString.is_space c' = false →
  match_here fl (Seq (Seq ws (Star ws)) Eps) prev (c :: c' :: s) = Some ([c], c' :: s).
Proof.
  intros Hc Hc'. unfold match_here.
  change (run fl (Seq (Seq ws (Star ws)) Eps) prev (c :: c' :: s) (λ _ s', Some s'))
    with (run fl ws prev (c :: c' :: s)
            (λ p1 s1, run fl (Star ws) p1 s1 (λ p' s', Some s'))).
  rewrite run_ws, Hc.
  change (run fl (Star ws) (Some c) (c' :: s) (λ p' s', Some s'))
    with (match run fl ws (Some c) (c' :: s)
                  (λ p' s', if length s' <? length (c' :: s)
                            then (fix loop (n : nat) (prev : option ascii) (s : list ascii)
                                    {struct n} : option (list ascii) :=
                                    match n with
                                    | O => Some s
                                    | S n' =>
                                        match run fl ws prev s
                                                (λ p' s', if length s' <? length s
                                                          then loop n' p' s' else None) with
                                        | Some e => Some e
                                        | None => Some s
                                        end
                                    end) (length (c' :: s)) p' s'
                            else None) with
          | Some e => Some e
          | None => Some (c' :: s)
          end).
  rewrite run_ws, Hc'.
  replace (length (c :: c' :: s) - length (c' :: s)) with 1 by (simpl; lia).
  reflexivity.
Qed.

Lemma space_char c : JsString.code c = 32 → c = " "%char.
Proof.
  intros Hc. rewrite <- (ascii_nat_embedding c). unfold JsString.code in Hc.
  by rewrite Hc.
Qed.

(** Collapsing white space changes nothing in normalised text. *)
Lemma replace_ws_single_spaced fl : ∀ n prev l,
  single_spaced l = true →
  replace_loop n fl (Seq (Seq ws (Star ws)) Eps) [" "%char] prev l = l.
Proof.
  induction n as [|n IH]; intros prev l Hl; [done|].
  destruct l as [|c l]; [reflexivity|].
  cbn [replace_loop].
  destruct (JsString.is_space c) eqn:Hc.
  - destruct (single_spaced_space _ _ Hl Hc) as (Hcode & c' & l' & -> & Hc').
    rewrite ws_plus_here_space by done.
    apply space_char in Hcode. subst c. simpl. f_equal.
    apply IH. by eapply single_spaced_tail.
  - rewrite ws_plus_here_other by done. f_equal.
    apply IH. by eapply single_spaced_tail.
Qed.

Lemma not_lf c l : single_spaced (c :: l) = true → chr_eq c LF = false.
Proof.
  intros Hl. unfold chr_eq. apply Nat.eqb_neq.
  destruct (JsString.is_space c) eqn:Hc.
  - destruct (single_spaced_space _ _ Hl Hc) as [-> _]. by vm_compute.
  - intros Heq. unfold JsString.is_space in Hc. rewrite Heq in Hc. by vm_compute in Hc.
Qed.

Lemma blank_line_no_match fl : ∀ l prev,
  fl_i fl = false →
  single_spaced l = true →
  search fl (Seq (Chr LF) (Seq (Star ws) (Seq (Chr LF) Eps))) prev l = None.
Proof.
  induction l as [|c l IH]; intros prev Hi Hl; [reflexivity|].
  cbn [search]. unfold match_here.
  change (run fl (Seq (Chr LF) (Seq (Star ws) (Seq (Chr LF) Eps))) prev (c :: l)
            (λ _ s', Some s'))
    with (if (if fl_i fl then chr_eq (JsString.upper_ascii c) (JsString.upper_ascii LF)
              else chr_eq c LF)
          then run fl (Seq (Star ws) (Seq (Chr LF) Eps)) (Some c) l (λ _ s', Some s')
          else None).
  rewrite Hi, (not_lf c l Hl).
  rewrite IH; [reflexivity|done|]. by eapply single_spaced_tail.
Qed.

Lemma replace_global p by_ text :
  fl_g (parse_flags (lit_flags p)) = true →
  replace p by_ text
  = string_of_list_ascii
      (replace_loop (S (length (list_ascii_of_string text))) (parse_flags (lit_flags p))
         (compile p) (list_ascii_of_string by_) None (list_ascii_of_string text)).
Proof. intros Hg. unfold replace. rewrite Hg. reflexivity. Qed.

Lemma normalised_single_spaced text :
  normalised text = true → single_spaced (list_ascii_of_string text) = true.
Proof.
  unfold normalised. destruct (list_ascii_of_string text); [done|].
  by intros [_ ?]%andb_prop.
Qed.

(** Text whose white space is normalised passes the last three steps of the
    pass unchanged. *)
Lemma final_steps_normalised text :
  normalised text = true →
  JsString.trim
    (replace (lit "\n\s*\n" "g") nl (replace (lit "\s+" "g") " " text)) = text.
Proof.
  intros Hn. pose proof (normalised_single_spaced text Hn) as Hs.
  assert (H1 : replace (lit "\s+" "g") " " text = text).
  { rewrite replace_global by reflexivity. rewrite compile_ws_plus.
    change (list_ascii_of_string " ") with [" "%char].
    rewrite replace_ws_single_spaced by done. apply string_of_list_of_string. }
  rewrite H1.
  assert (H2 : replace (lit "\n\s*\n" "g") nl text = text).
  { rewrite replace_global by reflexivity. rewrite compile_blank_line.
    rewrite replace_loop_no_match; [apply string_of_list_of_string|].
    by apply blank_line_no_match. }
  rewrite H2. by apply trim_normalised.
Qed.

Lemma clean_unfold text :
  JsString.truthy text = true →
  clean_extracted_content text
  = JsString.trim
      (replace (lit "\n\s*\n" "g") nl
         (replace (lit "\s+" "g") " "
            (JsString.join nl
               (List.filter keep_line
                  (JsString.split_on LF
                     (strip_all unwantedPatterns (strip_all pre_passes text))))))).
Proof. intros Ht. unfold clean_extracted_content. rewrite Ht. reflexivity. Qed.

Lemma clean_empty : clean_extracted_content EmptyString = EmptyString.
Proof. reflexivity. Qed.

End CleanFacts.

(** C7 (amended).  The pass is idempotent on already-clean text: whenever
    the cleaned text is text that no removal pattern of the pass matches,
    that the line filter keeps and whose white space is single spaces between
    other code units, a second application returns it unchanged. *)
Theorem clean_idempotent_on_clean_text (x : string) :
  NoiseFilter.already_clean (NoiseFilter.clean_extracted_content x) = true →
  NoiseFilter.clean_extracted_content (NoiseFilter.clean_extracted_content x)
  = NoiseFilter.clean_extracted_content x.
Proof.
  set (text := NoiseFilter.clean_extracted_content x).
  unfold NoiseFilter.already_clean. intros [[Hn Hp]%andb_prop Hk]%andb_prop.
  destruct (JsString.truthy text) eqn:Ht.
  - rewrite clean_unfold by done.
    pose proof patterns_global as Hg.
    rewrite forallb_app in Hg, Hp.
    apply andb_prop in Hg as [Hg1 Hg2]. apply andb_prop in Hp as [Hp1 Hp2].
    rewrite (strip_all_no_match NoiseFilter.pre_passes) by done.
    rewrite (strip_all_no_match NoiseFilter.unwantedPatterns) by done.
    rewrite split_single_spaced by (by apply normalised_single_spaced).
    cbn [List.filter]. rewrite Hk. cbn [JsString.join].
    by apply final_steps_normalised.
  - unfold JsString.truthy in Ht. apply negb_false_iff in Ht.
    apply String.eqb_eq in Ht. rewrite Ht. apply clean_empty.
Qed.

Lemma clean_idempotent_on_clean_text_witness :
  let x := "  The quick   brown fox jumps over the lazy dog near the river bank  " in
  NoiseFilter.clean_extracted_content (NoiseFilter.clean_extracted_content x)
  = NoiseFilter.clean_extracted_content x.
Proof.
  apply (clean_idempotent_on_clean_text
           "  The quick   brown fox jumps over the lazy dog near the river bank  ").
  vm_compute. reflexivity.
Defined.

Example clean_normalises_example :
  NoiseFilter.clean_extracted_content
    "  The quick   brown fox jumps over the lazy dog near the river bank  "
  = "The quick brown fox jumps over the lazy dog near the river bank".
Proof. vm_compute. reflexivity. Qed.

(** ** Unresolved fields *)

Lemma truthy_spec s : JsString.truthy s = true ↔ s ≠ EmptyString.
Proof.
  unfold JsString.truthy. destruct (String.eqb_spec s EmptyString); simpl; split;
    congruence.
Qed.

Lemma filter_blank_nil (l : list string) :
  Forall (λ a, JsString.trim a = EmptyString) l →
  List.filter (λ author, JsString.truthy (JsString.trim author)) l = [].
Proof.
  induction 1 as [|a l Ha _ IH]; simpl; [done|]. by rewrite Ha, IH.
Qed.

(** The author search on the placeholder parser finds nothing. *)
Lemma author_names_placeholder html : Author.names html = ["No - Author"].
Proof. reflexivity. Qed.

(** C8, as stated, fails for the authors: a page without any author element
    yields the one-element list "No - Author", not null. *)
Lemma authors_sentinel_counterexample :
  NewsExtract.q_authors sample_page = []
  ∧ NewsExtract.authors sample_instance = Some ["No - Author"]
  ∧ NewsExtract.authors sample_instance ≠ None.
Proof. vm_compute. repeat split; congruence. Qed.

(** C8 (amended).  A construction with a non-empty URL and page source raises
    no exception.  The publish date is null when the metadata published time
    is absent or does not parse.  The authors are never null and never empty:
    when the page yields no non-blank author text the field is the list
    ["No - Author"].  The images are the empty list when no top image is
    found. *)
Theorem unresolved_fields `{JsDate} (url html : string) (fqdn : option string)
    (pg : NewsExtract.Page) :
  url ≠ EmptyString → html ≠ EmptyString →
  ∃ self,
    NewsExtract.new url (Some html) fqdn pg = NewsExtract.Ok self
    ∧ (∃ first rest, NewsExtract.authors self = Some (first :: rest))
    ∧ (Forall (λ a, JsString.trim a = EmptyString) (NewsExtract.q_authors pg) →
       NewsExtract.authors self = Some ["No - Author"])
    ∧ ((∀ t, NewsExtract.q_published pg = Some t → t ≠ EmptyString → date_parse t = None) →
       NewsExtract.publish_date self = None)
    ∧ (NewsExtract.q_top_image pg = None → NewsExtract.images self = Some []).
Proof.
  intros Hurl Hhtml. unfold NewsExtract.new.
  apply truthy_spec in Hurl, Hhtml. rewrite Hurl, Hhtml. simpl.
  unfold NewsExtract.get_newspaper3k_extract. rewrite Hhtml.
  destruct (NewsExtract.get_and_validate_content_parser _ _ _) as [ci parser].
  eexists. split; [reflexivity|]. simpl.
  set (found := List.filter _ (NewsExtract.q_authors pg)).
  split; [|split; [|split]].
  - destruct found as [|a l]; simpl; eauto.
  - intros Hblank. subst found. rewrite filter_blank_nil by done. reflexivity.
  - intros Hdate. unfold NewsExtract.get_publish_date, NewsExtract.article_date. simpl.
    destruct (NewsExtract.q_published pg) as [t|]; [|reflexivity].
    destruct (JsString.truthy t) eqn:Ht; [|reflexivity].
    rewrite (Hdate t eq_refl) by (by apply truthy_spec). reflexivity.
  - intros Himg. unfold NewsExtract.get_images. simpl. rewrite Himg. reflexivity.
Qed.

Lemma unresolved_fields_witness :
  ∃ self,
    NewsExtract.new (H := UtcDate.utc_date) "https://example.com/story" (Some "<html></html>")
      None page_without_fields = NewsExtract.Ok self
    ∧ (∃ first rest, NewsExtract.authors self = Some (first :: rest))
    ∧ (Forall (λ a, JsString.trim a = EmptyString) (NewsExtract.q_authors page_without_fields) →
       NewsExtract.authors self = Some ["No - Author"])
    ∧ ((∀ t, NewsExtract.q_published page_without_fields = Some t → t ≠ EmptyString →
             date_parse (JsDate := UtcDate.utc_date) t = None) →
       NewsExtract.publish_date self = None)
    ∧ (NewsExtract.q_top_image page_without_fields = None →
       NewsExtract.images self = Some []).
Proof.
  apply (unresolved_fields (H := UtcDate.utc_date) "https://example.com/story"
           "<html></html>" None page_without_fields).
  - discriminate.
  - discriminate.
Defined.

(** ** The title *)

(** C9, as stated, fails: the literal is "Untitled Page". *)
Lemma untitled_literal_counterexample :
  (∀ source, source ∈ GeneralParser.titleSources →
             GeneralParser.valid_title (source empty_document) = false)
  ∧ GeneralParser.extractTitle empty_document = "Untitled Page"
  ∧ GeneralParser.extractTitle empty_document ≠ "Untitled".
Proof.
  split; [|split; [reflexivity|discriminate]].
  intros source Hs. unfold GeneralParser.titleSources in Hs.
  repeat (apply elem_of_cons in Hs as [->|Hs]; [reflexivity|]).
  by apply not_elem_of_nil in Hs.
Qed.

Lemma first_valid_none sources doc :
  (∀ source, source ∈ sources → GeneralParser.valid_title (source doc) = false) →
  GeneralParser.first_valid sources doc = None.
Proof.
  induction sources as [|source rest IH]; intros Hall; simpl; [done|].
  rewrite (Hall source) by apply list_elem_of_here.
  apply IH. intros s Hs. apply Hall. by apply list_elem_of_further.
Qed.

(** C9 (amended).  If the value returned by every title source fails the
    test (a non-empty string longer than 3 and shorter than 300 code units,
    as returned), [extractTitle] returns the literal "Untitled Page". *)
Theorem title_fallback_literal (doc : GeneralParser.TitleQueries) :
  (∀ source, source ∈ GeneralParser.titleSources →
             GeneralParser.valid_title (source doc) = false) →
  GeneralParser.extractTitle doc = "Untitled Page".
Proof.
  intros Hall. unfold GeneralParser.extractTitle.
  by rewrite first_valid_none.
Qed.

Lemma title_fallback_literal_witness :
  GeneralParser.extractTitle
    (GeneralParser.mk_title_queries (Some "abc") None None None None ["Short"] None None None)
  = "Untitled Page".
Proof.
  apply (title_fallback_literal
           (GeneralParser.mk_title_queries (Some "abc") None None None None ["Short"]
              None None None)).
  intros source Hs. unfold GeneralParser.titleSources in Hs.
  repeat (apply elem_of_cons in Hs as [->|Hs]; [reflexivity|]).
  by apply not_elem_of_nil in Hs.
Defined.

Example title_first_valid_example :
  GeneralParser.extractTitle
    (GeneralParser.mk_title_queries (Some "abc") None None None None []
       (Some " Harbour bridge approved | The Daily ") None None)
  = "Harbour bridge approved".
Proof. vm_compute. reflexivity. Qed.


(** ** The language *)

(** C10, as stated, fails for [GeneralParser]: the declared attribute
    "en-US" yields the language "en". *)
Lemma language_subtag_counterexample :
  let doc := GeneralParser.mk_lang_queries (Some "en-US") None in
  GeneralParser.parsed_language true doc = Some "en"
  ∧ GeneralParser.parsed_language true doc ≠ GeneralParser.html_lang doc.
Proof. vm_compute. split; [reflexivity|discriminate]. Qed.

Lemma or_else_truthy a b x :
  GeneralParser.or_else a b = Some x →
  (∀ y, b = Some y → y ≠ EmptyString) → x ≠ EmptyString.
Proof.
  unfold GeneralParser.or_else. intros Hor Hb.
  destruct a as [v|]; [|by apply Hb].
  destruct (JsString.truthy v) eqn:Hv; [|by apply Hb].
  injection Hor as <-. by apply truthy_spec.
Qed.

(** C10 (amended).  The language is never empty.  In [NewsExtract] it is the
    [lang] attribute of the document when that attribute is present and not
    empty, and "en" otherwise.  In [GeneralParser], when metadata is
    included, it is the part of the [lang] attribute before its first "-"
    when that part is not empty; otherwise the content-language meta value
    when there is a non-empty one; otherwise "en". *)
Theorem language_never_empty `{JsDate} (url : string) (source fqdn : option string)
    (pg : NewsExtract.Page) (self : NewsExtract.t) (doc : GeneralParser.LangQueries) :
  NewsExtract.new url source fqdn pg = NewsExtract.Ok self →
  let primary l := default EmptyString (head (JsString.split_on "-"%char l)) in
  let no_primary :=
    GeneralParser.html_lang doc = None
    ∨ ∃ l, GeneralParser.html_lang doc = Some l ∧ primary l = EmptyString in
  NewsExtract.language self ≠ EmptyString
  ∧ NewsExtract.language self
    = match NewsExtract.q_lang pg with
      | Some l => if JsString.truthy l then l else "en"
      | None => "en"
      end
  ∧ GeneralParser.metadata_language doc ≠ EmptyString
  ∧ GeneralParser.parsed_language true doc = Some (GeneralParser.metadata_language doc)
  ∧ (∀ l, GeneralParser.html_lang doc = Some l → primary l ≠ EmptyString →
          GeneralParser.metadata_language doc = primary l)
  ∧ (no_primary →
     ∀ c, GeneralParser.content_language doc = Some c → c ≠ EmptyString →
          GeneralParser.metadata_language doc = c)
  ∧ (no_primary →
     GeneralParser.content_language doc = None
     ∨ GeneralParser.content_language doc = Some EmptyString →
     GeneralParser.metadata_language doc = "en").
Proof.
  intros Hnew primary no_primary.
  assert (Hlang : NewsExtract.language self
                  = match NewsExtract.q_lang pg with
                    | Some l => if JsString.truthy l then l else "en"
                    | None => "en"
                    end).
  { unfold NewsExtract.new in Hnew.
    destruct (JsString.truthy url); simpl in Hnew; [|discriminate].
    destruct source as [html|]; [|discriminate].
    unfold NewsExtract.get_newspaper3k_extract in Hnew.
    destruct (JsString.truthy html); simpl in Hnew; [|discriminate].
    destruct (NewsExtract.get_and_validate_content_parser _ _ _) as [ci parser].
    injection Hnew as <-. simpl.
    destruct (NewsExtract.q_lang pg) as [l|]; simpl; [|reflexivity].
    destruct (JsString.truthy l) eqn:Hl; simpl; rewrite ?Hl; simpl; rewrite ?Hl; reflexivity. }
  split; [|split; [exact Hlang|]].
  { rewrite Hlang. destruct (NewsExtract.q_lang pg) as [l|]; [|discriminate].
    destruct (JsString.truthy l) eqn:Hl; [by apply truthy_spec|discriminate]. }
  unfold GeneralParser.metadata_language.
  fold (primary : string → string).
  split; [|split; [reflexivity|]].
  { destruct (GeneralParser.or_else _ (Some "en")) as [x|] eqn:Hx; simpl.
    - eapply or_else_truthy; [exact Hx|]. intros y [= <-]. discriminate.
    - unfold GeneralParser.or_else in Hx.
      destruct (match primary <$> GeneralParser.html_lang doc with
                | Some x => if JsString.truthy x then Some x
                            else GeneralParser.content_language doc
                | None => GeneralParser.content_language doc
                end) as [v|]; [|discriminate].
      destruct (JsString.truthy v); discriminate. }
  split; [|split].
  - intros l Hl Hp. rewrite Hl. simpl.
    apply truthy_spec in Hp. unfold GeneralParser.or_else. rewrite Hp. simpl.
    rewrite Hp. reflexivity.
  - intros Hno c Hc Hne. apply truthy_spec in Hne.
    assert (Hfirst : GeneralParser.or_else (primary <$> GeneralParser.html_lang doc)
                       (GeneralParser.content_language doc) = Some c).
    { destruct Hno as [Hn|(l & Hl & Hp)].
      - rewrite Hn, Hc. reflexivity.
      - rewrite Hl, Hc. simpl. rewrite Hp. reflexivity. }
    rewrite Hfirst. simpl. rewrite Hne. reflexivity.
  - intros Hno Hc.
    assert (Hfirst : GeneralParser.or_else
                       (GeneralParser.or_else (primary <$> GeneralParser.html_lang doc)
                          (GeneralParser.content_language doc)) (Some "en") = Some "en").
    { destruct Hno as [Hn|(l & Hl & Hp)], Hc as [Hc|Hc]; rewrite ?Hn, ?Hl, Hc; simpl;
        rewrite ?Hp; reflexivity. }
    rewrite Hfirst. reflexivity.
Qed.

Lemma language_never_empty_witness :
  NewsExtract.language sample_instance ≠ EmptyString
  ∧ NewsExtract.language sample_instance = "en-GB"
  ∧ GeneralParser.metadata_language (GeneralParser.mk_lang_queries (Some "en-GB") None) = "en".
Proof.
  pose proof (language_never_empty (H := UtcDate.utc_date)
                "https://example.com/2024-01-06/harbour-bridge" (Some "<html></html>") None
                sample_page sample_instance
                (GeneralParser.mk_lang_queries (Some "en-GB") None) eq_refl)
    as (Hne & Heq & _ & _ & Hprimary & _).
  split; [exact Hne|]. split; [exact Heq|].
  apply (Hprimary "en-GB"); [reflexivity|discriminate].
Defined.

(** ** Examples *)

Example noise_patterns_supported : NoiseFilter.all_supported = true.
Proof. vm_compute. reflexivity. Qed.

Example other_patterns_supported :
  forallb Regex.supported
    (NewsExtract.datePatterns
     ++ [Author.punctuation; UtcDate.iso_day; UtcDate.iso_instant;
         Regex.lit "logo|favicon|icon|pdf" "i"; Regex.rx "[|\-\u2013\u2014]";
         Regex.lit "[^a-zA-Z.]" "g"; Regex.rx "%"; Regex.lit "'" "g";
         Regex.lit "\n" "g"; Regex.lit "\s+" "g"; Regex.lit "\n\s*\n" "g"; Regex.rx "\s+"])
  = true.
Proof. vm_compute. reflexivity. Qed.

Example regex_greedy_backtracking :
  Regex.first_match (Regex.rx "a.*b") "xa123b456b7" = Some "a123b456b"
  ∧ Regex.first_match (Regex.rx "a|ab") "ab" = Some "a"
  ∧ Regex.replace (Regex.lit "x*" "g") "-" "abc" = "-a-b-c-"
  ∧ Regex.replace (Regex.lit "News.*$" "gm") EmptyString
      ("Good News today" +:+ nl +:+ "next line")
    = "Good " +:+ nl +:+ "next line".
Proof. vm_compute. repeat split; reflexivity. Qed.

Example author_search_example :
  Author.names_of
    (Author.mk_soup
       (fun tag => if String.eqb tag "span"
                   then [Author.mk_block [Author.AttrString "author-name"] "By Jane Doe"]
                   else [])
       None)
  = ["Jane Doe"].
Proof. vm_compute. reflexivity. Qed.

Example clean_ex1 :
  NoiseFilter.clean_extracted_content
    "The quick brown fox jumps over the lazy dog near the river bank today"
  = "The quick brown fox jumps over the lazy dog near the river bank today".
Proof. vm_compute. reflexivity. Qed.

Example clean_ex2 :
  NoiseFilter.clean_extracted_content "xxxxxxxxxxxxxxxxxxxxxxxx SoySoybeanbean"
  = "xxxxxxxxxxxxxxxxxxxxxxxx Soybean".
Proof. vm_compute. reflexivity. Qed.

Example clean_ex3 :
  NoiseFilter.clean_extracted_content "xxxxxxxxxxxxxxxxxxxxxxxx Soybean"
  = "xxxxxxxxxxxxxxxxxxxxxxxx".
Proof. vm_compute. reflexivity. Qed.

Example regex_ex1 :
  Regex.replace (Regex.lit "\s+" "g") " " ("a  b" +:+ nl +:+ " c") = "a b c".
Proof. vm_compute. reflexivity. Qed.

Example regex_ex2 :
  Regex.first_match (Regex.lit "(\d{4})[/-](\d{1,2})[/-](\d{1,2})" "g")
    "https://x.com/2024/01/06/story" = Some "2024/01/06".
Proof. vm_compute. reflexivity. Qed.

Example regex_ex3 :
  Regex.replace (Regex.lit "^\s*$" "gm") "" ("a" +:+ nl +:+ "  " +:+ nl +:+ nl +:+ "b")
  = "a" +:+ nl +:+ nl +:+ "b".
Proof. vm_compute. reflexivity. Qed.

Example regex_ex4 :
  Regex.replace (Regex.lit "\/\*[^*]*\*+(?:[^/*][^*]*\*+)*\/" "g") "" "x /* a * b */ y" = "x  y".
Proof. vm_compute. reflexivity. Qed.

Example regex_ex5 :
  Regex.test (Regex.lit "logo|favicon|icon|pdf" "i") "https://cdn.x/LoGo.png" = true.
Proof. vm_compute. reflexivity. Qed.

Example split_ex1 :
  Author.word_tokenize "  By  Jane   Doe " = ["By"; "Jane"; "Doe"].
Proof. vm_compute. reflexivity. Qed.

Example split_ex3 : Regex.split (Regex.rx "(?:)") "abc" = ["a"; "b"; "c"].
Proof. vm_compute. reflexivity. Qed.

Example split_ex2 :
  Regex.split (Regex.rx "[|\-\u2013\u2014]") "Title | Site - Name" = ["Title "; " Site "; " Name"].
Proof. vm_compute. reflexivity. Qed.

Example compare_ex1 :
  (Compare.eval "AUTHOR" (Compare.new ["AUTHOR"; "BYLINE"])).1
  = [Compare.mk_entry "AUTHOR" 8 "100%"].
Proof. vm_compute. reflexivity. Qed.

Example compare_ex2 :
  (Compare.eval "author-name" (Compare.new ["AUTHOR"; "BYLINE"])).1
  = [Compare.mk_entry "AUTHOR" 6 "75%"].
Proof. vm_compute. reflexivity. Qed.

Example compare_stable_sort :
  (Compare.eval "BYLINE" (Compare.new ["byline"; "BYLINE"; "LINE"])).1
  = [Compare.mk_entry "byline" 8 "100%"; Compare.mk_entry "BYLINE" 8 "100%";
     Compare.mk_entry "LINE" 4 "67%"].
Proof. vm_compute. reflexivity. Qed.

(** * Further properties *)

(** ** The trigram matcher: further properties *)

Section CompareMore.

Import Compare.

Lemma words_foldl_set_callback idx l : ∀ st,
  words (foldl (set_callback idx) st l) = words st.
Proof. induction l as [|g l IH]; intros st; simpl; [done|]. by rewrite IH. Qed.

Lemma words_set_eq st w :
  words (set st w)
  = if bool_decide (w = EmptyString) || bool_decide (w ∈ words st)
    then words st else words st ++ [w].
Proof.
  unfold set. destruct (bool_decide (w = EmptyString) || bool_decide (w ∈ words st)); [done|].
  by rewrite words_foldl_set_callback.
Qed.

Lemma words_set_NoDup st w : NoDup (words st) → NoDup (words (set st w)).
Proof.
  intros Hnd. rewrite words_set_eq.
  destruct (bool_decide (w = EmptyString)); simpl; [done|].
  case_bool_decide as Hin; [done|].
  apply NoDup_app. split; [done|]. split; [|apply NoDup_singleton].
  intros x Hx ->%list_elem_of_singleton. done.
Qed.

Lemma words_foldl_set_NoDup inputs : ∀ st,
  NoDup (words st) → NoDup (words (foldl set st inputs)).
Proof.
  induction inputs as [|w inputs IH]; intros st Hnd; simpl; [done|].
  by apply IH, words_set_NoDup.
Qed.

Lemma words_foldl_set_fresh inputs : ∀ st,
  NoDup (words st ++ inputs) → EmptyString ∉ inputs →
  words (foldl set st inputs) = words st ++ inputs.
Proof.
  induction inputs as [|w inputs IH]; intros st Hnd Hne; simpl.
  - by rewrite app_nil_r.
  - assert (Hw : w ≠ EmptyString).
    { intros ->. apply Hne, list_elem_of_here. }
    assert (Hin : w ∉ words st).
    { apply NoDup_app in Hnd as (_ & Hd & _). intros Hin.
      apply (Hd w Hin), list_elem_of_here. }
    assert (Hset : words (set st w) = words st ++ [w]).
    { rewrite words_set_eq.
      rewrite (bool_decide_eq_false_2 _ Hw), (bool_decide_eq_false_2 _ Hin). done. }
    rewrite IH.
    + rewrite Hset, <- app_assoc. done.
    + rewrite Hset, <- app_assoc. done.
    + intros He. apply Hne. by apply list_elem_of_further.
Qed.

(** The two components of the accumulator of [eval] do not depend on each
    other. *)
Lemma foldl_bump_split l : ∀ tc wm,
  foldl bump (tc, wm) l = (foldl (λ a i, incr i a) tc l, foldl (λ a i, incr i a) wm l).
Proof.
  induction l as [|i l IH]; intros tc wm; simpl; [done|].
  change (bump (tc, wm) i) with (incr i tc, incr i wm). by rewrite IH.
Qed.

Lemma foldl_incr_length l : ∀ a, length (foldl (λ a i, incr i a) a l) = length a.
Proof.
  induction l as [|i l IH]; intros a; simpl; [done|].
  rewrite IH. unfold incr. apply length_alter.
Qed.

Lemma eval_callback_split index tc wm tm g :
  eval_callback index (tc, wm, tm) g
  = (foldl (λ a i, incr i a) tc (default [] (index !! g)),
     foldl (λ a i, incr i a) wm (default [] (index !! g)), S tm).
Proof.
  unfold eval_callback. destruct (index !! g) as [l|]; simpl; [|done].
  by rewrite foldl_bump_split.
Qed.

Lemma foldl_eval_callback_indep index cands : ∀ tc tc' wm tm,
  length tc = length tc' →
  let r := foldl (eval_callback index) (tc, wm, tm) cands in
  let r' := foldl (eval_callback index) (tc', wm, tm) cands in
  length r.1.1 = length r'.1.1 ∧ r.1.2 = r'.1.2 ∧ r.2 = r'.2
  ∧ length r.1.1 = length tc.
Proof.
  induction cands as [|g cands IH]; intros tc tc' wm tm Hlen; simpl; [done|].
  rewrite !eval_callback_split.
  destruct (IH (foldl (λ a i, incr i a) tc (default [] (index !! g)))
              (foldl (λ a i, incr i a) tc' (default [] (index !! g)))
              (foldl (λ a i, incr i a) wm (default [] (index !! g))) (S tm))
    as (H1 & H2 & H3 & H4).
  { by rewrite !foldl_incr_length. }
  simpl in *. split; [exact H1|]. split; [exact H2|]. split; [exact H3|].
  rewrite H4. apply foldl_incr_length.
Qed.

(** Upper-casing after the case maps on code units below 256. *)
Lemma upper_of_upper c : Utf16.upper (JsString.upper_ascii c) = Utf16.upper c.
Proof. destruct c as [[] [] [] [] [] [] [] []]; reflexivity. Qed.

Lemma upper_of_lower c : Utf16.upper (JsString.lower_ascii c) = Utf16.upper c.
Proof. destruct c as [[] [] [] [] [] [] [] []]; reflexivity. Qed.

Lemma toUpperCase_map f s :
  (∀ c, Utf16.upper (f c) = Utf16.upper c) →
  Utf16.toUpperCase (JsString.map_string f s) = Utf16.toUpperCase s.
Proof.
  intros Hf. unfold Utf16.toUpperCase.
  induction s as [|c s IH]; simpl; [done|]. by rewrite Hf, IH.
Qed.

Lemma toUpperCase_twice s :
  Utf16.toUpperCase (JsString.toUpperCase s) = Utf16.toUpperCase s.
Proof.
  unfold Utf16.toUpperCase.
  induction s as [|c s IH]; [done|]. cbn [JsString.toUpperCase].
  destruct (JsString.code c =? 223) eqn:Hc.
  - apply Nat.eqb_eq in Hc.
    assert (Hsharp : c = ascii_of_nat 223).
    { rewrite <- Hc. unfold JsString.code. by rewrite ascii_nat_embedding. }
    subst c. cbn [list_ascii_of_string flat_map]. by rewrite IH.
  - cbn [list_ascii_of_string flat_map]. by rewrite IH, upper_of_upper.
Qed.

Lemma to_trigram_upper cand : to_trigram (JsString.toUpperCase cand) = to_trigram cand.
Proof. unfold to_trigram. by rewrite !toUpperCase_app, toUpperCase_twice. Qed.

Lemma to_trigram_lower cand : to_trigram (JsString.toLowerCase cand) = to_trigram cand.
Proof.
  unfold to_trigram. rewrite !toUpperCase_app.
  unfold JsString.toLowerCase. by rewrite (toUpperCase_map _ _ upper_of_lower).
Qed.

Lemma eval_result cand st :
  (eval cand st).1
  = let r := foldl (eval_callback (trigrams st))
               (trigrams_count st, replicate (length (words st)) 0, 0) (to_trigram cand) in
    sort_desc (flat_map (collect st r.1.2) (seq 0 (length r.1.1))).
Proof. unfold eval. by destruct (foldl _ _ _) as [[tc wm] tm]. Qed.

Lemma eval_state cand st :
  (eval cand st).2
  = let r := foldl (eval_callback (trigrams st))
               (trigrams_count st, replicate (length (words st)) 0, 0) (to_trigram cand) in
    mk (words st) (word_trigram_count st) (trigrams st) r.1.1 r.2.
Proof. unfold eval. by destruct (foldl _ _ _) as [[tc wm] tm]. Qed.

End CompareMore.

(** X1.  The stored vocabulary of a [Compare] instance has no repetition and
    no empty token; it holds exactly the non-empty inputs; the three arrays of
    the instance have one slot per stored token; and a vocabulary that is
    already free of repetitions and empty tokens is stored as it is. *)
Theorem compare_stored_vocabulary (inputs : list string) :
  let st := Compare.new inputs in
  NoDup (Compare.words st)
  ∧ (∀ v, v ∈ Compare.words st ↔ v ∈ inputs ∧ v ≠ EmptyString)
  ∧ length (Compare.word_trigram_count st) = length (Compare.words st)
  ∧ length (Compare.trigrams_count st) = length (Compare.words st)
  ∧ (NoDup inputs → EmptyString ∉ inputs → Compare.words st = inputs).
Proof.
  simpl. split; [|split; [|split; [|split]]].
  - apply words_foldl_set_NoDup. simpl. apply NoDup_nil_2.
  - apply words_new.
  - apply (wf_new inputs).
  - apply (wf_new inputs).
  - intros Hnd Hne. unfold Compare.new.
    rewrite words_foldl_set_fresh; done.
Qed.

(** X2.  [eval] changes nothing of the instance but its counters, and the
    array it returns does not depend on the counters: scoring a candidate
    gives the same result whatever was scored on the instance before. *)
Theorem compare_eval_repeatable (st : Compare.t) (earlier cand : string) :
  let st' := (Compare.eval earlier st).2 in
  Compare.words st' = Compare.words st
  ∧ Compare.trigrams st' = Compare.trigrams st
  ∧ Compare.word_trigram_count st' = Compare.word_trigram_count st
  ∧ (Compare.eval cand st').1 = (Compare.eval cand st).1.
Proof.
  intros st'.
  pose proof (eval_state earlier st) as Hst. fold st' in Hst.
  assert (Hw : Compare.words st' = Compare.words st) by (by rewrite Hst).
  assert (Ht : Compare.trigrams st' = Compare.trigrams st) by (by rewrite Hst).
  assert (Hc : Compare.word_trigram_count st' = Compare.word_trigram_count st)
    by (by rewrite Hst).
  split; [done|]. split; [done|]. split; [done|].
  rewrite !eval_result. cbv zeta. rewrite Ht, Hw.
  destruct (foldl_eval_callback_indep (Compare.trigrams st) (Compare.to_trigram earlier)
              (Compare.trigrams_count st) (Compare.trigrams_count st)
              (replicate (length (Compare.words st)) 0) 0 eq_refl) as (_ & _ & _ & Hlen).
  assert (Hlen' : length (Compare.trigrams_count st') = length (Compare.trigrams_count st)).
  { rewrite Hst. exact Hlen. }
  destruct (foldl_eval_callback_indep (Compare.trigrams st) (Compare.to_trigram cand)
              (Compare.trigrams_count st') (Compare.trigrams_count st)
              (replicate (length (Compare.words st)) 0) 0 Hlen') as (H1 & H2 & _ & _).
  cbv zeta in H1, H2. rewrite H1, H2. f_equal.
  apply flat_map_ext. intros i. unfold Compare.collect. by rewrite Hw, Hc.
Qed.

(** X3.  For candidates made of code units below 256, scoring reads the
    candidate through its upper-cased form only: the candidate in lower case
    gives the same result and the same counters, and so do two candidates
    with the same upper-cased form. *)
Theorem compare_eval_ignores_case (st : Compare.t) (cand : string) :
  Compare.eval (JsString.toLowerCase cand) st = Compare.eval cand st
  ∧ (∀ other, Utf16.toUpperCase other = Utf16.toUpperCase cand →
              Compare.eval other st = Compare.eval cand st).
Proof.
  split.
  - unfold Compare.eval. by rewrite to_trigram_lower.
  - intros other Hupper.
    assert (Hsame : Compare.to_trigram other = Compare.to_trigram cand).
    { unfold Compare.to_trigram. by rewrite !toUpperCase_app, Hupper. }
    unfold Compare.eval. by rewrite Hsame.
Qed.

Example compare_eval_sharp_s_example :
  (Compare.eval sharp_s_token (Compare.new ["STRASSE"])).1
  = [Compare.mk_entry "STRASSE" 9 "100%"].
Proof. vm_compute. reflexivity. Qed.

(** ** The other helpers *)

Section HelperFacts.

Import Helpers.

Lemma keep_author_app l : ∀ acc, ∃ t, foldl keep_author acc l = acc ++ t.
Proof.
  induction l as [|a l IH]; intros acc; simpl.
  - exists []. by rewrite app_nil_r.
  - destruct (IH (keep_author acc a)) as [t Ht]. rewrite Ht. unfold keep_author.
    destruct (JsString.truthy a && negb (bool_decide (a ∈ acc))).
    + exists (a :: t). by rewrite <- app_assoc.
    + by exists t.
Qed.

Lemma keep_author_inv l : ∀ acc,
  NoDup acc → EmptyString ∉ acc →
  let r := foldl keep_author acc l in
  NoDup r ∧ (EmptyString ∉ r)
  ∧ (∀ x, x ∈ r ↔ x ∈ acc ∨ (x ∈ l ∧ x ≠ EmptyString)).
Proof.
  induction l as [|a l IH]; intros acc Hnd Hne; simpl.
  - split; [done|]. split; [done|]. intros x. rewrite elem_of_nil. naive_solver.
  - assert (Hstep : NoDup (keep_author acc a) ∧ (EmptyString ∉ keep_author acc a)
                    ∧ ∀ x, x ∈ keep_author acc a ↔ x ∈ acc ∨ (x = a ∧ x ≠ EmptyString)).
    { unfold keep_author. destruct (JsString.truthy a) eqn:Ht; simpl.
      - apply truthy_spec in Ht. case_bool_decide as Hin; simpl.
        + split; [done|]. split; [done|]. naive_solver.
        + split; [|split].
          * apply NoDup_app. split; [done|]. split; [|apply NoDup_singleton].
            intros x Hx ->%list_elem_of_singleton. done.
          * rewrite elem_of_app, list_elem_of_singleton. naive_solver.
          * intros x. rewrite elem_of_app, list_elem_of_singleton. naive_solver.
      - split; [done|]. split; [done|]. intros x. split; [by left|].
        intros [?|[-> Hx]]; [done|]. exfalso.
        apply truthy_spec in Hx. congruence. }
    destruct Hstep as (H1 & H2 & H3).
    destruct (IH _ H1 H2) as (H4 & H5 & H6).
    split; [done|]. split; [done|].
    intros x. rewrite H6, H3, elem_of_cons. naive_solver.
Qed.

Lemma keep_author_fresh l : ∀ acc,
  NoDup (acc ++ l) → EmptyString ∉ l → foldl keep_author acc l = acc ++ l.
Proof.
  induction l as [|a l IH]; intros acc Hnd Hne; simpl.
  - by rewrite app_nil_r.
  - assert (Ha : a ≠ EmptyString).
    { intros ->. apply Hne, list_elem_of_here. }
    assert (Hin : a ∉ acc).
    { apply NoDup_app in Hnd as (_ & Hd & _). intros Hin.
      apply (Hd a Hin), list_elem_of_here. }
    assert (Hstep : keep_author acc a = acc ++ [a]).
    { unfold keep_author. apply truthy_spec in Ha. rewrite Ha.
      by rewrite (bool_decide_eq_false_2 _ Hin). }
    rewrite Hstep, IH.
    + by rewrite <- app_assoc.
    + by rewrite <- app_assoc.
    + intros He. apply Hne. by apply list_elem_of_further.
Qed.

Lemma keep_author_head l :
  head (foldl keep_author [] l) = head (List.filter JsString.truthy l).
Proof.
  induction l as [|a l IH]; simpl; [done|].
  unfold keep_author at 2. simpl.
  destruct (JsString.truthy a); simpl; [|done].
  destruct (keep_author_app l [a]) as [t ->]. done.
Qed.

Lemma name_entity_take authors :
  name_entity authors = take 2 (foldl keep_author [] authors).
Proof.
  unfold name_entity. destruct authors as [|a l]; [done|].
  destruct (2 <? length (foldl keep_author [] (a :: l))) eqn:Hlen; [done|].
  apply Nat.ltb_ge in Hlen. by rewrite take_ge.
Qed.

End HelperFacts.

(** X4.  [recursive_iterate] returns the values of a nested array from left to
    right: on an array without inner arrays it is the identity, it distributes
    over concatenation, and an inner array contributes what its members
    contribute, whatever the depth. *)
Theorem recursive_iterate_flattens {A : Type} (values : list A)
    (before inner after : list (Helpers.nested A)) :
  Helpers.recursive_iterate (map Helpers.Value values) = values
  ∧ Helpers.recursive_iterate (before ++ after)
    = Helpers.recursive_iterate before ++ Helpers.recursive_iterate after
  ∧ Helpers.recursive_iterate (before ++ [Helpers.Array inner] ++ after)
    = Helpers.recursive_iterate (before ++ inner ++ after).
Proof.
  unfold Helpers.recursive_iterate. split; [|split].
  - induction values as [|x l IH]; simpl; [done|]. by rewrite IH.
  - apply flat_map_app.
  - rewrite !flat_map_app. simpl. by rewrite app_nil_r.
Qed.

(** X5.  [name_entity] returns at most two names, without repetition and
    without the empty string, all taken from its argument; the first of them
    is the first non-empty string of the argument; and a list it has returned
    is returned unchanged. *)
Theorem name_entity_bounds (authors : list string) :
  let names := Helpers.name_entity authors in
  length names ≤ 2
  ∧ NoDup names
  ∧ (∀ name, name ∈ names → name ∈ authors ∧ name ≠ EmptyString)
  ∧ head names = head (List.filter JsString.truthy authors)
  ∧ Helpers.name_entity names = names.
Proof.
  intros names. subst names. rewrite !name_entity_take.
  destruct (keep_author_inv authors [] (NoDup_nil_2) (not_elem_of_nil _))
    as (Hnd & Hne & Hmem).
  set (found := foldl Helpers.keep_author [] authors) in *.
  assert (Hsub : ∀ x, x ∈ take 2 found → x ∈ found).
  { intros x Hx. rewrite <- (take_drop 2 found). apply elem_of_app. by left. }
  assert (Hnd2 : NoDup (take 2 found)).
  { rewrite <- (take_drop 2 found) in Hnd. by apply NoDup_app in Hnd as (? & _ & _). }
  split; [|split; [|split; [|split]]].
  - rewrite length_take. lia.
  - done.
  - intros x Hx%Hsub. apply Hmem in Hx as [Hx|Hx]; [|done]. by apply elem_of_nil in Hx.
  - rewrite <- keep_author_head. fold found. by destruct found.
  - rewrite keep_author_fresh.
    + simpl. rewrite take_take. f_equal.
    + done.
    + intros He. by apply Hne, Hsub.
Qed.

(** ** White space: the pattern [\s+], and [trim] *)

Section SpaceFacts.

Import Regex NoiseFilter Spaces.

Lemma take_drop_ws l : take_ws l ++ drop_ws l = l.
Proof.
  induction l as [|c l IH]; simpl; [done|].
  destruct (JsString.is_space c); simpl; [by rewrite IH|done].
Qed.

Lemma drop_ws_length l : length (drop_ws l) ≤ length l.
Proof.
  induction l as [|c l IH]; simpl; [done|].
  destruct (JsString.is_space c); simpl; lia.
Qed.

Lemma drop_ws_head l c r : drop_ws l = c :: r → JsString.is_space c = false.
Proof.
  induction l as [|x l IH]; simpl; [done|].
  destruct (JsString.is_space x) eqn:Hx; [done|]. by intros [= <- <-].
Qed.

Lemma take_ws_spaces l : Forall (λ c, JsString.is_space c = true) (take_ws l).
Proof.
  induction l as [|c l IH]; simpl; [done|].
  destruct (JsString.is_space c) eqn:Hc; [|done]. by constructor.
Qed.

Lemma run_star fl a prev s k :
  run fl (Star a) prev s k = star_loop fl a k (S (length s)) prev s.
Proof. reflexivity. Qed.

Lemma run_ws_nil fl prev k : run fl ws prev [] k = None.
Proof. reflexivity. Qed.

Lemma star_ws fl : ∀ n prev s,
  length s < n → star_loop fl ws (λ _ s', Some s') n prev s = Some (drop_ws s).
Proof.
  induction n as [|n IH]; intros prev s Hn; [lia|].
  destruct s as [|c s].
  - reflexivity.
  - change (star_loop fl ws (λ _ s', Some s') (S n) prev (c :: s))
      with (match run fl ws prev (c :: s)
                    (λ p' s', if length s' <? length (c :: s)
                              then star_loop fl ws (λ _ s', Some s') n p' s' else None) with
            | Some e => Some e
            | None => Some (c :: s)
            end).
    rewrite run_ws. simpl drop_ws.
    destruct (JsString.is_space c); [|done].
    replace (length s <? length (c :: s)) with true
      by (symmetry; apply Nat.ltb_lt; simpl; lia).
    rewrite IH by (simpl in Hn; lia). done.
Qed.

(** The pattern [\s+] at a white-space code unit takes the whole run. *)
Lemma ws_plus_here fl prev c s :
  JsString.is_space c = true →
  match_here fl (Seq (Seq ws (Star ws)) Eps) prev (c :: s)
  = Some (c :: take_ws s, drop_ws s).
Proof.
  intros Hc. unfold match_here.
  change (run fl (Seq (Seq ws (Star ws)) Eps) prev (c :: s) (λ _ s', Some s'))
    with (run fl ws prev (c :: s)
            (λ p1 s1, run fl (Star ws) p1 s1 (λ p' s', Some s'))).
  rewrite run_ws, Hc, run_star, star_ws by lia.
  f_equal. f_equal.
  transitivity (take (length (c :: take_ws s)) ((c :: take_ws s) ++ drop_ws s)).
  - f_equal.
    + rewrite <- (take_drop_ws s) at 1. simpl. rewrite length_app. lia.
    + simpl. by rewrite take_drop_ws.
  - apply take_app_length.
Qed.

Lemma ws_plus_nil fl prev : match_here fl (Seq (Seq ws (Star ws)) Eps) prev [] = None.
Proof. reflexivity. Qed.

(** Replacing [\s+] by a space squeezes the text. *)
Lemma replace_ws_squeezed fl : ∀ n prev s,
  length s < n →
  let out := replace_loop n fl (Seq (Seq ws (Star ws)) Eps) [" "%char] prev s in
  squeezed out = true
  ∧ (s = [] → out = [])
  ∧ (∀ c r, s = c :: r → JsString.is_space c = false → ∃ r', out = c :: r').
Proof.
  induction n as [|n IH]; intros prev s Hn; [lia|].
  destruct s as [|c s].
  - simpl. done.
  - cbn [replace_loop]. destruct (JsString.is_space c) eqn:Hc.
    + rewrite ws_plus_here by done.
      assert (Hlen : length (drop_ws s) < n).
      { pose proof (drop_ws_length s). simpl in Hn. lia. }
      destruct (IH (last (c :: take_ws s)) (drop_ws s) Hlen) as (H1 & H2 & H3).
      set (out := replace_loop n _ _ _ _ (drop_ws s)) in *.
      split; [|split].
      * change ([" "%char] ++ out) with (" "%char :: out).
        cbn [squeezed]. rewrite H1.
        change (JsString.is_space " ") with true. cbn match.
        change (JsString.code " " =? 32) with true.
        destruct out as [|c' out'] eqn:Hout; [done|].
        destruct (drop_ws s) as [|d ds] eqn:Hd.
        -- by specialize (H2 eq_refl).
        -- destruct (H3 d ds eq_refl (drop_ws_head _ _ _ Hd)) as [r' Hr'].
           injection Hr' as -> _. by rewrite (drop_ws_head _ _ _ Hd).
      * done.
      * intros c0 r [= <- <-] Hc0. congruence.
    + rewrite ws_plus_here_other by done.
      destruct (IH (Some c) s ltac:(simpl in Hn; lia)) as (H1 & H2 & H3).
      split; [|split].
      * cbn [squeezed]. by rewrite Hc, H1.
      * done.
      * intros c0 r [= <- <-] _. eauto.
Qed.

Lemma squeezed_tail c l : squeezed (c :: l) = true → squeezed l = true.
Proof. cbn [squeezed]. by intros [_ ?]%andb_prop. Qed.

Lemma squeezed_space c l :
  squeezed (c :: l) = true → JsString.is_space c = true →
  JsString.code c = 32
  ∧ match l with c' :: _ => JsString.is_space c' = false | [] => True end.
Proof.
  cbn [squeezed]. intros [H _]%andb_prop Hc. rewrite Hc in H.
  apply andb_prop in H as [H1 H2]. apply Nat.eqb_eq in H1. split; [done|].
  destruct l as [|c' l]; [done|]. by apply negb_true_iff.
Qed.

Lemma squeezed_no_lf l : squeezed l = true → Forall (λ c, chr_eq c LF = false) l.
Proof.
  induction l as [|c l IH]; intros H; [done|].
  constructor; [|by eapply IH, squeezed_tail].
  unfold chr_eq. apply Nat.eqb_neq. intros Heq.
  assert (Hc : JsString.is_space c = true).
  { unfold JsString.is_space. rewrite Heq. reflexivity. }
  destruct (squeezed_space _ _ H Hc) as [H32 _]. rewrite H32 in Heq. by vm_compute in Heq.
Qed.

(** A pattern that starts with a line feed finds nothing in text without
    line feeds. *)
Lemma lf_first_no_match fl r : ∀ l prev,
  fl_i fl = false →
  Forall (λ c, chr_eq c LF = false) l →
  search fl (Seq (Chr LF) r) prev l = None.
Proof.
  induction l as [|c l IH]; intros prev Hi Hl; [reflexivity|].
  apply Forall_cons in Hl as [Hc Hl].
  cbn [search]. unfold match_here.
  change (run fl (Seq (Chr LF) r) prev (c :: l) (λ _ s', Some s'))
    with (if (if fl_i fl then chr_eq (JsString.upper_ascii c) (JsString.upper_ascii LF)
              else chr_eq c LF)
          then run fl r (Some c) l (λ _ s', Some s')
          else None).
  rewrite Hi, Hc. by rewrite IH.
Qed.

Lemma trim_left_app x y :
  JsString.trim_left (x ++ y)
  = match JsString.trim_left x with
    | [] => JsString.trim_left y
    | t => t ++ y
    end.
Proof.
  induction x as [|c x IH]; simpl; [done|].
  destruct (JsString.is_space c); [done|]. reflexivity.
Qed.

Lemma trim_right_cons c l :
  trim_right (c :: l)
  = match trim_right l with
    | [] => if JsString.is_space c then [] else [c]
    | t => c :: t
    end.
Proof.
  unfold trim_right. rewrite reverse_cons, trim_left_app.
  destruct (JsString.trim_left (reverse l)) as [|z t] eqn:Ht.
  - simpl. destruct (JsString.is_space c); reflexivity.
  - rewrite reverse_app. simpl.
    destruct (reverse (z :: t)) as [|y u] eqn:Hr; [|done].
    apply (f_equal length) in Hr. rewrite length_reverse in Hr. discriminate.
Qed.

Lemma trim_right_head c l :
  JsString.is_space c = false → ∃ t, trim_right (c :: l) = c :: t.
Proof.
  intros Hc. rewrite trim_right_cons, Hc. destruct (trim_right l); eauto.
Qed.

Lemma trim_right_single_spaced l :
  squeezed l = true → single_spaced (trim_right l) = true.
Proof.
  induction l as [|c l IH]; intros Hs; [done|].
  specialize (IH (squeezed_tail _ _ Hs)).
  rewrite trim_right_cons.
  destruct (trim_right l) as [|z t] eqn:Ht.
  - destruct (JsString.is_space c) eqn:Hc; [done|]. simpl. by rewrite Hc.
  - change (single_spaced (c :: z :: t))
      with (if JsString.is_space c
            then (JsString.code c =? 32)
                 && (negb (JsString.is_space z) && single_spaced (z :: t))
            else single_spaced (z :: t)).
    destruct (JsString.is_space c) eqn:Hc; [|done].
    destruct (squeezed_space _ _ Hs Hc) as [H32 Hnext].
    destruct l as [|c' l']; [done|].
    destruct (trim_right_head c' l' Hnext) as [t' Ht']. rewrite Ht' in Ht.
    injection Ht as <- <-. rewrite H32, Hnext, IH. reflexivity.
Qed.

Lemma trim_left_head l c r : JsString.trim_left l = c :: r → JsString.is_space c = false.
Proof.
  induction l as [|x l IH]; simpl; [done|].
  destruct (JsString.is_space x) eqn:Hx; [done|]. by intros [= <- <-].
Qed.

Lemma trim_left_squeezed l : squeezed l = true → squeezed (JsString.trim_left l) = true.
Proof.
  induction l as [|c l IH]; intros Hs; [done|]. simpl.
  destruct (JsString.is_space c); [|done]. by eapply IH, squeezed_tail.
Qed.

Lemma trim_list s :
  JsString.trim s
  = string_of_list_ascii (trim_right (JsString.trim_left (list_ascii_of_string s))).
Proof. reflexivity. Qed.

(** Trimming squeezed text normalises it. *)
Lemma trim_squeezed_normalised s :
  squeezed (list_ascii_of_string s) = true → normalised (JsString.trim s) = true.
Proof.
  intros Hs. rewrite trim_list. unfold normalised.
  rewrite list_ascii_of_string_of_list_ascii.
  set (l := JsString.trim_left (list_ascii_of_string s)).
  assert (Hl : squeezed l = true) by (by apply trim_left_squeezed).
  pose proof (trim_right_single_spaced l Hl) as Hss.
  destruct l as [|c r] eqn:El; [done|].
  pose proof (trim_left_head _ _ _ El) as Hc.
  destruct (trim_right_head c r Hc) as [t Ht]. rewrite Ht in *.
  by rewrite Hc, Hss.
Qed.

(** The last three steps of the cleaning pass normalise any text. *)
Lemma final_steps_normalise text :
  normalised
    (JsString.trim
       (replace (lit "\n\s*\n" "g") nl (replace (lit "\s+" "g") " " text))) = true.
Proof.
  set (t1 := replace (lit "\s+" "g") " " text).
  assert (H1 : squeezed (list_ascii_of_string t1) = true).
  { subst t1. rewrite replace_global by reflexivity. rewrite compile_ws_plus.
    change (list_ascii_of_string " ") with [" "%char].
    rewrite list_ascii_of_string_of_list_ascii.
    apply replace_ws_squeezed. lia. }
  assert (H2 : replace (lit "\n\s*\n" "g") nl t1 = t1).
  { rewrite replace_global by reflexivity. rewrite compile_blank_line.
    rewrite replace_loop_no_match; [apply string_of_list_of_string|].
    apply lf_first_no_match; [reflexivity|]. by apply squeezed_no_lf. }
  rewrite H2. by apply trim_squeezed_normalised.
Qed.

End SpaceFacts.

(** X6.  Whatever the input, the text returned by [clean_extracted_content] is
    normalised: it neither starts nor ends with white space, and its only
    white space is single spaces (no line break, no tab, no run of spaces). *)
Theorem clean_output_normalised (content : string) :
  NoiseFilter.normalised (NoiseFilter.clean_extracted_content content) = true.
Proof.
  destruct (JsString.truthy content) eqn:Ht.
  - rewrite clean_unfold by done. apply final_steps_normalise.
  - unfold NoiseFilter.clean_extracted_content. rewrite Ht. reflexivity.
Qed.

(** ** Splitting on white space *)

Section SplitFacts.

Import Regex Spaces.

Lemma visible_list_app a b :
  List.filter (λ c, negb (JsString.is_space c)) (a ++ b)
  = List.filter (λ c, negb (JsString.is_space c)) a
    ++ List.filter (λ c, negb (JsString.is_space c)) b.
Proof. apply List.filter_app. Qed.

Lemma visible_take_ws l : List.filter (λ c, negb (JsString.is_space c)) (take_ws l) = [].
Proof.
  induction l as [|c l IH]; simpl; [done|].
  destruct (JsString.is_space c) eqn:Hc; simpl; [|done]. by rewrite Hc.
Qed.

Lemma visible_drop_ws l :
  List.filter (λ c, negb (JsString.is_space c)) (drop_ws l)
  = List.filter (λ c, negb (JsString.is_space c)) l.
Proof.
  rewrite <- (take_drop_ws l) at 2. by rewrite visible_list_app, visible_take_ws.
Qed.

Lemma visible_id l :
  Forall (λ c, JsString.is_space c = false) l →
  List.filter (λ c, negb (JsString.is_space c)) l = l.
Proof.
  induction 1 as [|c l Hc _ IH]; simpl; [done|]. by rewrite Hc, IH.
Qed.

(** The pieces of a text split on [\s+]: no piece holds white space, and
    together they hold the other code units of the text, in order. *)
Lemma split_ws_pieces fl : ∀ n piece prev s,
  length s < n →
  Forall (λ c, JsString.is_space c = false) piece →
  let pieces := split_loop n fl (Seq (Seq ws (Star ws)) Eps) piece prev s in
  Forall (Forall (λ c, JsString.is_space c = false)) pieces
  ∧ concat pieces
    = reverse piece ++ List.filter (λ c, negb (JsString.is_space c)) s.
Proof.
  induction n as [|n IH]; intros piece prev s Hn Hp; [lia|].
  assert (Hrev : Forall (λ c, JsString.is_space c = false) (reverse piece)).
  { by apply Forall_reverse. }
  destruct s as [|x s].
  - simpl. split; [constructor; [exact Hrev|constructor]|]. by rewrite !app_nil_r.
  - cbn [split_loop]. destruct (JsString.is_space x) eqn:Hx.
    + rewrite ws_plus_here by done.
      assert (Hlen : length (drop_ws s) < n).
      { pose proof (drop_ws_length s). simpl in Hn. lia. }
      pose proof (λ p, IH [] p (drop_ws s) Hlen (Forall_nil_2 _)) as IH'.
      cbv zeta in IH'.
      split; [constructor; [exact Hrev|apply IH']|].
      cbn [concat]. rewrite (proj2 (IH' _)). simpl. rewrite Hx. simpl.
      by rewrite visible_drop_ws.
    + rewrite ws_plus_here_other by done.
      destruct (IH (x :: piece) (Some x) s ltac:(simpl in Hn; lia)
                  ltac:(by constructor)) as [H1 H2].
      split; [done|]. rewrite H2. simpl. rewrite Hx. simpl.
      rewrite reverse_cons, <- app_assoc. done.
Qed.

Lemma compile_ws_rx : compile (rx "\s+") = Seq (Seq ws (Star ws)) Eps.
Proof. vm_compute. reflexivity. Qed.

Lemma split_ws_spec text :
  let pieces := map list_ascii_of_string (split (rx "\s+") text) in
  Forall (Forall (λ c, JsString.is_space c = false)) pieces
  ∧ concat pieces = visible text.
Proof.
  unfold split, visible. rewrite compile_ws_rx.
  destruct (list_ascii_of_string text) as [|c l] eqn:Hl.
  - rewrite ws_plus_nil. simpl. split; [by repeat constructor|done].
  - rewrite <- Hl. rewrite map_map.
    rewrite (map_ext _ id) by (intros; apply list_ascii_of_string_of_list_ascii).
    rewrite map_id.
    destruct (split_ws_pieces (parse_flags (lit_flags (rx "\s+")))
                (S (length (list_ascii_of_string text))) [] None
                (list_ascii_of_string text) ltac:(lia) (Forall_nil_2 _)) as [H1 H2].
    split; [exact H1|]. rewrite H2. done.
Qed.

(** The tokens: the non-empty pieces. *)
Lemma tokens_spec text :
  let tokens :=
    List.filter (λ word, 0 <? String.length word) (split (rx "\s+") text) in
  Forall (λ token, token ≠ EmptyString
                   ∧ Forall (λ c, JsString.is_space c = false)
                       (list_ascii_of_string token)) tokens
  ∧ concat (map list_ascii_of_string tokens) = visible text.
Proof.
  destruct (split_ws_spec text) as [H1 H2]. simpl in *.
  revert H1 H2. generalize (visible text) as v.
  induction (split (rx "\s+") text) as [|p ps IH]; intros v H1 H2; simpl in *.
  - done.
  - apply Forall_cons in H1 as [Hp Hps].
    destruct p as [|c p]; simpl in *.
    + by apply IH.
    + destruct (IH _ Hps eq_refl) as [H3 H4].
      split; [constructor; [done|exact H3]|].
      rewrite <- H2. simpl. by rewrite H4.
Qed.

Lemma visible_trim_left l :
  List.filter (λ c, negb (JsString.is_space c)) (JsString.trim_left l)
  = List.filter (λ c, negb (JsString.is_space c)) l.
Proof.
  induction l as [|c l IH]; simpl; [done|].
  destruct (JsString.is_space c) eqn:Hc; simpl; [done|]. by rewrite Hc.
Qed.

Lemma visible_reverse l :
  List.filter (λ c, negb (JsString.is_space c)) (reverse l)
  = reverse (List.filter (λ c, negb (JsString.is_space c)) l).
Proof.
  induction l as [|c l IH]; simpl; [done|].
  rewrite reverse_cons, visible_list_app, IH. simpl.
  destruct (JsString.is_space c); simpl; [by rewrite app_nil_r|].
  by rewrite reverse_cons.
Qed.

(** [trim] removes white space only. *)
Lemma visible_trim s : visible (JsString.trim s) = visible s.
Proof.
  unfold visible. rewrite trim_list, list_ascii_of_string_of_list_ascii.
  unfold trim_right.
  by rewrite visible_reverse, visible_trim_left, visible_reverse, reverse_involutive,
    visible_trim_left.
Qed.

Lemma trim_left_nil l :
  JsString.trim_left l = [] ↔ forallb JsString.is_space l = true.
Proof.
  induction l as [|c l IH]; simpl; [done|].
  destruct (JsString.is_space c); simpl; [done|]. split; discriminate.
Qed.

Lemma visible_nil l :
  List.filter (λ c, negb (JsString.is_space c)) l = [] ↔ forallb JsString.is_space l = true.
Proof.
  induction l as [|c l IH]; simpl; [done|].
  destruct (JsString.is_space c); simpl; [done|]. split; discriminate.
Qed.

(** [trim] gives the empty string exactly on blank text. *)
Lemma trim_empty_iff s : JsString.trim s = EmptyString ↔ blank s = true.
Proof.
  unfold blank. rewrite <- visible_nil. fold (visible s).
  rewrite <- visible_trim. split.
  - intros ->. reflexivity.
  - intros Hv. rewrite trim_list in *. unfold visible in Hv.
    rewrite list_ascii_of_string_of_list_ascii in Hv.
    set (l := JsString.trim_left (list_ascii_of_string s)) in *.
    destruct l as [|c r] eqn:El; [reflexivity|].
    pose proof (trim_left_head _ _ _ El) as Hc.
    destruct (trim_right_head c r Hc) as [t Ht]. rewrite Ht in Hv.
    simpl in Hv. by rewrite Hc in Hv.
Qed.

Lemma trim_left_fixed l :
  match l with c :: _ => JsString.is_space c = false | [] => True end →
  JsString.trim_left l = l.
Proof. destruct l as [|c l]; simpl; [done|]. by intros ->. Qed.

Lemma trim_left_idemp l : JsString.trim_left (JsString.trim_left l) = JsString.trim_left l.
Proof.
  apply trim_left_fixed. destruct (JsString.trim_left l) as [|c r] eqn:El; [done|].
  by eapply trim_left_head.
Qed.

Lemma trim_right_idemp l : trim_right (trim_right l) = trim_right l.
Proof. unfold trim_right. by rewrite reverse_involutive, trim_left_idemp. Qed.

Lemma trim_right_keeps_head l :
  match l with c :: _ => JsString.is_space c = false | [] => True end →
  match trim_right l with c :: _ => JsString.is_space c = false | [] => True end.
Proof.
  destruct l as [|c l]; [done|]. intros Hc.
  destruct (trim_right_head c l Hc) as [t ->]. done.
Qed.

(** [trim] is idempotent. *)
Lemma trim_idemp s : JsString.trim (JsString.trim s) = JsString.trim s.
Proof.
  rewrite (trim_list (JsString.trim s)). rewrite (trim_list s).
  rewrite list_ascii_of_string_of_list_ascii.
  set (l := JsString.trim_left (list_ascii_of_string s)).
  rewrite trim_left_fixed.
  - by rewrite trim_right_idemp.
  - apply trim_right_keeps_head. subst l.
    destruct (JsString.trim_left (list_ascii_of_string s)) as [|c r] eqn:El; [done|].
    by eapply trim_left_head.
Qed.

End SplitFacts.

(** X7.  [word_tokenize] returns tokens that are not empty and hold no white
    space; put end to end, the tokens are the text without its white space. *)
Theorem word_tokenize_tokens (text : string) :
  Forall (λ token, token ≠ EmptyString
                   ∧ Forall (λ c, JsString.is_space c = false)
                       (list_ascii_of_string token))
    (Author.word_tokenize text)
  ∧ concat (map list_ascii_of_string (Author.word_tokenize text)) = Spaces.visible text.
Proof. apply tokens_spec. Qed.

(** ** Choosing the content *)

Section ContentFacts.

Import GeneralParser Content Spaces.

(** The order of the doubles: [<] is transitive, also along [<=], and
    excludes [>=].  [NaN] is in no relation. *)
Ltac order_cases :=
  repeat match goal with
         | H : context [PosDef.Pos.compare_cont Eq ?a ?b] |- _ =>
             change (PosDef.Pos.compare_cont Eq a b) with (Pos.compare a b) in H
         | |- context [PosDef.Pos.compare_cont Eq ?a ?b] =>
             change (PosDef.Pos.compare_cont Eq a b) with (Pos.compare a b)
         end;
  repeat match goal with
         | H : context [(?a ?= ?b)%Z] |- _ =>
             destruct (Z.compare_spec a b); try discriminate H
         | |- context [(?a ?= ?b)%Z] => destruct (Z.compare_spec a b)
         | H : context [(?a ?= ?b)%positive] |- _ =>
             destruct (Pos.compare_spec a b); try discriminate H
         | |- context [(?a ?= ?b)%positive] => destruct (Pos.compare_spec a b)
         end;
  simpl in *; try done; try lia.

Lemma ltb_trans a b c :
  Float64.ltb a b = true → Float64.ltb b c = true → Float64.ltb a c = true.
Proof.
  unfold Float64.ltb, SFltb, SFcompare.
  destruct a as [[]|[]| |[] ma ea], b as [[]|[]| |[] mb eb], c as [[]|[]| |[] mc ec];
    try done; intros H1 H2; order_cases.
Qed.

Lemma ltb_leb_trans a b c :
  Float64.ltb a b = true → Float64.leb b c = true → Float64.ltb a c = true.
Proof.
  unfold Float64.ltb, Float64.leb, SFltb, SFleb, SFcompare.
  destruct a as [[]|[]| |[] ma ea], b as [[]|[]| |[] mb eb], c as [[]|[]| |[] mc ec];
    try done; intros H1 H2; order_cases.
Qed.

Lemma ltb_not_leb a b : Float64.ltb a b = true → Float64.leb b a = false.
Proof.
  unfold Float64.ltb, Float64.leb, SFltb, SFleb, SFcompare.
  destruct a as [[]|[]| |[] ma ea], b as [[]|[]| |[] mb eb];
    try done; intros H1; order_cases.
Qed.

(** A score that does not exceed [s] does not reach a score above [s]. *)
Lemma not_above_below s x e :
  Float64.ltb s x = false → Float64.ltb s e = true → Float64.leb e x = false.
Proof.
  intros Hx He. destruct (Float64.leb e x) eqn:Hle; [|done].
  by rewrite (ltb_leb_trans s e x He Hle) in Hx.
Qed.

(** The loop over the candidates: either the state is unchanged and no
    candidate long enough exceeds the score, or the state holds the first of
    the best candidates. *)
Lemma consider_fold minLength : ∀ candidates b s,
  (foldl (consider minLength) (b, s) candidates = (b, s)
   ∧ ∀ c, c ∈ candidates → minLength ≤ String.length (textContent c) →
          Float64.ltb s (score_of c) = false)
  ∨ ∃ before el after,
      candidates = before ++ el :: after
      ∧ foldl (consider minLength) (b, s) candidates = (Some el, score_of el)
      ∧ minLength ≤ String.length (textContent el)
      ∧ Float64.ltb s (score_of el) = true
      ∧ (∀ c, c ∈ before → minLength ≤ String.length (textContent c) →
              Float64.leb (score_of el) (score_of c) = false)
      ∧ (∀ c, c ∈ after → minLength ≤ String.length (textContent c) →
              Float64.ltb (score_of el) (score_of c) = false).
Proof.
  induction candidates as [|x rest IH]; intros b s.
  - left. split; [done|]. intros c Hc. by apply elem_of_nil in Hc.
  - cbn [foldl].
    assert (Hstep : consider minLength (b, s) x
                    = if Float64.ltb s (score_of x)
                         && (minLength <=? String.length (textContent x))
                      then (Some x, score_of x) else (b, s)) by reflexivity.
    rewrite Hstep. clear Hstep.
    destruct (Float64.ltb s (score_of x)) eqn:Hgt; cbn [andb].
    + destruct (minLength <=? String.length (textContent x)) eqn:Hlen.
      * apply Nat.leb_le in Hlen.
        destruct (IH (Some x) (score_of x)) as [[Hr Hall]|Hfound].
        -- right. exists [], x, rest. split; [done|]. split; [exact Hr|].
           split; [done|]. split; [done|]. split; [|exact Hall].
           intros c Hc. by apply elem_of_nil in Hc.
        -- destruct Hfound as (before & el & after & -> & Hr & Hel & Hlt & Hb & Ha).
           right. exists (x :: before), el, after.
           split; [done|]. split; [exact Hr|]. split; [done|].
           split; [by eapply ltb_trans|]. split; [|exact Ha].
           intros c [->|Hc]%elem_of_cons Hc'; [by apply ltb_not_leb|by apply Hb].
      * apply Nat.leb_gt in Hlen.
        destruct (IH b s) as [[Hr Hall]|Hfound].
        -- left. split; [exact Hr|].
           intros c [->|Hc]%elem_of_cons Hc'; [lia|by apply Hall].
        -- destruct Hfound as (before & el & after & -> & Hr & Hel & Hlt & Hb & Ha).
           right. exists (x :: before), el, after.
           split; [done|]. split; [exact Hr|]. split; [done|]. split; [done|].
           split; [|exact Ha].
           intros c [->|Hc]%elem_of_cons Hc'; [lia|by apply Hb].
    + destruct (IH b s) as [[Hr Hall]|Hfound].
      * left. split; [exact Hr|].
        intros c [->|Hc]%elem_of_cons Hc'; [done|by apply Hall].
      * destruct Hfound as (before & el & after & -> & Hr & Hel & Hlt & Hb & Ha).
        right. exists (x :: before), el, after.
        split; [done|]. split; [exact Hr|]. split; [done|]. split; [done|].
        split; [|exact Ha].
        intros c [->|Hc]%elem_of_cons Hc'; [by eapply not_above_below|by apply Hb].
Qed.

(** The final loop of [extractContent]: the first result that is a string
    with something else than white space. *)
Lemma first_usable_first results :
  match first_usable results with
  | Some content =>
      ∃ before after,
        results = before ++ Some content :: after
        ∧ Forall (λ r, ∀ c, r = Some c → JsString.trim c = EmptyString) before
  | None => Forall (λ r, ∀ c, r = Some c → JsString.trim c = EmptyString) results
  end.
Proof.
  induction results as [|r rest IH]; cbn [first_usable]; [by constructor|].
  assert (Hskip : (∀ c, r = Some c → JsString.trim c = EmptyString) →
            match first_usable rest with
            | Some content =>
                ∃ before after,
                  r :: rest = before ++ Some content :: after
                  ∧ Forall (λ r, ∀ c, r = Some c → JsString.trim c = EmptyString) before
            | None =>
                Forall (λ r, ∀ c, r = Some c → JsString.trim c = EmptyString) (r :: rest)
            end).
  { intros Hr. destruct (first_usable rest) as [content|].
    - destruct IH as (before & after & -> & Hb).
      exists (r :: before), after. split; [done|]. by constructor.
    - by constructor. }
  destruct r as [c|]; [|by apply Hskip].
  destruct (JsString.truthy c) eqn:Ht; cbn [andb].
  - destruct (String.length (JsString.trim c)) as [|n] eqn:Hl; cbn [Nat.ltb Nat.leb].
    + apply Hskip. intros c' [= <-]. by destruct (JsString.trim c).
    + exists [], rest. split; [done|]. constructor.
  - apply Hskip. intros c' [= <-].
    unfold JsString.truthy in Ht. apply negb_false_iff, String.eqb_eq in Ht.
    by rewrite Ht.
Qed.

Lemma first_usable_spec results content :
  first_usable results = Some content →
  Some content ∈ results ∧ content ≠ EmptyString ∧ JsString.trim content ≠ EmptyString.
Proof.
  induction results as [|r rest IH]; simpl; [done|].
  destruct r as [c|].
  - destruct (JsString.truthy c) eqn:Ht; simpl.
    + destruct (String.length (JsString.trim c)) as [|n] eqn:Hl; simpl.
      * intros H. destruct (IH H) as (? & ? & ?). split; [by right|done].
      * intros [= <-]. split; [by left|]. split; [by apply truthy_spec|].
        intros He. by rewrite He in Hl.
    + intros H. destruct (IH H) as (? & ? & ?). split; [by right|done].
  - intros H. destruct (IH H) as (? & ? & ?). split; [by right|done].
Qed.




Lemma extract_content_facts results body_text :
  Content.extractContent results body_text ≠ EmptyString
  ∧ JsString.trim (Content.extractContent results body_text) ≠ EmptyString.
Proof.
  unfold Content.extractContent.
  destruct (Content.first_usable results) as [c|] eqn:Hf.
  - by destruct (first_usable_spec _ _ Hf) as (H1 & H2 & H3).
  - destruct body_text as [text|]; [|split; [done|by vm_compute]].
    destruct (JsString.truthy (JsString.trim text)) eqn:Ht.
    + apply truthy_spec in Ht. by rewrite trim_idemp.
    + split; [done|by vm_compute].
Qed.

End ContentFacts.

(** X8.  The candidate loop of [extractContent] (second strategy) and of
    [extractContentWithHtml] keeps the first candidate of greatest score among
    those whose text has the minimum length, provided that score is above
    zero: no such candidate before it reaches its score, and none after it
    exceeds it.  When it keeps nothing, no candidate with enough text scores
    above zero.  The scores are compared as the doubles they are. *)
Theorem best_element_first_maximal (minLength : nat) (candidates : list GeneralParser.node) :
  match Content.best_element minLength candidates with
  | Some el =>
      ∃ before after,
        candidates = before ++ el :: after
        ∧ minLength ≤ String.length (GeneralParser.textContent el)
        ∧ Float64.ltb (Float64.of_Z 0) (Content.score_of el) = true
        ∧ (∀ c, c ∈ before → minLength ≤ String.length (GeneralParser.textContent c) →
                Float64.leb (Content.score_of el) (Content.score_of c) = false)
        ∧ (∀ c, c ∈ after → minLength ≤ String.length (GeneralParser.textContent c) →
                Float64.ltb (Content.score_of el) (Content.score_of c) = false)
  | None =>
      ∀ c, c ∈ candidates → minLength ≤ String.length (GeneralParser.textContent c) →
           Float64.ltb (Float64.of_Z 0) (Content.score_of c) = false
  end.
Proof.
  unfold Content.best_element.
  destruct (consider_fold minLength candidates None (Float64.of_Z 0))
    as [[Hr Hall]|Hfound].
  - rewrite Hr. exact Hall.
  - destruct Hfound as (before & el & after & Hc & Hr & Hel & Hlt & Hb & Ha).
    rewrite Hr. cbn [fst]. exists before, after. done.
Qed.

(** Two candidates of 150 code units whose scores are both 250/3 on paper:
    one link gives 150 - (1/1.5)*100, four paragraphs and four links give
    350 - (4/1.5)*100.  In double precision the second is the greater, and
    it is the one kept. *)
Example best_element_rounding_example :
  let text := GeneralParser.Text (string_of_list_ascii (replicate 150 "a"%char)) in
  let link := GeneralParser.Element "a" None None [] in
  let paragraph := GeneralParser.Element "p" None None [] in
  let one_link := GeneralParser.Element "div" None None [link; text] in
  let four_links :=
    GeneralParser.Element "div" None None
      [paragraph; paragraph; paragraph; paragraph; link; link; link; link; text] in
  Content.score_of one_link = S754_finite false 5864062014805334 (-46)
  ∧ Content.score_of four_links = S754_finite false 5864062014805336 (-46)
  ∧ Content.best_element 50 [one_link; four_links] = Some four_links.
Proof. vm_compute. repeat split; reflexivity. Qed.

(** X9.  [extractContent] never returns the empty string nor blank text: it
    returns the first strategy result that is not blank; when every strategy
    result is null or blank, the trimmed text of the body if that is not
    empty, and "No content found" otherwise. *)
Theorem extract_content_never_blank (results : list (option string))
    (body_text : option string) :
  let content := Content.extractContent results body_text in
  let unusable (result : option string) :=
    ∀ c, result = Some c → JsString.trim c = EmptyString in
  content ≠ EmptyString
  ∧ JsString.trim content ≠ EmptyString
  ∧ ((∃ before after,
        results = before ++ Some content :: after ∧ Forall unusable before)
     ∨ (Forall unusable results
        ∧ ∃ text, body_text = Some text ∧ JsString.trim text ≠ EmptyString
                  ∧ content = JsString.trim text)
     ∨ (Forall unusable results
        ∧ (∀ text, body_text = Some text → JsString.trim text = EmptyString)
        ∧ content = "No content found")).
Proof.
  cbv zeta. split; [apply extract_content_facts|]. split; [apply extract_content_facts|].
  unfold Content.extractContent.
  pose proof (first_usable_first results) as Hfirst.
  destruct (Content.first_usable results) as [c|] eqn:Hf.
  - left. exact Hfirst.
  - right. destruct body_text as [text|].
    + destruct (JsString.truthy (JsString.trim text)) eqn:Ht.
      * left. split; [done|]. exists text. by apply truthy_spec in Ht.
      * right. split; [done|]. split; [|done]. intros t [= <-].
        unfold JsString.truthy in Ht. by apply negb_false_iff, String.eqb_eq in Ht.
    + right. split; [done|]. split; [|done]. intros t Ht. discriminate Ht.
Qed.


(** ** Links, images and keywords *)

Section MetadataFacts.

Import Metadata Spaces.

Variable url_parses : string → bool.
Variable url_href : string → string → option string.

Lemma add_link_cases baseUrl links href :
  (add_link url_parses url_href baseUrl links href = links
   ∧ (link_wanted url_parses href = true → length links < 20 →
      resolveUrl url_href href baseUrl ∈ links))
  ∨ (add_link url_parses url_href baseUrl links href
     = links ++ [resolveUrl url_href href baseUrl]
     ∧ link_wanted url_parses href = true ∧ length links < 20
     ∧ resolveUrl url_href href baseUrl ∉ links).
Proof.
  unfold add_link. fold (link_wanted url_parses href).
  destruct (link_wanted url_parses href); [|by left].
  case_bool_decide as Hin; simpl; [by left|].
  destruct (length links <? 20) eqn:Hlen.
  - apply Nat.ltb_lt in Hlen. by right.
  - apply Nat.ltb_ge in Hlen. left. split; [done|]. intros _ ?. lia.
Qed.

Lemma add_link_fold baseUrl hrefs : ∀ links,
  length links ≤ 20 → NoDup links →
  let r := foldl (add_link url_parses url_href baseUrl) links hrefs in
  length r ≤ 20 ∧ NoDup r
  ∧ length links ≤ length r
  ∧ (∀ link, link ∈ links → link ∈ r)
  ∧ (∀ link, link ∈ r →
       link ∈ links
       ∨ ∃ href, href ∈ hrefs ∧ link_wanted url_parses href = true
                 ∧ link = resolveUrl url_href href baseUrl)
  ∧ (length r < 20 →
     ∀ href, href ∈ hrefs → link_wanted url_parses href = true →
             resolveUrl url_href href baseUrl ∈ r).
Proof.
  induction hrefs as [|href hrefs IH]; intros links Hlen Hnd; simpl.
  - split; [done|]. split; [done|]. split; [done|]. split; [done|].
    split; [by left|]. intros _ href Hin. by apply elem_of_nil in Hin.
  - destruct (add_link_cases baseUrl links href) as [[Heq Hskip]|(Heq & Hv & Hl & Hnew)];
      rewrite Heq.
    + destruct (IH links Hlen Hnd) as (H1 & H2 & H3 & H4 & H5 & H6).
      split; [done|]. split; [done|]. split; [done|]. split; [done|]. split.
      * intros link Hin. destruct (H5 link Hin) as [?|(h & Hh & ?)]; [by left|].
        right. exists h. split; [by right|done].
      * intros Hr h [->|Hh]%elem_of_cons Hvh; [|by apply H6].
        apply H4, Hskip; [done|lia].
    + assert (Hlen' : length (links ++ [resolveUrl url_href href baseUrl]) ≤ 20).
      { rewrite length_app. simpl. lia. }
      assert (Hnd' : NoDup (links ++ [resolveUrl url_href href baseUrl])).
      { apply NoDup_app. split; [done|]. split; [|apply NoDup_singleton].
        intros x Hx ->%list_elem_of_singleton. done. }
      destruct (IH _ Hlen' Hnd') as (H1 & H2 & H3 & H4 & H5 & H6).
      rewrite length_app in H3. simpl in H3.
      split; [done|]. split; [done|]. split; [lia|]. split.
      * intros link Hin. apply H4, elem_of_app. by left.
      * split.
        -- intros link Hin.
           destruct (H5 link Hin) as [Hk|(h & Hh & ?)].
           ++ apply elem_of_app in Hk as [?|Hk]; [by left|].
              apply list_elem_of_singleton in Hk as ->.
              right. exists href. split; [by left|done].
           ++ right. exists h. split; [by right|done].
        -- intros Hr h [->|Hh]%elem_of_cons Hvh; [|by apply H6].
           apply H4, elem_of_app. right. by apply list_elem_of_singleton.
Qed.

Lemma add_image_fold baseUrl urls : ∀ images,
  NoDup images →
  let r := foldl (add_image url_parses url_href baseUrl) images urls in
  NoDup r
  ∧ (∀ image, image ∈ r →
       image ∈ images
       ∨ ∃ src, src ∈ urls ∧ image_wanted url_parses src = true ∧ image = resolveUrl url_href src baseUrl).
Proof.
  induction urls as [|src urls IH]; intros images Hnd; simpl.
  - split; [done|]. by left.
  - assert (Hstep : NoDup (add_image url_parses url_href baseUrl images src)
                    ∧ ∀ image, image ∈ add_image url_parses url_href baseUrl images src →
                        image ∈ images
                        ∨ (image_wanted url_parses src = true
                           ∧ image = resolveUrl url_href src baseUrl)).
    { unfold add_image. fold (image_wanted url_parses src).
      destruct (image_wanted url_parses src); [|by auto].
      case_bool_decide as Hin; [by auto|]. split.
      - apply NoDup_app. split; [done|]. split; [|apply NoDup_singleton].
        intros x Hx ->%list_elem_of_singleton. done.
      - intros image Him. apply elem_of_app in Him as [?|Him]; [by left|].
        apply list_elem_of_singleton in Him as ->. by right. }
    destruct Hstep as [Hnd' Hfrom].
    destruct (IH _ Hnd') as [H1 H2]. split; [done|].
    intros image Hin. destruct (H2 image Hin) as [Him|(s & Hs & Hv & ->)].
    + destruct (Hfrom image Him) as [?|[Hv ->]]; [by left|].
      right. exists src. split; [by left|done].
    + right. exists s. split; [by right|done].
Qed.

Lemma collect_images_inv baseUrl sources : ∀ images,
  NoDup images →
  let r := collect_images url_parses url_href baseUrl images sources in
  NoDup r
  ∧ (∀ image, image ∈ r →
       image ∈ images
       ∨ ∃ urls src, urls ∈ sources ∧ src ∈ urls ∧ image_wanted url_parses src = true
                     ∧ image = resolveUrl url_href src baseUrl).
Proof.
  induction sources as [|urls rest IH]; intros images Hnd; cbn [collect_images]; cbv zeta.
  - split; [done|]. by left.
  - destruct (add_image_fold baseUrl urls images Hnd) as [Hnd' Hfrom].
    set (found := foldl _ images urls) in *.
    assert (Hfrom' : ∀ image, image ∈ found →
              image ∈ images
              ∨ ∃ urls0 src, urls0 ∈ urls :: rest ∧ src ∈ urls0 ∧ image_wanted url_parses src = true
                             ∧ image = resolveUrl url_href src baseUrl).
    { intros image Hin. destruct (Hfrom image Hin) as [?|(s & Hs & Hv & ->)]; [by left|].
      right. exists urls, s. split; [by left|done]. }
    destruct (5 <=? length found); [by split|].
    destruct (IH found Hnd') as [H1 H2]. split; [done|].
    intros image Hin. destruct (H2 image Hin) as [Him|(u & s & Hu & Hs & Hv & ->)].
    + by apply Hfrom'.
    + right. exists u, s. split; [by right|done].
Qed.

Lemma collect_images_cut baseUrl urls after : ∀ before images,
  5 ≤ length (collect_images url_parses url_href baseUrl images (before ++ [urls])) →
  collect_images url_parses url_href baseUrl images (before ++ urls :: after)
  = collect_images url_parses url_href baseUrl images (before ++ [urls]).
Proof.
  induction before as [|u before IH]; intros images; cbn [collect_images app]; cbv zeta.
  - destruct (5 <=? length (foldl _ images urls)) eqn:Hlen; [done|].
    apply Nat.leb_gt in Hlen. lia.
  - destruct (5 <=? length (foldl _ images u)); [done|]. apply IH.
Qed.

Lemma valid_image_clean src :
  isValidImageUrl url_parses src = true →
  JsString.startsWith "data:" src = false
  ∧ JsString.includes "icon" src = false ∧ JsString.includes "logo" src = false
  ∧ JsString.includes "favicon" src = false ∧ JsString.includes "sprite" src = false.
Proof.
  unfold isValidImageUrl. destruct (JsString.truthy src); simpl; [|done].
  destruct (JsString.startsWith "data:" src); simpl; [done|].
  destruct (JsString.includes "icon" src); simpl; [done|].
  destruct (JsString.includes "logo" src); simpl; [done|].
  destruct (JsString.includes "favicon" src); simpl; [done|].
  destruct (JsString.includes "sprite" src); simpl; done.
Qed.

End MetadataFacts.

Section ListFacts.

Import Spaces.

Lemma split_on_no_sep sep s :
  Forall (λ piece, sep ∉ list_ascii_of_string piece) (JsString.split_on sep s).
Proof.
  induction s as [|c s IH]; simpl.
  - constructor; [|done]. apply not_elem_of_nil.
  - destruct (Ascii.eqb_spec c sep) as [->|Hne].
    + constructor; [|done]. apply not_elem_of_nil.
    + destruct (JsString.split_on sep s) as [|piece pieces].
      * constructor; [|done]. simpl. intros [?|?%elem_of_nil]%elem_of_cons; done.
      * apply Forall_cons in IH as [Hp Hps]. constructor; [|done].
        simpl. intros [?|?]%elem_of_cons; done.
Qed.

Lemma split_on_cons sep s : ∃ piece pieces, JsString.split_on sep s = piece :: pieces.
Proof.
  destruct s as [|c s]; simpl; [by eauto|].
  destruct (Ascii.eqb c sep); [by eauto|].
  destruct (JsString.split_on sep s); eauto.
Qed.

Lemma join_cons_char sep c piece pieces :
  JsString.join sep (String c piece :: pieces) = String c (JsString.join sep (piece :: pieces)).
Proof. destruct pieces; reflexivity. Qed.

(** Splitting on a separator and joining with it gives the text back. *)
Lemma join_split_on sep s :
  JsString.join (String sep EmptyString) (JsString.split_on sep s) = s.
Proof.
  induction s as [|c s IH]; [done|]. cbn [JsString.split_on].
  destruct (split_on_cons sep s) as (piece & pieces & Hs). rewrite Hs in *.
  destruct (Ascii.eqb_spec c sep) as [->|Hne].
  - change (JsString.join (String sep EmptyString) (EmptyString :: piece :: pieces))
      with (String sep (JsString.join (String sep EmptyString) (piece :: pieces))).
    by rewrite IH.
  - by rewrite join_cons_char, IH.
Qed.

Lemma trim_left_sub l c : c ∈ JsString.trim_left l → c ∈ l.
Proof.
  induction l as [|x l IH]; simpl; [done|].
  destruct (JsString.is_space x); [|done]. intros H. right. by apply IH.
Qed.

Lemma trim_sub s c :
  c ∈ list_ascii_of_string (JsString.trim s) → c ∈ list_ascii_of_string s.
Proof.
  rewrite trim_list, list_ascii_of_string_of_list_ascii. unfold trim_right.
  intros H. rewrite elem_of_reverse in H. apply trim_left_sub in H.
  rewrite elem_of_reverse in H. by apply trim_left_sub.
Qed.

(** The entries of [text.split(sep).map(trim).filter(Boolean)]. *)
Lemma split_trim_entries sep text :
  Forall (λ entry, entry ≠ EmptyString ∧ JsString.trim entry = entry
                   ∧ sep ∉ list_ascii_of_string entry)
    (List.filter JsString.truthy (map JsString.trim (JsString.split_on sep text))).
Proof.
  pose proof (split_on_no_sep sep text) as Hsep.
  induction (JsString.split_on sep text) as [|p ps IH]; simpl; [done|].
  apply Forall_cons in Hsep as [Hp Hps].
  destruct (JsString.truthy (JsString.trim p)) eqn:Ht; [|by apply IH].
  constructor; [|by apply IH].
  split; [by apply truthy_spec|]. split; [apply trim_idemp|].
  intros Hin. by apply Hp, trim_sub.
Qed.

End ListFacts.

(** X11.  The links of the metadata: at most twenty, without repetition, each
    the resolved form of a non-empty [href] that [isValidUrl] accepts and that
    does not start with "#"; and as long as fewer than twenty are collected,
    every such [href] is represented. *)
Theorem metadata_links_bounded (url_parses : string → bool)
    (url_href : string → string → option string)
    (baseUrl : option string) (hrefs : list string) :
  let links := Metadata.collect_links url_parses url_href baseUrl hrefs in
  length links ≤ 20
  ∧ NoDup links
  ∧ (∀ link, link ∈ links →
       ∃ href, href ∈ hrefs
         ∧ href ≠ EmptyString ∧ Metadata.isValidUrl url_parses href = true
         ∧ JsString.startsWith "#" href = false
         ∧ link = Metadata.resolveUrl url_href href baseUrl)
  ∧ (length links < 20 →
     ∀ href, href ∈ hrefs →
       href ≠ EmptyString → Metadata.isValidUrl url_parses href = true →
       JsString.startsWith "#" href = false →
       Metadata.resolveUrl url_href href baseUrl ∈ links)
  ∧ Metadata.metadata_links url_parses url_href true hrefs baseUrl = None
  ∧ Metadata.metadata_links url_parses url_href false hrefs baseUrl
    = match links with
      | [] => None
      | _ => Some links
      end.
Proof.
  simpl. unfold Metadata.metadata_links. fold (Metadata.collect_links url_parses url_href baseUrl hrefs).
  assert (Hm : (if 0 <? length (Metadata.collect_links url_parses url_href baseUrl hrefs)
                then Some (Metadata.collect_links url_parses url_href baseUrl hrefs)
                else None)
               = match Metadata.collect_links url_parses url_href baseUrl hrefs with
                 | [] => None
                 | _ => Some (Metadata.collect_links url_parses url_href baseUrl hrefs)
                 end).
  { by destruct (Metadata.collect_links url_parses url_href baseUrl hrefs). }
  rewrite Hm. clear Hm.
  unfold Metadata.collect_links.
  destruct (add_link_fold url_parses url_href baseUrl hrefs [] ltac:(simpl; lia)
              (NoDup_nil_2)) as (H1 & H2 & _ & _ & H5 & H6).
  split; [done|]. split; [done|]. split; [|split; [|done]].
  - intros link Hin. destruct (H5 link Hin) as [Hn|(href & Hh & Hw & ->)].
    + by apply elem_of_nil in Hn.
    + exists href. split; [done|].
      unfold Metadata.link_wanted in Hw.
      apply andb_prop in Hw as [[Ht Hv]%andb_prop Hs%negb_true_iff].
      by apply truthy_spec in Ht.
  - intros Hlen href Hh Hne Hv Hs. apply H6; [done|done|].
    unfold Metadata.link_wanted. apply truthy_spec in Hne. by rewrite Hne, Hv, Hs.
Qed.

(** X12.  The images of the metadata: without repetition, each the resolved
    form of a value of one of the sources that is not a data URL and does not
    contain "icon", "logo", "favicon" or "sprite"; and the sources after the
    first one that leaves five images or more are not consulted. *)
Theorem metadata_images_distinct (url_parses : string → bool)
    (url_href : string → string → option string)
    (baseUrl : option string) (doc : Metadata.ImageQueries) (sources : list (list string)) :
  let collect := Metadata.collect_images url_parses url_href baseUrl [] in
  Metadata.metadata_images url_parses url_href doc baseUrl
  = match collect (Metadata.imageSources doc) with
    | [] => None
    | images => Some images
    end
  ∧ NoDup (collect sources)
  ∧ (∀ image, image ∈ collect sources →
       ∃ urls src, urls ∈ sources ∧ src ∈ urls
         ∧ src ≠ EmptyString
         ∧ JsString.startsWith "data:" src = false
         ∧ JsString.includes "icon" src = false ∧ JsString.includes "logo" src = false
         ∧ JsString.includes "favicon" src = false ∧ JsString.includes "sprite" src = false
         ∧ image = Metadata.resolveUrl url_href src baseUrl)
  ∧ (∀ before urls after,
       sources = before ++ urls :: after →
       5 ≤ length (collect (before ++ [urls])) →
       collect sources = collect (before ++ [urls])).
Proof.
  cbv zeta. split.
  { unfold Metadata.metadata_images. cbv zeta.
    by destruct (Metadata.collect_images url_parses url_href baseUrl []
                   (Metadata.imageSources doc)). }
  destruct (collect_images_inv url_parses url_href baseUrl sources [] (NoDup_nil_2))
    as [H1 H2].
  split; [done|]. split.
  - intros image Hin. destruct (H2 image Hin) as [Hn|(urls & src & Hu & Hs & Hw & ->)].
    + by apply elem_of_nil in Hn.
    + exists urls, src. split; [done|]. split; [done|].
      unfold Metadata.image_wanted in Hw. apply andb_prop in Hw as [Hne Hv].
      split; [by apply truthy_spec|].
      destruct (valid_image_clean url_parses src Hv) as (? & ? & ? & ? & ?). done.
  - intros before urls after -> Hlen. by apply collect_images_cut.
Qed.

(** X13.  The sections of an article and the keywords of the metadata are read
    from a comma-separated text: each entry is non-empty, has no white space
    at either end and holds no comma. No sections are reported exactly when
    the section element is missing or its content is blank. *)
Theorem comma_separated_entries (pg : NewsExtract.Page) (keywords : string) :
  let entry_ok entry :=
    entry ≠ EmptyString ∧ JsString.trim entry = entry
    ∧ ","%char ∉ list_ascii_of_string entry in
  (∀ sections, NewsExtract.extract_article_sections pg = Some sections →
               Forall entry_ok sections)
  ∧ (NewsExtract.extract_article_sections pg = None
     ↔ ∀ metaContent, NewsExtract.q_section pg = Some metaContent →
                      Spaces.blank metaContent = true)
  ∧ Forall entry_ok (Metadata.keywords_of keywords).
Proof.
  simpl. unfold NewsExtract.extract_article_sections, Metadata.keywords_of.
  split; [|split].
  - intros sections. destruct (NewsExtract.q_section pg) as [m|]; [|done].
    destruct (JsString.truthy m && JsString.truthy (JsString.trim m)); [|done].
    intros [= <-]. apply split_trim_entries.
  - destruct (NewsExtract.q_section pg) as [m|]; [|done].
    destruct (JsString.truthy (JsString.trim m)) eqn:Ht.
    + assert (Hm : JsString.truthy m = true).
      { destruct m; [by vm_compute in Ht|done]. }
      rewrite Hm. simpl. split; [done|]. intros Hb. exfalso.
      specialize (Hb m eq_refl). apply trim_empty_iff in Hb.
      apply truthy_spec in Ht. done.
    + rewrite andb_false_r. split; [|done]. intros _ m' [= <-].
      apply trim_empty_iff. unfold JsString.truthy in Ht.
      apply negb_false_iff in Ht. by apply String.eqb_eq.
  - apply split_trim_entries.
Qed.

(** ** The field extractor: further properties *)

Section ExtractFacts.

Import Regex NewsExtract.

Lemma new_cases `{JsDate} url source fqdn pg :
  (url = EmptyString ∧ new url source fqdn pg = Throw "Invalid URL passed")
  ∨ (url ≠ EmptyString ∧ (source = None ∨ source = Some EmptyString)
     ∧ new url source fqdn pg = Throw "No Page Source passed")
  ∨ (url ≠ EmptyString
     ∧ ∃ html article,
         source = Some html ∧ html ≠ EmptyString
         ∧ get_newspaper3k_extract html pg = Some article
         ∧ new url source fqdn pg
           = Ok (mk url fqdn
                   (get_and_validate_content_parser fqdn pg (Some article)).2
                   (get_title (if JsString.truthy (a_title article)
                               then Some (a_title article) else None) (Some article))
                   (Some (get_authors (Some (a_authors article)) (Some article) html))
                   (get_publish_date url (Some article) html)
                   (Some (get_images (Some article)))
                   (get_content (get_and_validate_content_parser fqdn pg (Some article)).1)
                   (if JsString.truthy (a_meta_lang article) then a_meta_lang article else "en")
                   true (extract_article_sections pg) (q_hostname pg))).
Proof.
  unfold new. destruct (JsString.truthy url) eqn:Hu; cbn [negb].
  - apply truthy_spec in Hu. right.
    destruct source as [html|]; [|left; auto].
    destruct (JsString.truthy html) eqn:Hh; cbn [negb].
    + right. split; [done|].
      assert (Ha : ∃ article, get_newspaper3k_extract html pg = Some article).
      { unfold get_newspaper3k_extract. rewrite Hh. eauto. }
      destruct Ha as [article Ha]. exists html, article.
      split; [done|]. split; [by apply truthy_spec|]. split; [done|].
      rewrite Ha.
      destruct (get_and_validate_content_parser fqdn pg (Some article)) as [ci parser].
      cbn [fst snd].
      assert (Hl : JsString.truthy (a_meta_lang article) = true).
      { unfold get_newspaper3k_extract in Ha. rewrite Hh in Ha.
        injection Ha as <-. cbn [a_meta_lang].
        destruct (q_lang pg) as [l|]; [|done].
        destruct (JsString.truthy l) eqn:Hl; [done|done]. }
      rewrite !Hl. cbn [negb]. reflexivity.
    + left. split; [done|]. split; [|done]. right.
      unfold JsString.truthy in Hh. apply negb_false_iff, String.eqb_eq in Hh. by subst.
  - left. split; [|done].
    unfold JsString.truthy in Hu. by apply negb_false_iff, String.eqb_eq in Hu.
Qed.

Lemma date_pattern_first pattern fl prev s k :
  pattern ∈ datePatterns →
  match s with x :: _ => JsString.is_digit x = false | [] => True end →
  run fl (compile pattern) prev s k = None.
Proof.
  intros Hp Hs. unfold datePatterns in Hp.
  repeat (apply elem_of_cons in Hp as [->|Hp]); [| | |by apply elem_of_nil in Hp].
  all: match goal with
       | |- run _ ?r _ _ _ = _ => let r' := eval vm_compute in r in change r with r'
       end.
  all: destruct s as [|x s]; [reflexivity|].
  all: cbn [run existsb item_matches xorb orb]; by rewrite Hs.
Qed.

Lemma date_pattern_search pattern fl : ∀ s prev,
  pattern ∈ datePatterns →
  Forall (λ c, JsString.is_digit c = false) s →
  search fl (compile pattern) prev s = None.
Proof.
  induction s as [|x s IH]; intros prev Hp Hs; cbn [search]; unfold match_here.
  - by rewrite date_pattern_first.
  - apply Forall_cons in Hs as [Hx Hs].
    rewrite date_pattern_first by done. by rewrite IH.
Qed.

Lemma first_some_none {A B} (f : A → option B) l :
  (∀ x, x ∈ l → f x = None) → Author.first_some f l = None.
Proof.
  induction l as [|x l IH]; intros Hall; simpl; [done|].
  rewrite (Hall x) by apply list_elem_of_here.
  apply IH. intros y Hy. apply Hall. by apply list_elem_of_further.
Qed.

Lemma get_content_unfold c :
  get_content (Some c)
  = Some (NoiseFilter.clean_extracted_content
            (JsString.trim (replace (lit "'" "g") EmptyString c))).
Proof.
  unfold get_content, unicode.
  change " " with (String " "%char EmptyString). by rewrite join_split_on.
Qed.

Lemma omap_http_spec (images : list js_value) (u : string) :
  u ∈ omap (λ image, match image with
                     | JsStr s => if JsString.startsWith "http" s then Some s else None
                     | JsOther => None
                     end) images →
  JsStr u ∈ images ∧ JsString.startsWith "http" u = true.
Proof.
  intros Hu. apply list_elem_of_omap in Hu as (image & Hin & Hsome).
  destruct image as [s|]; [|done].
  destruct (JsString.startsWith "http" s) eqn:Hs; [|done].
  injection Hsome as <-. done.
Qed.

End ExtractFacts.

(** X14.  The constructor of [NewsExtract] throws "Invalid URL passed" exactly
    on an empty URL, and "No Page Source passed" exactly on a non-empty URL
    with a missing or empty page source. In every other case it returns an
    instance on which [get_scraper_api_response] returns a record: the record
    carries the URL, the given domain name or else the host name, authors and
    images that are not null, and the error status "No Content" exactly when
    the status is not "Done". *)
Theorem constructor_outcomes `{JsDate} (url : string) (source fqdn : option string)
    (pg : NewsExtract.Page) :
  match NewsExtract.new url source fqdn pg with
  | NewsExtract.Throw message =>
      (url = EmptyString ∧ message = "Invalid URL passed")
      ∨ (url ≠ EmptyString ∧ (source = None ∨ source = Some EmptyString)
         ∧ message = "No Page Source passed")
  | NewsExtract.Ok self =>
      url ≠ EmptyString
      ∧ (∃ html, source = Some html ∧ html ≠ EmptyString)
      ∧ ∃ response,
          NewsExtract.get_scraper_api_response self = NewsExtract.Ok response
          ∧ NewsExtract.article_url response = url
          ∧ NewsExtract.article_fqdn response
            = match fqdn with
              | Some f => if JsString.truthy f then f else NewsExtract.q_hostname pg
              | None => NewsExtract.q_hostname pg
              end
          ∧ NewsExtract.article_authors response ≠ None
          ∧ NewsExtract.article_images response ≠ None
          ∧ ((NewsExtract.article_status response = "Done"
              ∧ NewsExtract.article_error_status response = None)
             ∨ (NewsExtract.article_status response = "Error"
                ∧ NewsExtract.article_error_status response = Some "No Content"))
  end.
Proof.
  destruct (new_cases url source fqdn pg)
    as [[Hu ->]|[(Hu & Hs & ->)|(Hu & html & article & Hs & Hh & Ha & ->)]].
  - by left.
  - by right.
  - split; [done|]. split; [by exists html|].
    unfold NewsExtract.get_scraper_api_response.
    cbn [NewsExtract.scraped negb]. eexists. split; [reflexivity|].
    cbn [NewsExtract.article_url NewsExtract.article_fqdn NewsExtract.article_authors
         NewsExtract.article_images NewsExtract.article_status
         NewsExtract.article_error_status NewsExtract.url NewsExtract.fqdn
         NewsExtract.hostname NewsExtract.authors NewsExtract.images NewsExtract.content].
    split; [done|]. split; [done|]. split; [done|]. split; [done|].
    destruct (match NewsExtract.get_content _ with Some c => JsString.truthy c | None => false end);
      [by left|by right].
Qed.

(** X15.  A title returned by [__get_title] is not empty, has no white space
    at either end and contains none of the blocked phrases in any letter case;
    it is the trimmed text of the title passed in, or, when none is passed, of
    the article title. *)
Theorem title_never_blocked (_title : option string) (article : option NewsExtract.Article)
    (title : string) :
  NewsExtract.get_title _title article = Some title →
  title ≠ EmptyString
  ∧ JsString.trim title = title
  ∧ (∀ key, key ∈ NewsExtract.invalid_title_keys →
            JsString.includes (JsString.toLowerCase key) (JsString.toLowerCase title) = false)
  ∧ ((∃ t, _title = Some t ∧ t ≠ EmptyString ∧ title = JsString.trim t)
     ∨ ((_title = None ∨ _title = Some EmptyString)
        ∧ ∃ a, article = Some a ∧ NewsExtract.a_title a ≠ EmptyString
               ∧ title = JsString.trim (NewsExtract.a_title a))).
Proof.
  unfold NewsExtract.get_title, NewsExtract.unicode.
  set (chosen := match match _title with
                       | Some t => if JsString.truthy t then Some (JsString.trim t) else None
                       | None => None
                       end with
                 | Some t => Some t
                 | None => match article with
                           | Some a => if JsString.truthy (NewsExtract.a_title a)
                                       then Some (JsString.trim (NewsExtract.a_title a))
                                       else None
                           | None => None
                           end
                 end).
  assert (Hsrc : ∀ t, chosen = Some t →
            (∃ t0, _title = Some t0 ∧ t0 ≠ EmptyString ∧ t = JsString.trim t0)
            ∨ ((_title = None ∨ _title = Some EmptyString)
               ∧ ∃ a, article = Some a ∧ NewsExtract.a_title a ≠ EmptyString
                      ∧ t = JsString.trim (NewsExtract.a_title a))).
  { intros t. subst chosen. destruct _title as [t0|].
    - destruct (JsString.truthy t0) eqn:Ht0.
      + intros [= <-]. left. exists t0. split; [done|]. split; [by apply truthy_spec|done].
      + unfold JsString.truthy in Ht0. apply negb_false_iff, String.eqb_eq in Ht0. subst t0.
        destruct article as [a|]; [|done].
        destruct (JsString.truthy (NewsExtract.a_title a)) eqn:Ha; [|done].
        intros [= <-]. right. split; [by right|]. exists a.
        split; [done|]. split; [by apply truthy_spec|done].
    - destruct article as [a|]; [|done].
      destruct (JsString.truthy (NewsExtract.a_title a)) eqn:Ha; [|done].
      intros [= <-]. right. split; [by left|]. exists a.
      split; [done|]. split; [by apply truthy_spec|done]. }
  destruct chosen as [t|]; [|done].
  destruct (JsString.truthy t) eqn:Ht; cbn [negb]; [|done].
  destruct (existsb _ NewsExtract.invalid_title_keys) eqn:Hex; [done|].
  intros [= <-]. split; [by apply truthy_spec|]. split.
  - destruct (Hsrc t eq_refl) as [(t0 & _ & _ & ->)|(_ & a & _ & _ & ->)]; apply trim_idemp.
  - split; [|by apply Hsrc].
    intros key Hkey. apply not_true_iff_false. intros Hinc.
    apply not_true_iff_false in Hex. apply Hex.
    apply existsb_exists. exists key. split; [by apply list_elem_of_In|done].
Qed.

Lemma title_never_blocked_witness :
  "Harbour bridge approved" ≠ EmptyString
  ∧ JsString.trim "Harbour bridge approved" = "Harbour bridge approved"
  ∧ (∀ key, key ∈ NewsExtract.invalid_title_keys →
            JsString.includes (JsString.toLowerCase key)
              (JsString.toLowerCase "Harbour bridge approved") = false)
  ∧ ((∃ t, Some "  Harbour bridge approved " = Some t ∧ t ≠ EmptyString
           ∧ "Harbour bridge approved" = JsString.trim t)
     ∨ ((Some "  Harbour bridge approved " = None
         ∨ Some "  Harbour bridge approved " = Some EmptyString)
        ∧ ∃ a, None = Some a ∧ NewsExtract.a_title a ≠ EmptyString
               ∧ "Harbour bridge approved" = JsString.trim (NewsExtract.a_title a))).
Proof.
  apply (title_never_blocked (Some "  Harbour bridge approved ") None
           "Harbour bridge approved").
  vm_compute. reflexivity.
Defined.

(** X16.  Every image returned by [__get_images] is a string of the top image
    that starts with "http", and the first image returned never matches logo,
    favicon, icon or pdf. *)
Theorem images_all_http (article : option NewsExtract.Article) :
  let images := NewsExtract.get_images article in
  (∀ image, image ∈ images →
     JsString.startsWith "http" image = true
     ∧ ∃ a, article = Some a
            ∧ match NewsExtract.a_top_image a with
              | NewsExtract.TopString s => image = s
              | NewsExtract.TopArray l => NewsExtract.JsStr image ∈ l
              end)
  ∧ (∀ first rest, images = first :: rest →
       Regex.test (Regex.lit "logo|favicon|icon|pdf" "i") first = false).
Proof.
  simpl. unfold NewsExtract.get_images.
  destruct article as [a|]; [|split; [intros ? []%elem_of_nil|done]].
  set (values := match NewsExtract.a_top_image a with
                 | NewsExtract.TopString s =>
                     if JsString.truthy s then [NewsExtract.JsStr s] else []
                 | NewsExtract.TopArray l => l
                 end).
  assert (Hvalues : ∀ u, NewsExtract.JsStr u ∈ values →
            match NewsExtract.a_top_image a with
            | NewsExtract.TopString s => u = s
            | NewsExtract.TopArray l => NewsExtract.JsStr u ∈ l
            end).
  { intros u. subst values. destruct (NewsExtract.a_top_image a) as [s|l]; [|done].
    destruct (JsString.truthy s); [|by intros ?%elem_of_nil].
    intros [= ->]%list_elem_of_singleton. done. }
  destruct (0 <? length values); [|split; [intros ? []%elem_of_nil|done]].
  set (kept := omap _ values).
  assert (Hkept : ∀ u, u ∈ kept →
            JsString.startsWith "http" u = true
            ∧ ∃ a0, Some a = Some a0
                    ∧ match NewsExtract.a_top_image a0 with
                      | NewsExtract.TopString s => u = s
                      | NewsExtract.TopArray l => NewsExtract.JsStr u ∈ l
                      end).
  { intros u Hu. destruct (omap_http_spec _ _ Hu) as [Hin Hs].
    split; [done|]. exists a. split; [done|]. by apply Hvalues. }
  destruct kept as [|first rest]; [split; [intros ? []%elem_of_nil|done]|].
  destruct (Regex.test _ first) eqn:Ht; [split; [intros ? []%elem_of_nil|done]|].
  split; [exact Hkept|]. by intros f r [= <- <-].
Qed.


(** X18.  A URL without any digit holds no date: [extract_date_via_url]
    returns null, and the publish date is the metadata date, or null when
    there is none. *)
Theorem url_without_digits_has_no_date `{JsDate} (url page_source : string)
    (article : option NewsExtract.Article) :
  Forall (λ c, JsString.is_digit c = false) (list_ascii_of_string url) →
  NewsExtract.extract_date_via_url url = None
  ∧ NewsExtract.get_publish_date url article page_source
    = toISOString <$> NewsExtract.article_date article.
Proof.
  intros Hurl.
  assert (Hnone : NewsExtract.extract_date_via_url url = None).
  { unfold NewsExtract.extract_date_via_url. apply first_some_none.
    intros pattern Hp. unfold Regex.first_match.
    by rewrite date_pattern_search. }
  split; [done|].
  unfold NewsExtract.get_publish_date. rewrite Hnone.
  by destruct (NewsExtract.article_date article).
Qed.

Lemma url_without_digits_has_no_date_witness :
  NewsExtract.extract_date_via_url (H := UtcDate.utc_date) "https://example.com/story" = None
  ∧ NewsExtract.get_publish_date (H := UtcDate.utc_date) "https://example.com/story"
      (Some (dated_article "2024-01-05T09:30:00Z")) "<html></html>"
    = toISOString (JsDate := UtcDate.utc_date)
        <$> NewsExtract.article_date (H := UtcDate.utc_date)
              (Some (dated_article "2024-01-05T09:30:00Z")).
Proof.
  apply (url_without_digits_has_no_date (H := UtcDate.utc_date) "https://example.com/story"
           "<html></html>" (Some (dated_article "2024-01-05T09:30:00Z"))).
  vm_compute. repeat constructor.
Defined.

(** X19.  [__get_content] is the cleaning pass applied to the trimmed text
    without its apostrophes (splitting on spaces and joining with spaces
    changes nothing), so that the content of every instance, when there is
    one, is normalised text; a record with status "Done" carries non-empty,
    normalised content. *)
Theorem content_always_normalised `{JsDate} (url : string) (source fqdn : option string)
    (pg : NewsExtract.Page) (self : NewsExtract.t) (text : string) :
  NewsExtract.new url source fqdn pg = NewsExtract.Ok self →
  NewsExtract.get_content (Some text)
  = Some (NoiseFilter.clean_extracted_content
            (JsString.trim (Regex.replace (Regex.lit "'" "g") EmptyString text)))
  ∧ (∀ c, NewsExtract.content self = Some c → NoiseFilter.normalised c = true)
  ∧ (∀ response,
       NewsExtract.get_scraper_api_response self = NewsExtract.Ok response →
       NewsExtract.article_status response = "Done" →
       ∃ c, NewsExtract.article_content response = Some c ∧ c ≠ EmptyString
            ∧ NoiseFilter.normalised c = true).
Proof.
  intros Hnew. split; [apply get_content_unfold|].
  assert (Hc : ∀ c, NewsExtract.content self = Some c → NoiseFilter.normalised c = true).
  { destruct (new_cases url source fqdn pg)
      as [[Hu He]|[(Hu & Hs & He)|(Hu & html & article & Hs & Hh & Ha & He)]];
      rewrite He in Hnew; try discriminate.
    injection Hnew as <-. cbn [NewsExtract.content].
    destruct (NewsExtract.get_and_validate_content_parser fqdn pg (Some article)).1
      as [raw|]; [|done].
    rewrite get_content_unfold. intros c [= <-].
    set (raw' := JsString.trim _).
    destruct (JsString.truthy raw') eqn:Ht.
    - rewrite clean_unfold by done. apply final_steps_normalise.
    - unfold NoiseFilter.clean_extracted_content. rewrite Ht. reflexivity. }
  split; [exact Hc|].
  intros response. unfold NewsExtract.get_scraper_api_response.
  destruct (NewsExtract.scraped self); cbn [negb]; [|done].
  intros [= <-]. cbn [NewsExtract.article_status NewsExtract.article_content].
  destruct (NewsExtract.content self) as [c|] eqn:Hcontent; [|done].
  destruct (JsString.truthy c) eqn:Ht; [|done].
  intros _. exists c. split; [done|]. split; [by apply truthy_spec|by apply Hc].
Qed.

Lemma content_always_normalised_witness :
  NewsExtract.get_content (Some "it's")
  = Some (NoiseFilter.clean_extracted_content
            (JsString.trim (Regex.replace (Regex.lit "'" "g") EmptyString "it's")))
  ∧ (∀ c, NewsExtract.content sample_instance = Some c → NoiseFilter.normalised c = true)
  ∧ (∀ response,
       NewsExtract.get_scraper_api_response sample_instance = NewsExtract.Ok response →
       NewsExtract.article_status response = "Done" →
       ∃ c, NewsExtract.article_content response = Some c ∧ c ≠ EmptyString
            ∧ NoiseFilter.normalised c = true).
Proof.
  apply (content_always_normalised (H := UtcDate.utc_date)
           "https://example.com/2024-01-06/harbour-bridge" (Some "<html></html>") None
           sample_page sample_instance "it's").
  vm_compute. reflexivity.
Defined.

(** X20.  [parserExtensionView] throws exactly when the request body is
    missing, with the message "Invalid Request Parameter".  For a body it
    returns one payload, with status "Done" and no error message, or with
    status "Error" and a message.  The message is "Invalid URL passed" for
    an empty URL, "No Page Source passed" for an empty page source, and
    otherwise "No Content" exactly when the extracted content is null or
    empty. *)
Theorem parser_extension_view_cases `{JsDate} (body : option OnlineParser.Article)
    (pg : NewsExtract.Page) :
  match OnlineParser.parserExtensionView body pg with
  | NewsExtract.Throw message => body = None ∧ message = "Invalid Request Parameter"
  | NewsExtract.Ok view =>
      ∃ url raw_content,
        body = Some (OnlineParser.mk_body url raw_content)
        ∧ (∃ payload, OnlineParser.data view = [payload]
                      ∧ OnlineParser.payload_status payload = OnlineParser.status view)
        ∧ (OnlineParser.status view = "Done" ∨ OnlineParser.status view = "Error")
        ∧ (OnlineParser.status view = "Done" ↔ OnlineParser.error_message view = None)
        ∧ (url = EmptyString →
           OnlineParser.error_message view = Some "Invalid URL passed")
        ∧ (url ≠ EmptyString → raw_content = EmptyString →
           OnlineParser.error_message view = Some "No Page Source passed")
        ∧ (url ≠ EmptyString → raw_content ≠ EmptyString →
           ∃ response,
             OnlineParser.data view = [OnlineParser.Extracted response]
             ∧ NewsExtract.article_url response = url
             ∧ ((OnlineParser.status view = "Done"
                 ∧ ∃ c, NewsExtract.article_content response = Some c ∧ c ≠ EmptyString)
                ∨ (OnlineParser.error_message view = Some "No Content"
                   ∧ (NewsExtract.article_content response = None
                      ∨ NewsExtract.article_content response = Some EmptyString))))
  end.
Proof.
  destruct body as [[url raw_content]|]; [|done].
  unfold OnlineParser.parserExtensionView, OnlineParser.get_article_extension.
  cbn [OnlineParser.url OnlineParser.raw_content].
  destruct (new_cases url (Some raw_content) None pg)
    as [[Hu ->]|[(Hu & Hs & ->)|(Hu & html & article & Hs & Hh & Ha & ->)]].
  - cbn. exists url, raw_content. split; [done|].
    split; [by eauto|]. split; [by right|]. split; [done|]. done.
  - assert (Hr : raw_content = EmptyString) by (destruct Hs as [?|[= ->]]; done).
    cbn. exists url, raw_content. split; [done|].
    split; [by eauto|]. split; [by right|]. split; [done|]. done.
  - injection Hs as <-.
    unfold NewsExtract.get_scraper_api_response.
    cbn [NewsExtract.scraped negb NewsExtract.content].
    set (content := NewsExtract.get_content _).
    destruct content as [c|] eqn:Hc.
    + destruct (JsString.truthy c) eqn:Ht.
      * cbn. exists url, raw_content. split; [done|].
        split; [by eauto|]. split; [by left|]. split; [done|].
        split; [done|]. split; [done|]. intros _ _. eexists. split; [reflexivity|].
        cbn. split; [done|]. left. split; [done|]. exists c.
        split; [done|by apply truthy_spec].
      * cbn. exists url, raw_content. split; [done|].
        split; [by eauto|]. split; [by right|]. split; [done|].
        split; [done|]. split; [done|]. intros _ _. eexists. split; [reflexivity|].
        cbn. split; [done|]. right. split; [done|]. right.
        unfold JsString.truthy in Ht. apply negb_false_iff, String.eqb_eq in Ht. by subst.
    + cbn. exists url, raw_content. split; [done|].
      split; [by eauto|]. split; [by right|]. split; [done|].
      split; [done|]. split; [done|]. intros _ _. eexists. split; [reflexivity|].
      cbn. split; [done|]. right. split; [done|]. by left.
Qed.

(** ** The author search: further properties *)

Section AuthorFacts.

Import Author AuthorClean.

Lemma names_loop_length sp data tags : length (names_loop sp data tags) ≤ 1.
Proof.
  induction tags as [|tag rest IH]; simpl; [lia|].
  assert (Hd : length (selector_or_default sp) ≤ 1).
  { unfold selector_or_default. by destruct (author_selectors sp). }
  destruct (iterate_tag data (find_all sp tag)) as [author|]; [|done].
  destruct (JsString.truthy author); [|done].
  destruct (JsString.truthy (final_author author)); simpl; [lia|done].
Qed.

Lemma names_loop_nil sp data tags :
  names_loop sp data tags = [] →
  ∀ tag, tag ∈ tags → iterate_tag data (find_all sp tag) = Some EmptyString.
Proof.
  assert (Hd : selector_or_default sp ≠ []).
  { unfold selector_or_default. by destruct (author_selectors sp). }
  induction tags as [|t rest IH]; simpl; [by intros _ ? ?%elem_of_nil|].
  destruct (iterate_tag data (find_all sp t)) as [author|] eqn:Hit; [|done].
  destruct (JsString.truthy author) eqn:Ha.
  - destruct (JsString.truthy (final_author author)); simpl; done.
  - unfold JsString.truthy in Ha. apply negb_false_iff, String.eqb_eq in Ha. subst author.
    intros Hnil tag [->|Hin]%elem_of_cons; [done|by apply IH].
Qed.

Lemma similar_enough_upper data v :
  similar_enough data (JsString.toUpperCase v) = similar_enough data v.
Proof.
  unfold similar_enough, Compare.eval. by rewrite to_trigram_upper.
Qed.

Lemma invalid_keys_similar key :
  key ∈ INVALID_KEYS → similar_enough (Compare.new INVALID_KEYS) key = true.
Proof.
  intros Hk. unfold INVALID_KEYS, comment_keys, footer_keys in Hk. simpl in Hk.
  repeat (apply elem_of_cons in Hk as [->|Hk]; [by vm_compute|]).
  by apply elem_of_nil in Hk.
Qed.

End AuthorFacts.

(** X21.  The author search returns at most one name. When the search in the
    [span] elements finds no candidate, the elements of the other tags are not
    searched: the result is the author of the selector, or "No - Author". The
    result is empty only if the search returned the empty string for every
    tag. *)
Theorem author_names_at_most_one (sp : Author.soup) :
  length (Author.names_of sp) ≤ 1
  ∧ (Author.iterate_tag (Compare.new Author.author_keys) (Author.find_all sp "span") = None →
     Author.names_of sp = Author.selector_or_default sp)
  ∧ (Author.names_of sp = [] →
     ∀ tag, tag ∈ Author.author_tags →
       Author.iterate_tag (Compare.new Author.author_keys) (Author.find_all sp tag)
       = Some EmptyString).
Proof.
  split; [apply names_loop_length|]. split.
  - intros Hnone. unfold Author.names_of, Author.author_tags.
    cbn [Author.names_loop]. by rewrite Hnone.
  - apply names_loop_nil.
Qed.

(** X22.  A tag is invalid as soon as one of its attribute values is one of
    the comment and footer keys written in any letter case. *)
Theorem invalid_tag_any_case (attrs : list Author.attr_value) (v : string) :
  Author.AttrString v ∈ attrs →
  JsString.toUpperCase v ∈ AuthorClean.INVALID_KEYS →
  AuthorClean.is_invalid_tag attrs = true.
Proof.
  intros Hin Hkey. unfold AuthorClean.is_invalid_tag.
  apply existsb_exists. exists (Author.AttrString v).
  split; [by apply list_elem_of_In|].
  apply existsb_exists. exists (JsString.toUpperCase v).
  split; [by apply list_elem_of_In|].
  apply orb_true_iff. right.
  rewrite <- similar_enough_upper. by apply invalid_keys_similar.
Qed.

Lemma invalid_tag_any_case_witness :
  AuthorClean.is_invalid_tag [Author.AttrString "post"; Author.AttrString "Footer"] = true.
Proof.
  apply (invalid_tag_any_case [Author.AttrString "post"; Author.AttrString "Footer"] "Footer").
  - apply list_elem_of_further, list_elem_of_here.
  - vm_compute. apply list_elem_of_further, list_elem_of_here.
Defined.

(** ** The YouTube scraper *)

Section YouTubeFacts.

Import YouTubeScraper.

Lemma digits_value_uint d : ∀ acc,
  Author.digits_value (list_ascii_of_string (NilEmpty.string_of_uint d)) (Some acc)
  = Some (uint_value d acc).
Proof.
  induction d; intros acc; simpl; try done; rewrite IHd; done.
Qed.

Lemma pos_of_uint_acc_value d : ∀ acc,
  Z.pos (Pos.of_uint_acc d acc) = uint_value d (Z.pos acc).
Proof.
  induction d; intros acc; simpl; try done; rewrite IHd; f_equal; lia.
Qed.

Lemma of_uint_value d : Z.of_N (Pos.of_uint d) = uint_value d 0.
Proof.
  induction d; simpl; try done; by rewrite pos_of_uint_acc_value.
Qed.

Lemma uint_value_N n : uint_value (N.to_uint n) 0 = Z.of_N n.
Proof.
  rewrite <- (DecimalN.Unsigned.of_to n) at 2.
  unfold N.of_uint. by rewrite of_uint_value.
Qed.

Lemma to_uint_not_nil n : N.to_uint n ≠ Decimal.Nil.
Proof.
  intros Hn. destruct n as [|p]; [done|].
  pose proof (DecimalN.Unsigned.of_to (N.pos p)) as H. rewrite Hn in H. done.
Qed.

Lemma decimal_nil_empty z :
  Float64.decimal z = NilEmpty.string_of_uint (N.to_uint (Z.to_N z)).
Proof.
  unfold Float64.decimal. pose proof (to_uint_not_nil (Z.to_N z)) as Hn.
  by destruct (N.to_uint (Z.to_N z)).
Qed.

Lemma parseInt_digits d :
  d ≠ Decimal.Nil →
  Author.parseInt (NilEmpty.string_of_uint d) = Some (uint_value d 0).
Proof.
  intros Hd. unfold Author.parseInt.
  destruct d; try done; simpl; by rewrite digits_value_uint.
Qed.

(** [parseInt] reads back a number printed in decimal, also behind a
    zero. *)
Lemma parseInt_decimal z : (0 ≤ z)%Z → Author.parseInt (Float64.decimal z) = Some z.
Proof.
  intros Hz. rewrite decimal_nil_empty.
  rewrite parseInt_digits by apply to_uint_not_nil.
  rewrite uint_value_N. by rewrite Z2N.id.
Qed.

Lemma parseInt_zero_decimal z :
  (0 ≤ z)%Z → Author.parseInt ("0" +:+ Float64.decimal z) = Some z.
Proof.
  intros Hz.
  transitivity (Author.digits_value (list_ascii_of_string (Float64.decimal z)) (Some 0%Z));
    [reflexivity|].
  rewrite decimal_nil_empty, digits_value_uint, uint_value_N. by rewrite Z2N.id.
Qed.

Lemma decimal_length_pos z : 1 ≤ String.length (Float64.decimal z).
Proof.
  rewrite decimal_nil_empty. pose proof (to_uint_not_nil (Z.to_N z)) as Hn.
  destruct (N.to_uint (Z.to_N z)); simpl; try done; lia.
Qed.

Lemma padStart_cases z :
  (String.length (Float64.decimal z) = 1
   ∧ padStart 2 "0" (Float64.decimal z) = "0" +:+ Float64.decimal z)
  ∨ (2 ≤ String.length (Float64.decimal z)
     ∧ padStart 2 "0" (Float64.decimal z) = Float64.decimal z).
Proof.
  unfold padStart. pose proof (decimal_length_pos z) as Hn.
  destruct (String.length (Float64.decimal z)) as [|[|k]] eqn:Hl; [lia| |].
  - left. done.
  - right. split; [lia|]. done.
Qed.

Lemma decimal_length_small z :
  (0 ≤ z < 100)%Z → String.length (Float64.decimal z) ≤ 2.
Proof.
  intros Hz. rewrite <- (Z2Nat.id z) by lia.
  assert (Hn : Z.to_nat z < 100) by lia.
  revert Hn. generalize (Z.to_nat z). clear. intros n Hn.
  do 100 (destruct n as [|n]; [vm_compute; lia|]). lia.
Qed.

(** Below 10^21 a non-negative integer is printed by its digits. *)
Lemma to_string_decimal z :
  (0 ≤ z < 10 ^ 21)%Z → Float64.to_string (Float64.Int z) = Float64.decimal z.
Proof.
  intros Hz. unfold Float64.to_string, Float64.natural_text.
  destruct (z <? 0)%Z eqn:Hneg; [apply Z.ltb_lt in Hneg; lia|].
  destruct (z <? 10 ^ 21)%Z eqn:Hlt; [done|]. apply Z.ltb_ge in Hlt. lia.
Qed.

Lemma insert_by_perm key t l : insert_by key t l ≡ₚ t :: l.
Proof.
  induction l as [|x l IH]; simpl; [done|].
  destruct (key x <=? key t); [done|]. rewrite IH. apply perm_swap.
Qed.

Lemma sort_by_perm key l : sort_by key l ≡ₚ l.
Proof.
  induction l as [|x l IH]; simpl; [done|].
  rewrite insert_by_perm. by rewrite IH.
Qed.

Lemma insert_by_sorted key t l :
  StronglySorted (λ a b, key b ≤ key a) l →
  StronglySorted (λ a b, key b ≤ key a) (insert_by key t l).
Proof.
  induction l as [|x l IH]; intros Hs; simpl.
  - constructor; [constructor|constructor].
  - apply StronglySorted_inv in Hs as [Hs Hx].
    destruct (key x <=? key t) eqn:Hle.
    + apply Nat.leb_le in Hle. constructor.
      * constructor; assumption.
      * constructor; [lia|]. eapply Forall_impl; [exact Hx|]. intros; simpl in *; lia.
    + apply Nat.leb_gt in Hle. constructor; [by apply IH|].
      rewrite insert_by_perm. constructor; [lia|done].
Qed.

Lemma sort_by_sorted key l : StronglySorted (λ a b, key b ≤ key a) (sort_by key l).
Proof.
  induction l as [|x l IH]; simpl; [constructor|]. by apply insert_by_sorted.
Qed.

Lemma sort_by_head key l first rest :
  sort_by key l = first :: rest →
  ∃ before after,
    l = before ++ first :: after
    ∧ (∀ t, t ∈ before → key t < key first)
    ∧ (∀ t, t ∈ after → key t ≤ key first).
Proof.
  revert first rest. induction l as [|a l IH]; intros first rest; simpl; [done|].
  destruct (sort_by key l) as [|y r'] eqn:Hs.
  - assert (l = []) as ->.
    { apply Permutation_nil_r. by rewrite <- Hs, sort_by_perm. }
    simpl. intros [= <- <-]. exists [], []. split; [done|].
    split; intros t Ht; by apply elem_of_nil in Ht.
  - destruct (IH y r' eq_refl) as (before & after & -> & Hb & Ha).
    simpl. destruct (key y <=? key a) eqn:Hle.
    + apply Nat.leb_le in Hle. intros [= <- <-].
      exists [], (before ++ y :: after). split; [done|]. split.
      * intros t Ht. by apply elem_of_nil in Ht.
      * intros t [Ht|[->|Ht]%elem_of_cons]%elem_of_app.
        -- specialize (Hb t Ht). lia.
        -- done.
        -- specialize (Ha t Ht). lia.
    + apply Nat.leb_gt in Hle. intros [= <- <-].
      exists (a :: before), after. split; [done|]. split; [|done].
      intros t [->|Ht]%elem_of_cons; [done|by apply Hb].
Qed.

(** A slot of [extractThumbnailsByQuality] along the loop. *)
Lemma assign_fold cond urls : ∀ slot,
  (∀ url, cond url = true → JsString.truthy url = true) →
  (∀ u, slot = Some u → JsString.truthy u = true) →
  foldl (λ s url, assign (cond url) s url) slot urls
  = match slot with
    | Some u => Some u
    | None => head (List.filter cond urls)
    end.
Proof.
  intros slot Hcond. revert slot.
  induction urls as [|url urls IH]; intros slot Hslot; simpl.
  - by destruct slot.
  - unfold assign at 2. destruct slot as [u|].
    + rewrite (Hslot u eq_refl), andb_false_r. by rewrite IH.
    + rewrite andb_true_r. destruct (cond url) eqn:Hc; simpl.
      * rewrite IH; [done|]. intros u [= <-]. by apply Hcond.
      * by rewrite IH.
Qed.

Lemma slot_first cond urls :
  (∀ url, cond url = true → JsString.truthy url = true) →
  foldl (λ s url, assign (cond url) s url) None urls = head (List.filter cond urls).
Proof. intros Hcond. by rewrite assign_fold. Qed.

Lemma classify_fold l : ∀ r,
  let urls := map thumb_url l in
  let r' := foldl classify r l in
  q_hqdefault r'
  = foldl (λ s url, assign (JsString.includes "hqdefault" url) s url) (q_hqdefault r) urls
  ∧ q_maxresdefault r'
    = foldl (λ s url, assign (JsString.includes "maxresdefault" url) s url)
        (q_maxresdefault r) urls
  ∧ q_default r'
    = foldl (λ s url, assign (JsString.includes "default" url
                              && negb (JsString.includes "hqdefault" url)
                              && negb (JsString.includes "maxresdefault" url)) s url)
        (q_default r) urls
  ∧ q_mqdefault r'
    = foldl (λ s url, assign (JsString.includes "mqdefault" url) s url) (q_mqdefault r) urls
  ∧ q_sddefault r'
    = foldl (λ s url, assign (JsString.includes "sddefault" url) s url) (q_sddefault r) urls.
Proof.
  induction l as [|t l IH]; intros r; simpl; [done|].
  destruct (IH (classify r t)) as (H1 & H2 & H3 & H4 & H5).
  simpl in *. rewrite H1, H2, H3, H4, H5. done.
Qed.

Lemma sorted_urls l :
  StronglySorted (λ a b, quality b ≤ quality a) l →
  StronglySorted (λ a b, getQualityScore b ≤ getQualityScore a)
    (List.filter JsString.truthy (map thumb_url l)).
Proof.
  induction 1 as [|x l Hs IH Hx]; simpl; [constructor|].
  destruct (JsString.truthy (thumb_url x)); [|done].
  constructor; [done|]. apply Forall_forall. intros u Hu.
  apply list_elem_of_In, filter_In in Hu as [Hu _].
  apply in_map_iff in Hu as (t & <- & Ht).
  apply list_elem_of_In in Ht.
  rewrite Forall_forall in Hx. by apply Hx.
Qed.

Lemma includes_truthy (name url : string) :
  name ≠ EmptyString → JsString.includes name url = true → JsString.truthy url = true.
Proof.
  intros Hn. destruct url; [|done]. simpl.
  destruct name; [done|]. simpl. done.
Qed.

End YouTubeFacts.

(** X23.  [formatTimestamp] on an offset that is a whole number of
    milliseconds from 0 up to (not including) 2^53: the text is the minutes,
    a colon and the seconds; both numbers are written in decimal and padded
    with a zero to at least two characters, the seconds to exactly two; read
    back, they are the whole minutes and the remaining seconds (below 60) of
    the offset's whole seconds. The quotients are computed in double
    precision, and on this range their floors are the integer quotients. *)
Theorem format_timestamp_round_trip (milliseconds : Z) :
  (0 ≤ milliseconds < 2 ^ 53)%Z →
  ∃ minutes seconds,
    YouTubeScraper.formatTimestamp (Float64.of_Z milliseconds) = minutes +:+ ":" +:+ seconds
    ∧ 2 ≤ String.length minutes
    ∧ String.length seconds = 2
    ∧ Author.parseInt minutes = Some (milliseconds / 1000 / 60)%Z
    ∧ Author.parseInt seconds = Some ((milliseconds / 1000) mod 60)%Z
    ∧ (0 ≤ (milliseconds / 1000) mod 60 < 60)%Z
    ∧ (60 * (milliseconds / 1000 / 60) + (milliseconds / 1000) mod 60
       = milliseconds / 1000)%Z.
Proof.
  intros Hms. unfold YouTubeScraper.formatTimestamp.
  rewrite floor_div by lia. cbn [Float64.of_integral Float64.rem].
  assert (Hsec : (0 ≤ milliseconds / 1000 < 2 ^ 53)%Z).
  { split; [apply Z.div_pos; lia|].
    apply Z.div_lt_upper_bound; lia. }
  rewrite floor_div by lia.
  set (total := (milliseconds / 1000)%Z) in *.
  set (m := (total / 60)%Z). 
  assert (Hrem : Z.rem total 60 = (total mod 60)%Z) by (apply Z.rem_mod_nonneg; lia).
  rewrite Hrem. set (s := (total mod 60)%Z).
  assert (Hs : (0 ≤ s < 60)%Z) by (subst s; apply Z.mod_pos_bound; lia).
  assert (Hm : (0 ≤ m < 10 ^ 21)%Z).
  { split; [subst m; apply Z.div_pos; lia|].
    subst m. apply Z.div_lt_upper_bound; lia. }
  rewrite !to_string_decimal by lia.
  exists (YouTubeScraper.padStart 2 "0" (Float64.decimal m)),
         (YouTubeScraper.padStart 2 "0" (Float64.decimal s)).
  split; [done|].
  pose proof (decimal_length_small s ltac:(lia)) as Hsl.
  split; [|split; [|split; [|split; [|split]]]].
  - destruct (padStart_cases m) as [[Hl ->]|[Hl ->]]; [|done].
    rewrite string_length_app, Hl. simpl. lia.
  - destruct (padStart_cases s) as [[Hl ->]|[Hl ->]].
    + rewrite string_length_app, Hl. simpl. lia.
    + lia.
  - destruct (padStart_cases m) as [[Hl ->]|[Hl ->]];
      [apply parseInt_zero_decimal|apply parseInt_decimal]; lia.
  - destruct (padStart_cases s) as [[Hl ->]|[Hl ->]];
      [apply parseInt_zero_decimal|apply parseInt_decimal]; lia.
  - done.
  - subst m s. pose proof (Z.div_mod total 60 ltac:(lia)). lia.
Qed.

Lemma format_timestamp_round_trip_witness :
  ∃ minutes seconds,
    YouTubeScraper.formatTimestamp (Float64.of_Z 754000) = minutes +:+ ":" +:+ seconds
    ∧ 2 ≤ String.length minutes
    ∧ String.length seconds = 2
    ∧ Author.parseInt minutes = Some (754000 / 1000 / 60)%Z
    ∧ Author.parseInt seconds = Some ((754000 / 1000) mod 60)%Z
    ∧ (0 ≤ (754000 / 1000) mod 60 < 60)%Z
    ∧ (60 * (754000 / 1000 / 60) + (754000 / 1000) mod 60 = 754000 / 1000)%Z.
Proof. apply (format_timestamp_round_trip 754000). lia. Defined.

(** [formatTimestamp] on other offsets: from 10^21 minutes on the minutes are
    printed in exponent notation; a negative offset gives two negative
    numbers; NaN gives NaN twice. *)
Example format_timestamp_examples :
  YouTubeScraper.formatTimestamp (Float64.of_Z 754000) = "12:34"
  ∧ YouTubeScraper.formatTimestamp (Float64.of_Z (6 * 10 ^ 25)) = "1e+21:00"
  ∧ YouTubeScraper.formatTimestamp (Float64.of_Z (-1500)) = "-1:-2"
  ∧ YouTubeScraper.formatTimestamp S754_nan = "NaN:NaN".
Proof. vm_compute. repeat split; reflexivity. Qed.

(** X24.  [sortThumbnailsByQuality] rearranges the thumbnails by descending
    quality score, and [extractThumbnailUrl] returns the URL of the first
    thumbnail of greatest quality score: the thumbnails before it score less,
    those after it do not score more. Without player data or without
    thumbnails the URL is empty. *)
Theorem best_thumbnail_first (thumbnails : list YouTubeScraper.thumbnail) :
  let sorted := YouTubeScraper.sortThumbnailsByQuality thumbnails in
  sorted ≡ₚ thumbnails
  ∧ StronglySorted (λ a b, YouTubeScraper.quality b ≤ YouTubeScraper.quality a) sorted
  ∧ StronglySorted
      (λ a b, YouTubeScraper.getQualityScore b ≤ YouTubeScraper.getQualityScore a)
      (YouTubeScraper.extractAllThumbnailUrls (Some thumbnails))
  ∧ YouTubeScraper.extractThumbnailUrl None = EmptyString
  ∧ YouTubeScraper.extractThumbnailUrl (Some []) = EmptyString
  ∧ (thumbnails ≠ [] →
     ∃ before best after,
       thumbnails = before ++ best :: after
       ∧ YouTubeScraper.extractThumbnailUrl (Some thumbnails) = YouTubeScraper.thumb_url best
       ∧ (∀ t, t ∈ before → YouTubeScraper.quality t < YouTubeScraper.quality best)
       ∧ (∀ t, t ∈ after → YouTubeScraper.quality t ≤ YouTubeScraper.quality best)).
Proof.
  simpl. unfold YouTubeScraper.sortThumbnailsByQuality.
  split; [apply sort_by_perm|]. split; [apply sort_by_sorted|].
  split; [apply sorted_urls, sort_by_sorted|].
  split; [done|]. split; [done|].
  intros Hne. unfold YouTubeScraper.extractThumbnailUrl,
    YouTubeScraper.sortThumbnailsByQuality.
  destruct (YouTubeScraper.sort_by YouTubeScraper.quality thumbnails)
    as [|first rest] eqn:Hs.
  - exfalso. apply Hne. apply Permutation_nil_r. by rewrite <- Hs, sort_by_perm.
  - destruct (sort_by_head _ _ _ _ Hs) as (before & after & Hl & Hb & Ha).
    exists before, first, after. split; [done|]. split; [|done].
    by destruct thumbnails.
Qed.

(** X25.  Each slot of [extractThumbnailsByQuality] holds the URL of the first
    thumbnail, in order of descending width, whose URL contains the name of
    the slot; the slot "default" takes the first URL that contains "default"
    but neither "hqdefault" nor "maxresdefault". *)
Theorem thumbnails_by_quality_slots (thumbnails : list YouTubeScraper.thumbnail) :
  let by_width := YouTubeScraper.sort_by YouTubeScraper.width thumbnails in
  let result := YouTubeScraper.extractThumbnailsByQuality (Some thumbnails) in
  let first_with cond := head (List.filter cond (map YouTubeScraper.thumb_url by_width)) in
  by_width ≡ₚ thumbnails
  ∧ StronglySorted (λ a b, YouTubeScraper.width b ≤ YouTubeScraper.width a) by_width
  ∧ YouTubeScraper.q_maxresdefault result = first_with (JsString.includes "maxresdefault")
  ∧ YouTubeScraper.q_hqdefault result = first_with (JsString.includes "hqdefault")
  ∧ YouTubeScraper.q_mqdefault result = first_with (JsString.includes "mqdefault")
  ∧ YouTubeScraper.q_sddefault result = first_with (JsString.includes "sddefault")
  ∧ YouTubeScraper.q_default result
    = first_with (λ url, JsString.includes "default" url
                         && negb (JsString.includes "hqdefault" url)
                         && negb (JsString.includes "maxresdefault" url)).
Proof.
  simpl. split; [apply sort_by_perm|]. split; [apply sort_by_sorted|].
  unfold YouTubeScraper.extractThumbnailsByQuality.
  destruct (classify_fold (YouTubeScraper.sort_by YouTubeScraper.width thumbnails)
              (YouTubeScraper.mk_by_quality None None None None None))
    as (H1 & H2 & H3 & H4 & H5).
  cbv zeta in *. rewrite H1, H2, H3, H4, H5.
  cbn [YouTubeScraper.q_hqdefault YouTubeScraper.q_maxresdefault YouTubeScraper.q_default
       YouTubeScraper.q_mqdefault YouTubeScraper.q_sddefault].
  split; [|split; [|split; [|split]]].
  - apply slot_first. intros url Hu. by apply (includes_truthy "maxresdefault").
  - apply slot_first. intros url Hu. by apply (includes_truthy "hqdefault").
  - apply slot_first. intros url Hu. by apply (includes_truthy "mqdefault").
  - apply slot_first. intros url Hu. by apply (includes_truthy "sddefault").
  - apply slot_first. intros url [[Hu _]%andb_prop _]%andb_prop.
    by apply (includes_truthy "default").
Qed.

(** ** The document tree *)

Section TreeFacts.

Import GeneralParser Content Spaces.

(** Induction on a tree, with the property at hand for every child. *)
Lemma node_children_ind (P : node → Prop) :
  (∀ d, P (Text d)) →
  (∀ tag class_attr id_attr children,
      Forall P children → P (Element tag class_attr id_attr children)) →
  ∀ n, P n.
Proof.
  intros HT HE. fix IH 1. intros [d|tag class_attr id_attr children]; [apply HT|].
  apply HE. induction children as [|c r IHr]; constructor; [apply IH|exact IHr].
Qed.

Lemma sum_cons x l : list_sum (x :: l) = x + list_sum l.
Proof. reflexivity. Qed.

Lemma sweep_element tag class_attr id_attr children :
  sweep (Element tag class_attr id_attr children)
  = Element tag class_attr id_attr
      (map sweep (List.filter (λ c, negb (is_empty_element c)) children)).
Proof.
  cbn [sweep]. f_equal.
  induction children as [|c r IH]; [done|].
  cbn [List.filter]. destruct (is_empty_element c); cbn [negb map]; by rewrite IH.
Qed.

Lemma elements_element tag class_attr id_attr children :
  elements (Element tag class_attr id_attr children) = S (list_sum (map elements children)).
Proof.
  cbn [elements]. f_equal.
  induction children as [|c r IH]; [done|]. cbn [map]; rewrite ?sum_cons. by rewrite IH.
Qed.

Lemma list_ascii_app a b :
  list_ascii_of_string (a +:+ b) = list_ascii_of_string a ++ list_ascii_of_string b.
Proof. induction a as [|c a IH]; simpl; [done|]. by rewrite IH. Qed.

Lemma visible_app a b : visible (a +:+ b) = visible a ++ visible b.
Proof. unfold visible. by rewrite list_ascii_app, List.filter_app. Qed.

Lemma visible_element tag class_attr id_attr children :
  visible (textContent (Element tag class_attr id_attr children))
  = concat (map (λ c, visible (textContent c)) children).
Proof.
  cbn [textContent].
  induction children as [|c r IH]; [done|].
  cbn [map concat]. by rewrite visible_app, IH.
Qed.

Lemma empty_element_spec n :
  is_empty_element n = true → 1 ≤ elements n ∧ visible (textContent n) = [].
Proof.
  destruct n as [d|tag class_attr id_attr children]; [done|].
  intros [[_ Ht]%andb_prop _]%andb_prop. split; [rewrite elements_element; lia|].
  apply negb_true_iff in Ht. unfold JsString.truthy in Ht.
  apply negb_false_iff, String.eqb_eq in Ht.
  apply trim_empty_iff in Ht. by apply visible_nil.
Qed.

Lemma elements_sweep_le n : elements (sweep n) ≤ elements n.
Proof.
  induction n as [d|tag class_attr id_attr children IH] using node_children_ind; [done|].
  rewrite sweep_element, !elements_element. apply le_n_S.
  induction children as [|c r IHr]; [done|].
  apply Forall_cons in IH as [Hc Hr]. specialize (IHr Hr).
  cbn [List.filter]. destruct (is_empty_element c); cbn [negb map]; rewrite ?sum_cons.
  all: lia.
Qed.

Lemma sum_sweep_le children :
  list_sum (map elements (map sweep (List.filter (λ c, negb (is_empty_element c)) children)))
  ≤ list_sum (map elements children).
Proof.
  induction children as [|c r IH]; [done|].
  cbn [List.filter]. pose proof (elements_sweep_le c).
  destruct (is_empty_element c); cbn [negb map]; rewrite ?sum_cons; lia.
Qed.

Lemma sweep_fixed n : elements (sweep n) = elements n → sweep n = n.
Proof.
  induction n as [d|tag class_attr id_attr children IH] using node_children_ind; [done|].
  rewrite sweep_element, !elements_element. intros [= Hsum]. f_equal.
  induction children as [|c r IHr]; [done|].
  apply Forall_cons in IH as [Hc Hr].
  pose proof (sum_sweep_le r) as Hle. pose proof (elements_sweep_le c) as Hlc.
  cbn [List.filter] in *. destruct (is_empty_element c) eqn:He; cbn [negb map] in *; rewrite ?sum_cons in *.
  - destruct (empty_element_spec c He) as [Hpos _]. lia.
  - rewrite Hc by lia. rewrite IHr; [done|done|lia].
Qed.

Lemma subtree_unfold n :
  subtree n = n :: match n with
                   | Text _ => []
                   | Element _ _ _ children => flat_map subtree children
                   end.
Proof. by destruct n. Qed.

Lemma sweep_fixed_clean n :
  sweep n = n →
  Forall (λ e, is_empty_element e = false)
    match n with
    | Text _ => []
    | Element _ _ _ children => flat_map subtree children
    end.
Proof.
  induction n as [d|tag class_attr id_attr children IH] using node_children_ind; [done|].
  rewrite sweep_element. intros [= Hmap].
  induction children as [|c r IHr]; [done|].
  apply Forall_cons in IH as [Hc Hr].
  cbn [List.filter] in Hmap. destruct (is_empty_element c) eqn:He; cbn [negb map] in Hmap.
  - exfalso. apply (f_equal length) in Hmap. simpl in Hmap.
    rewrite length_map in Hmap.
    pose proof (List.filter_length_le (λ c, negb (is_empty_element c)) r). lia.
  - injection Hmap as Hsc Hsr. cbn [flat_map]. apply Forall_app. split.
    + rewrite subtree_unfold. constructor; [done|]. by apply Hc.
    + by apply IHr.
Qed.

Lemma visible_sweep n : visible (textContent (sweep n)) = visible (textContent n).
Proof.
  induction n as [d|tag class_attr id_attr children IH] using node_children_ind; [done|].
  rewrite sweep_element, !visible_element. 
  induction children as [|c r IHr]; [done|].
  apply Forall_cons in IH as [Hc Hr]. specialize (IHr Hr).
  cbn [List.filter]. destruct (is_empty_element c) eqn:He; cbn [negb map concat].
  - destruct (empty_element_spec c He) as [_ ->]. by rewrite IHr.
  - by rewrite Hc, IHr.
Qed.

Lemma sweep_loop_spec : ∀ turns root,
  elements root < turns →
  match sweep_loop turns root with
  | Some cleaned =>
      is_empty_element cleaned = false
      ∧ sweep cleaned = cleaned
      ∧ visible (textContent cleaned) = visible (textContent root)
  | None => visible (textContent root) = []
  end.
Proof.
  induction turns as [|turns IH]; intros root Hlt; [lia|].
  cbn [sweep_loop]. destruct (is_empty_element root) eqn:He.
  - by destruct (empty_element_spec root He).
  - destruct (elements (sweep root) =? elements root) eqn:Heq.
    + apply Nat.eqb_eq in Heq. split; [done|]. split; [by apply sweep_fixed|done].
    + apply Nat.eqb_neq in Heq. pose proof (elements_sweep_le root) as Hle.
      specialize (IH (sweep root) ltac:(lia)).
      destruct (sweep_loop turns (sweep root)) as [cleaned|].
      * destruct IH as (H1 & H2 & H3). by rewrite H3, visible_sweep.
      * by rewrite <- visible_sweep.
Qed.

Lemma clean_attributes_text removeClasses removeIds n :
  textContent (cleanAttributes removeClasses removeIds n) = textContent n.
Proof.
  induction n as [d|tag class_attr id_attr children IH] using node_children_ind; [done|].
  cbn [cleanAttributes textContent].
  induction children as [|c r IHr]; [done|].
  apply Forall_cons in IH as [Hc Hr]. cbn [map]. by rewrite Hc, IHr.
Qed.

Lemma with_tag_element tag t class_attr id_attr children :
  with_tag tag (Element t class_attr id_attr children)
  = (if String.eqb t tag then [Element t class_attr id_attr children] else [])
    ++ flat_map (with_tag tag) children.
Proof.
  reflexivity.
Qed.

Lemma clean_attributes_with_tag removeClasses removeIds tag n :
  length (with_tag tag (cleanAttributes removeClasses removeIds n))
  = length (with_tag tag n).
Proof.
  induction n as [d|t class_attr id_attr children IH] using node_children_ind; [done|].
  cbn [cleanAttributes]. rewrite !with_tag_element, !length_app. f_equal.
  - by destruct (String.eqb t tag).
  - induction children as [|c r IHr]; [done|].
    apply Forall_cons in IH as [Hc Hr]. cbn [map flat_map].
    by rewrite !length_app, Hc, IHr.
Qed.

Lemma clean_attributes_query removeClasses removeIds tag n :
  length (querySelectorAll tag (cleanAttributes removeClasses removeIds n))
  = length (querySelectorAll tag n).
Proof.
  destruct n as [d|t class_attr id_attr children]; [done|].
  cbn [cleanAttributes querySelectorAll].
  induction children as [|c r IH]; [done|]. cbn [map flat_map].
  by rewrite !length_app, clean_attributes_with_tag, IH.
Qed.

(** The loop of [extractTitle]: the first source with a valid value. *)
Lemma first_valid_first sources doc :
  match first_valid sources doc with
  | Some title =>
      valid_title (Some title) = true
      ∧ ∃ before source after,
          sources = before ++ source :: after
          ∧ source doc = Some title
          ∧ Forall (λ s, valid_title (s doc) = false) before
  | None => Forall (λ s, valid_title (s doc) = false) sources
  end.
Proof.
  induction sources as [|source rest IH]; cbn [first_valid]; [by constructor|].
  cbv zeta. destruct (valid_title (source doc)) eqn:Hv.
  - destruct (source doc) as [title|] eqn:Hs; [|done].
    split; [done|]. exists [], source, rest. split; [done|]. split; [done|]. constructor.
  - destruct (first_valid rest doc) as [title|].
    + destruct IH as [Ht (before & s & after & -> & Hs & Hb)].
      split; [done|]. exists (source :: before), s, after.
      split; [done|]. split; [done|]. by constructor.
    + by constructor.
Qed.

End TreeFacts.

(** X26.  [removeEmptyElements] ends with a tree in which no element is empty,
    the six tags it spares apart, and it removes white space only: the other
    code units of the text are those of the tree it started from. When it
    removes the root itself, the text of the tree was blank. *)
Theorem remove_empty_elements_fixpoint (root : GeneralParser.node) :
  match Content.removeEmptyElements root with
  | Some cleaned =>
      Forall (λ e, Content.is_empty_element e = false) (Content.subtree cleaned)
      ∧ Spaces.visible (GeneralParser.textContent cleaned)
        = Spaces.visible (GeneralParser.textContent root)
  | None => Spaces.blank (GeneralParser.textContent root) = true
  end.
Proof.
  unfold Content.removeEmptyElements.
  pose proof (sweep_loop_spec (S (Content.elements root)) root ltac:(lia)) as Hspec.
  destruct (Content.sweep_loop _ root) as [cleaned|].
  - destruct Hspec as (H1 & H2 & H3). split; [|done].
    pose proof (sweep_fixed_clean cleaned H2) as Hc.
    rewrite subtree_unfold. by constructor.
  - by apply visible_nil.
Qed.

(** X27.  When class attributes are removed before the content is chosen, as
    [parseCleanContent] and [parseMinimalContent] ask, the score of an element
    depends on no keyword: it is the text length plus 50 for each paragraph,
    less 100 times the link ratio when that ratio exceeds 0.3, and not below
    zero, the ratio, the product and the difference being taken in double
    precision; its text, paragraphs and links are those of the element
    before the removal. *)
Theorem clean_attributes_score (removeIds : bool) (element : GeneralParser.node)
    (text : string) :
  let cleaned := Content.cleanAttributes true removeIds element in
  let paragraphs := length (GeneralParser.querySelectorAll "p" element) in
  let links := length (GeneralParser.querySelectorAll "a" element) in
  let linkRatio := GeneralParser.link_ratio links (String.length text) in
  let score := (Z.of_nat (String.length text) + Z.of_nat paragraphs * 50)%Z in
  GeneralParser.textContent cleaned = GeneralParser.textContent element
  ∧ GeneralParser.className cleaned = EmptyString
  ∧ GeneralParser.calculateContentScore cleaned text
    = Float64.max (Float64.of_Z 0)
        (if Float64.ltb GeneralParser.three_tenths linkRatio
         then Float64.sub (Float64.of_Z score) (Float64.mul linkRatio (Float64.of_Z 100))
         else Float64.of_Z score).
Proof.
  intros cleaned paragraphs links linkRatio score.
  split; [apply clean_attributes_text|].
  assert (Hclass : GeneralParser.className cleaned = EmptyString).
  { subst cleaned. by destruct element. }
  split; [done|].
  unfold GeneralParser.calculateContentScore. rewrite Hclass.
  subst cleaned. rewrite !clean_attributes_query. reflexivity.
Qed.

(** X28.  [extractTitle] on a document as [parse] hands it over, after
    [cleanDocument] removed the [meta], [script] and [title] elements.  The
    title has more than 3 and fewer than 300 code units.  It is the value of
    the first source, in the order of the list, whose value has more than 3
    and fewer than 300 code units, and this source is one of the five that
    read headings and title classes (the 4th, 5th, 6th, 8th or 9th); when no
    source has such a value the title is the literal "Untitled Page". *)
Theorem extract_title_bounds (doc : GeneralParser.TitleQueries) :
  GeneralParser.cleaned doc = true →
  let title := GeneralParser.extractTitle doc in
  let invalid (source : GeneralParser.TitleQueries → option string) :=
    GeneralParser.valid_title (source doc) = false in
  3 < String.length title < 300
  ∧ ((∃ before source after,
        GeneralParser.titleSources = before ++ source :: after
        ∧ source doc = Some title
        ∧ Forall invalid before
        ∧ length before ∈ [3; 4; 5; 7; 8])
     ∨ (title = "Untitled Page" ∧ Forall invalid GeneralParser.titleSources)).
Proof.
  intros Hclean. cbv zeta. unfold GeneralParser.extractTitle.
  unfold GeneralParser.cleaned in Hclean.
  apply andb_prop in Hclean as [Hclean Htt].
  apply andb_prop in Hclean as [Hclean Hld].
  apply andb_prop in Hclean as [Hog Htw].
  apply bool_decide_eq_true in Hog, Htw, Hld, Htt.
  pose proof (first_valid_first GeneralParser.titleSources doc) as Hfirst.
  destruct (GeneralParser.first_valid _ doc) as [title|].
  - destruct Hfirst as [Hv (before & source & after & Hlist & Hsource & Hbefore)]. split.
    + unfold GeneralParser.valid_title in Hv.
      apply andb_prop in Hv as [[_ H1]%andb_prop H2].
      apply Nat.ltb_lt in H1, H2. lia.
    + left. exists before, source, after.
      split; [done|]. split; [done|]. split; [done|].
      assert (Hlookup : GeneralParser.titleSources !! length before = Some source).
      { rewrite Hlist. by apply list_lookup_middle. }
      assert (Hlen : length before < 9).
      { apply lookup_lt_Some in Hlookup. exact Hlookup. }
      destruct (length before) as [|[|[|[|[|[|[|[|[|n]]]]]]]]]; [..|lia];
        try (repeat first [apply list_elem_of_here | apply list_elem_of_further]; fail);
        cbn in Hlookup; injection Hlookup as <-; exfalso.
      * congruence.
      * congruence.
      * rewrite Hld in Hsource. done.
      * rewrite Htt in Hsource. done.
  - split; [simpl; lia|]. by right.
Qed.

Lemma extract_title_bounds_witness :
  GeneralParser.extractTitle headline_document = "Harbour bridge reopens"
  ∧ 3 < String.length (GeneralParser.extractTitle headline_document) < 300.
Proof.
  split; [reflexivity|].
  apply (extract_title_bounds headline_document). reflexivity.
Defined.
